(** * Bilateral filter benchmark: the command line, the scalar reference
      filter, the benchmark loop and the verification loop of
      [bilateral.cpp].

    The host program is embedded shallowly.  Buffers are lists of bytes
    (integers in [0, 256)), the [int] loop counters and indices are integers,
    and the single-precision arithmetic of [runReference] is reached through
    an interface, [FloatArith], whose instance is IEEE-754 arithmetic: binary32
    for [float], binary64 where the C++ rules promote to [double]. *)

From Stdlib Require Import ZArith List Bool Lia FinFun SpecFloat Reals Lra.
From Stdlib Require String Ascii.
Import ListNotations.
Import String.StringSyntax.
Local Open Scope Z_scope.

(** ** Computations over a state, with failure

    A computation threads a state of type [S]; an access outside a buffer
    has no defined behaviour in C++ and makes the computation fail. *)

Definition M (S A : Type) : Type := S -> option (A * S).

Definition ret {S A : Type} (a : A) : M S A := fun s => Some (a, s).

Definition bind {S A B : Type} (c : M S A) (k : A -> M S B) : M S B :=
  fun s => match c s with
           | Some (a, s') => k a s'
           | None => None
           end.

Declare Scope mem_scope.
Delimit Scope mem_scope with mem.
Notation "x <- c ;; k" := (bind c (fun x => k))
  (at level 61, c at next level, right associativity) : mem_scope.
Notation "c ;;; k" := (bind c (fun _ => k))
  (at level 61, right associativity) : mem_scope.
Local Open Scope mem_scope.

(** A loop that carries local variables of type [L] over the values [l] of
    its counter. *)
Fixpoint foldM {S A L : Type} (body : A -> L -> M S L) (l : list A) (v : L) : M S L :=
  match l with
  | [] => ret v
  | a :: l' => v' <- body a v ;; foldM body l' v'
  end.

Definition forM_ {S A : Type} (l : list A) (body : A -> M S unit) : M S unit :=
  foldM (fun a _ => body a) l tt.

(** The values [lo, lo+1, ..., hi-1] of the counter of
    [for (k = lo; k < hi; k++)]; none when [hi <= lo]. *)
Definition range (lo hi : Z) : list Z :=
  map (fun n => lo + Z.of_nat n) (seq 0 (Z.to_nat (hi - lo))).

(** [buf[k]] for a C array: defined only inside the array. *)
Definition index {A : Type} (buf : list A) (k : Z) : option A :=
  if k <? 0 then None else nth_error buf (Z.to_nat k).

(** A read that leaves the state alone. *)
Definition read {S : Type} (buf : list Z) (k : Z) : M S Z :=
  fun s => match index buf k with
           | Some v => Some (v, s)
           | None => None
           end.

(** ** Host memory of [runReference]

    [runReference] reads the input buffer and writes the output buffer; the
    state is the output buffer and the log of the accesses made so far, the
    latest first. *)

Inductive access : Type :=
| Rd (k : Z)
| Wr (k : Z) (v : Z).

Record mem : Type := { outbuf : list Z; trace : list access }.

(** Replace the elements of [l] from position [n] on by [vs]. *)
Definition splice (l : list Z) (n : nat) (vs : list Z) : list Z :=
  firstn n l ++ vs ++ skipn (n + length vs) l.

Definition load (buf : list Z) (k : Z) : M mem Z :=
  fun m => match index buf k with
           | Some v => Some (v, {| outbuf := outbuf m; trace := Rd k :: trace m |})
           | None => None
           end.

Definition store (k v : Z) : M mem unit :=
  fun m => if (0 <=? k) && (k <? Z.of_nat (length (outbuf m)))
           then Some (tt, {| outbuf := splice (outbuf m) (Z.to_nat k) [v];
                             trace := Wr k v :: trace m |})
           else None.

(** ** The arithmetic of [float] and [double]

    [of_int] is the conversion of an [int] (or of a promoted [uint8_t]) to
    [float]; it also gives the literals [0.f], [1.f] and [255.f].
    [fneg_half] is the literal [-0.5f], [fltb] is [operator<] and [to_u8] is
    the conversion [(uint8_t)].  C++ leaves [(uint8_t)f] undefined when the
    truncation of [f] is not in [0, 256); an instance fixes a value there.

    [sqrt] and [exp] of a [float] are the [float] overloads.  [pow(x, 2)] of
    a [float] and an [int] is not: since C++11 [std::pow] promotes both
    arguments and returns a [double], so the sum, the square root and the
    product of line 351 are evaluated in [double] and converted to [float]
    by the assignment to [norm].  [to_double] is the promotion, [dpow2 x] is
    [pow(x, 2)] at [double], [dadd], [dmul] and [dsqrt] are [+], [*] and
    [sqrt] at [double], and [to_float] is the conversion of the
    assignment. *)
Class FloatArith (F : Type) : Type := {
  double : Type;
  of_int : Z -> F;
  fneg_half : F;
  fadd : F -> F -> F;
  fsub : F -> F -> F;
  fmul : F -> F -> F;
  fdiv : F -> F -> F;
  fsqrt : F -> F;
  fexp : F -> F;
  to_double : F -> double;
  dpow2 : double -> double;
  dadd : double -> double -> double;
  dmul : double -> double -> double;
  dsqrt : double -> double;
  to_float : double -> F;
  fltb : F -> F -> bool;
  to_u8 : F -> Z
}.

Section Filter.

Context {F : Type} {FA : FloatArith F}.

(** [std::max] and [std::min] at type [float], as <algorithm> defines them. *)
Definition fmax (a b : F) : F := if fltb a b then b else a.
Definition fmin (a b : F) : F := if fltb b a then b else a.

(** The globals [sigmaDomain] and [sigmaRange]. *)
Variable sigmaDomain sigmaRange : F.

(** The locals [coeff], [sr], [sg] and [sb] of [runReference]. *)
Record acc : Type := { coeff : F; sr : F; sg : F; sb : F }.

Definition acc0 : acc :=
  {| coeff := of_int 0; sr := of_int 0; sg := of_int 0; sb := of_int 0 |}.

(** Lines 346-352: the weight of a sample [(r, g, b)] at offset [(i, j)]
    against the centre [(cr, cg, cb)]. *)
Definition weight_of (i j : Z) (c s : F * F * F) : F :=
  let '(cr, cg, cb) := c in
  let '(r, g, b) := s in
  let norm := fmul (fsqrt (fadd (of_int (i * i)) (of_int (j * j))))
                   (fdiv (of_int 1) sigmaDomain) in
  let weight := fexp (fmul fneg_half (fmul norm norm)) in
  let norm := to_float
                (dmul (dsqrt (dadd (dadd (dpow2 (to_double (fsub r cr)))
                                         (dpow2 (to_double (fsub g cg))))
                                   (dpow2 (to_double (fsub b cb)))))
                      (to_double (fdiv (of_int 1) sigmaRange))) in
  fmul weight (fexp (fmul fneg_half (fmul norm norm))).

(** Lines 354-357. *)
Definition accumulate (weight : F) (s : F * F * F) (a : acc) : acc :=
  let '(r, g, b) := s in
  {| coeff := fadd (coeff a) weight;
     sr := fadd (sr a) (fmul weight r);
     sg := fadd (sg a) (fmul weight g);
     sb := fadd (sb a) (fmul weight b) |}.

(** [(uint8_t)(std::min(std::max(s/coeff, 0.f), 1.f)*255.f)] *)
Definition quantize (s coeff : F) : Z :=
  to_u8 (fmul (fmin (fmax (fdiv s coeff) (of_int 0)) (of_int 1)) (of_int 255)).

Section RunReference.

Variable input : list Z.
Variable width height : Z.

(** [input[k]/255.f] *)
Definition load_unit (k : Z) : M mem F :=
  v <- load input k ;; ret (fdiv (of_int v) (of_int 255)).

(** The three reads of lines 326-328 and of lines 342-344. *)
Definition load_rgb (px py : Z) : M mem (F * F * F) :=
  r <- load_unit ((px + py * width) * 4 + 0) ;;
  g <- load_unit ((px + py * width) * 4 + 1) ;;
  b <- load_unit ((px + py * width) * 4 + 2) ;;
  ret (r, g, b).

(** Lines 339-344: the sample at offset [(i, j)] of pixel [(x, y)]. *)
Definition load_sample (x y i j : Z) : M mem (F * F * F) :=
  let _x := Z.min (Z.max (x + i) 0) (width - 1) in
  let _y := Z.min (Z.max (y + j) 0) (height - 1) in
  load_rgb _x _y.

(** The body of the two inner loops, lines 339-357. *)
Definition sample_step (x y : Z) (c : F * F * F) (j i : Z) (a : acc) : M mem acc :=
  s <- load_sample x y i j ;;
  ret (accumulate (weight_of i j c s) s a).

(** Lines 326-359: the centre of pixel [(x, y)] and the sums over its
    neighbourhood. *)
Definition pixel_sums (x y : Z) : M mem acc :=
  c <- load_rgb x y ;;
  foldM (fun j a => foldM (fun i a => sample_step x y c j i a) (range (-2) 3) a)
        (range (-2) 3) acc0.

(** Lines 326-363: the body of the loop over the pixels. *)
Definition pixel (x y : Z) : M mem unit :=
  a <- pixel_sums x y ;;
  store ((x + y * width) * 4 + 0) (quantize (sr a) (coeff a)) ;;;
  store ((x + y * width) * 4 + 1) (quantize (sg a) (coeff a)) ;;;
  store ((x + y * width) * 4 + 2) (quantize (sb a) (coeff a)) ;;;
  alpha <- load input ((x + y * width) * 4 + 3) ;;
  store ((x + y * width) * 4 + 3) alpha.

Definition runReference : M mem unit :=
  forM_ (range 0 height) (fun y => forM_ (range 0 width) (fun x => pixel x y)).

(** *** What [runReference] computes, as functions of the input

    The same expressions with the reads taken from the input directly;
    [pixel_runs] and [runReference_runs] below show them to be the values of
    the computations above on every well-formed image. *)

Definition rd (k : Z) : Z := nth (Z.to_nat k) input 0.

Definition unit_of (k : Z) : F := fdiv (of_int (rd k)) (of_int 255).

Definition rgb_at (px py : Z) : F * F * F :=
  (unit_of ((px + py * width) * 4 + 0),
   unit_of ((px + py * width) * 4 + 1),
   unit_of ((px + py * width) * 4 + 2)).

Definition sample_at (x y i j : Z) : F * F * F :=
  rgb_at (Z.min (Z.max (x + i) 0) (width - 1)) (Z.min (Z.max (y + j) 0) (height - 1)).

Definition sums_at (x y : Z) : acc :=
  fold_left
    (fun a j =>
       fold_left
         (fun a i => accumulate (weight_of i j (rgb_at x y) (sample_at x y i j))
                                (sample_at x y i j) a)
         (range (-2) 3) a)
    (range (-2) 3) acc0.

Definition pixel_bytes (x y : Z) : list Z :=
  let a := sums_at x y in
  [ quantize (sr a) (coeff a);
    quantize (sg a) (coeff a);
    quantize (sb a) (coeff a);
    rd ((x + y * width) * 4 + 3) ].

Definition filtered : list Z :=
  flat_map (fun y => flat_map (fun x => pixel_bytes x y) (range 0 width))
           (range 0 height).

End RunReference.

End Filter.

(** A well-formed image: [width * height] RGBA pixels, small enough for the
    [int] index arithmetic of the program. *)
Definition image_ok (buf : list Z) (width height : Z) : Prop :=
  0 <= width /\ 0 <= height /\
  Z.of_nat (length buf) = width * height * 4 /\
  width * height * 4 <= 2147483647.

Definition bytes (buf : list Z) : Prop := Forall (fun b => 0 <= b < 256) buf.

(** A computation over [mem] that succeeds from output buffer [o] whatever
    the log, returns [a] and leaves output buffer [o']. *)
Definition Runs {A : Type} (c : M mem A) (o : list Z) (a : A) (o' : list Z) : Prop :=
  forall tr, exists tr',
    c {| outbuf := o; trace := tr |} = Some (a, {| outbuf := o'; trace := tr' |}).

(** ** The benchmark loop of [main], lines 109-122 *)

(** Binary64, the arithmetic of [double]. *)
Definition d_of_Z (z : Z) : spec_float := binary_normalize 53 1024 z 0 false.
Definition d_mul : spec_float -> spec_float -> spec_float := SFmul 53 1024.
Definition d_div : spec_float -> spec_float -> spec_float := SFdiv 53 1024.
(** The literal [1e-3]: the double nearest to 1/1000. *)
Definition d_milli : spec_float := d_div (d_of_Z 1) (d_of_Z 1000).

(** The device images [input] and [output]. *)
Inductive image : Type := Input | Output.

(** One invocation [kernel(cl::EnqueueArgs(queue, global, wgsize),
    input, output, sigmaDomain, sigmaRange)]. *)
Record kernel_call : Type := {
  k_global : Z * Z;
  k_wgsize : option (Z * Z);
  k_src : image;
  k_dst : image;
  k_sigmaDomain : spec_float;
  k_sigmaRange : spec_float
}.

(** What [main] prints. *)
Inductive line : Type :=
| Took (total per_frame : spec_float)
| Verification_failed
| Mismatch (x y c out ref : Z)
| Total_errors (n : Z)
| Verification_passed.

(** The command queue: the invocations enqueued, the latest last, and how
    many of them are known to be complete; and the text printed. *)
Record bstate : Type := {
  enqueued : list kernel_call;
  completed : nat;
  printed : list line
}.

Definition enqueue (k : kernel_call) : M bstate unit :=
  fun s => Some (tt, {| enqueued := enqueued s ++ [k];
                        completed := completed s;
                        printed := printed s |}).

(** [queue.finish()] *)
Definition finish : M bstate unit :=
  fun s => Some (tt, {| enqueued := enqueued s;
                        completed := length (enqueued s);
                        printed := printed s |}).

Definition bprint (l : line) : M bstate unit :=
  fun s => Some (tt, {| enqueued := enqueued s;
                        completed := completed s;
                        printed := printed s ++ [l] |}).

(** Lines 109-122.  [startTime] and [endTime] are the two values the timer
    returns; [iterations] is an [unsigned]. *)
Definition benchmark (call : kernel_call) (iterations startTime endTime : Z)
  : M bstate unit :=
  forM_ (range 0 iterations) (fun _ => enqueue call) ;;;
  finish ;;;
  let total := d_mul (d_of_Z ((endTime - startTime) mod 2 ^ 64)) d_milli in
  bprint (Took total (d_div total (d_of_Z iterations))).

Definition bstate0 : bstate := {| enqueued := []; completed := 0; printed := [] |}.

(** ** The verification loop of [main], lines 145-179 *)

(** The local [errors], an [unsigned], and the text printed. *)
Record vstate : Type := { errors : Z; console : list line }.

Definition vprint (l : line) : M vstate unit :=
  fun s => Some (tt, {| errors := errors s; console := console s ++ [l] |}).

Definition get_errors : M vstate Z := fun s => Some (errors s, s).

(** [errors++] *)
Definition post_increment_errors : M vstate Z :=
  fun s => Some (errors s, {| errors := (errors s + 1) mod 2 ^ 32;
                              console := console s |}).

Section Verify.

Variable result reference : list Z.
Variable w h : Z.
(** The global [tolerance], an [unsigned]. *)
Variable tolerance : Z.

(** Lines 152-168. *)
Definition check_channel (y x c : Z) : M vstate unit :=
  out <- read result ((x + y * w) * 4 + c) ;;
  ref <- read reference ((x + y * w) * 4 + c) ;;
  let diff := Z.abs (ref - out) in
  if tolerance <? diff then
    e <- get_errors ;;
    (if e =? 0 then vprint Verification_failed else ret tt) ;;;
    e <- post_increment_errors ;;
    if e <? 8 then vprint (Mismatch x y c out ref) else ret tt
  else ret tt.

(** Lines 146-179. *)
Definition verify : M vstate unit :=
  forM_ (range 0 h) (fun y =>
    forM_ (range 0 w) (fun x =>
      forM_ (range 0 3) (fun c => check_channel y x c))) ;;;
  e <- get_errors ;;
  if e =? 0 then vprint Verification_passed else vprint (Total_errors e).

(** A mismatch: a (pixel, channel) pair, channel among R, G and B, whose two
    bytes differ in absolute value by more than the tolerance. *)
Definition mismatch (y x c : Z) : bool :=
  tolerance <? Z.abs (nth (Z.to_nat ((x + y * w) * 4 + c)) reference 0
                      - nth (Z.to_nat ((x + y * w) * 4 + c)) result 0).

Definition mismatches : list (Z * Z * Z) :=
  filter (fun '(y, x, c) => mismatch y x c)
         (list_prod (list_prod (range 0 h) (range 0 w)) (range 0 3)).

End Verify.

Definition vstate0 : vstate := {| errors := 0; console := [] |}.

Definition is_mismatch_line (l : line) : bool :=
  match l with Mismatch _ _ _ _ _ => true | _ => false end.

Definition is_total_line (l : line) : bool :=
  match l with Total_errors _ => true | _ => false end.

(** ** The filter as the specification words it (section 4.1)

    The formula of the specification over the real numbers: what it gives
    when no operation rounds. *)

Section Formula.

Variable sigmaDomain sigmaRange : R.
Variable input : list Z.
Variable W H : Z.

(** A channel normalised to [0, 1]. *)
Definition normalized (k : Z) : R := (IZR (nth (Z.to_nat k) input 0%Z) / 255)%R.

(** Channel [c] of the pixel at [(px, py)]. *)
Definition channel (c px py : Z) : R := normalized ((px + py * W) * 4 + c).

(** Clamping a coordinate to [0, n-1]. *)
Definition clamp_to (n v : Z) : Z := if v <? 0 then 0 else if n - 1 <? v then n - 1 else v.

(** Channel [c] of the sample of pixel [(x, y)] at offset [(i, j)]. *)
Definition sample (c x y i j : Z) : R :=
  channel c (clamp_to W (x + i)) (clamp_to H (y + j)).

(** Euclidean distance in normalised RGB space between the sample at offset
    [(i, j)] and the centre. *)
Definition colour_distance (x y i j : Z) : R :=
  sqrt ((sample 0 x y i j - channel 0 x y) ^ 2
        + (sample 1 x y i j - channel 1 x y) ^ 2
        + (sample 2 x y i j - channel 2 x y) ^ 2)%R.

Definition domain_weight (i j : Z) : R :=
  exp (- (1 / 2) * (sqrt (IZR (i * i + j * j)) / sigmaDomain) ^ 2)%R.

Definition range_weight (x y i j : Z) : R :=
  exp (- (1 / 2) * (colour_distance x y i j / sigmaRange) ^ 2)%R.

Definition weight (x y i j : Z) : R :=
  (domain_weight i j * range_weight x y i j)%R.

(** The 25 offsets [(i, j)] with [i], [j] in [-2, 2]. *)
Definition offsets : list (Z * Z) :=
  list_prod [-2; -1; 0; 1; 2] [-2; -1; 0; 1; 2].

Definition Rsum (l : list R) : R := fold_right Rplus 0%R l.

(** The sum of weight * sample divided by the sum of the weights. *)
Definition weighted_mean (c x y : Z) : R :=
  (Rsum (map (fun '(i, j) => weight x y i j * sample c x y i j) offsets)
   / Rsum (map (fun '(i, j) => weight x y i j) offsets))%R.

(** Clamped to [0, 1], multiplied by 255, truncated. *)
Definition output_channel (c x y : Z) : Z :=
  Int_part (Rmin (Rmax (weighted_mean c x y) 0) 1 * 255)%R.

End Formula.

(** ** IEEE-754 binary32 and binary64

    The arithmetic of a machine that evaluates every [float] operation in
    binary32 and every [double] operation in binary64: each of [+], [-],
    [*], [/], [sqrt] and the conversions rounds its exact result to the
    nearest value of its format, ties to even, subnormals included.
    [pow(x, 2)] at [double] is the rounded square (the square of a promoted
    [float] is exact).  The exponential comes from the C library, which is
    not part of the program: it is the parameter of the instance. *)

Definition b32_of_Z (z : Z) : spec_float := binary_normalize 24 128 z 0 false.

Definition b32_one : spec_float := b32_of_Z 1.

(** [-0.5f] *)
Definition b32_neg_half : spec_float := S754_finite true 8388608 (-24).

(** Truncation toward zero of a finite value; C++ gives the conversion of
    any other value no meaning, and zero stands for it here. *)
Definition b32_trunc (x : spec_float) : Z :=
  match x with
  | S754_finite s m e =>
      let t := if 0 <=? e then Zpos m * 2 ^ e else Zpos m / 2 ^ (- e) in
      if s then - t else t
  | _ => 0
  end.

(** The promotion of a [float] to [double], which is exact, and the
    conversion of a [double] to [float], which rounds. *)
Definition f_to_d (x : spec_float) : spec_float :=
  match x with
  | S754_finite s m e => binary_normalize 53 1024 (cond_Zopp s (Zpos m)) e s
  | _ => x
  end.

Definition d_to_f (x : spec_float) : spec_float :=
  match x with
  | S754_finite s m e => binary_normalize 24 128 (cond_Zopp s (Zpos m)) e s
  | _ => x
  end.

Definition B32 (e : spec_float -> spec_float) : FloatArith spec_float := {|
  double := spec_float;
  of_int := b32_of_Z;
  fneg_half := b32_neg_half;
  fadd := SFadd 24 128;
  fsub := SFsub 24 128;
  fmul := SFmul 24 128;
  fdiv := SFdiv 24 128;
  fsqrt := SFsqrt 24 128;
  fexp := e;
  to_double := f_to_d;
  dpow2 := fun x => SFmul 53 1024 x x;
  dadd := SFadd 53 1024;
  dmul := SFmul 53 1024;
  dsqrt := SFsqrt 53 1024;
  to_float := d_to_f;
  fltb := SFltb;
  to_u8 := fun x => b32_trunc x mod 256
|}.

(** The defaults of the globals: [sigmaDomain = 3.f] and [sigmaRange = 0.2f],
    the binary32 value nearest to 1/5. *)
Definition sigmaDomain_default : spec_float := b32_of_Z 3.
Definition sigmaRange_default : spec_float := SFdiv 24 128 (b32_of_Z 1) (b32_of_Z 5).

(** The invocation [main] enqueues for a 1920x1080 image with the defaults. *)
Definition default_call : kernel_call :=
  {| k_global := (1920, 1080); k_wgsize := None;
     k_src := Input; k_dst := Output;
     k_sigmaDomain := sigmaDomain_default; k_sigmaRange := sigmaRange_default |}.

(** *** An accurate [expf]

    [e^x] for [x = k ln 2 + r] with [|r| <= ln 2 / 2] is [2^k e^r]; [e^r] is
    summed from its Taylor series in fixed point with 160 fractional bits,
    and the result is rounded to binary32 once.  For [x <= 0] the result is
    kept in [0, 1], where [e^x] lies. *)

(** [ln 2] in fixed point with 160 fractional bits. *)
Definition ln2_160 : Z := 1013035739299659071135698605846798551586536899366.

(** [sum + term * r / n + term * r^2 / (n (n+1)) + ...], [fuel] terms. *)
Fixpoint exp_series (fuel : nat) (n r term sum : Z) : Z :=
  match fuel with
  | O => sum
  | S fuel' =>
      let term' := Z.shiftr (term * r) 160 / n in
      exp_series fuel' (n + 1) r term' (sum + term')
  end.

(** [e^x] for finite [x = (-1)^s m 2^e] with [|x| < 256], before the clamp. *)
Definition exp_finite (s : bool) (m : positive) (e : Z) : spec_float :=
  let x := cond_Zopp s (Zpos m) * 2 ^ (e + 160) in
  let k := (2 * x + ln2_160) / (2 * ln2_160) in
  let r := x - k * ln2_160 in
  binary_normalize 24 128 (Z.max 0 (exp_series 32 1 r (2 ^ 160) (2 ^ 160))) (k - 160) false.

Definition exp32 (x : spec_float) : spec_float :=
  match x with
  | S754_nan => S754_nan
  | S754_zero _ => b32_one
  | S754_infinity false => S754_infinity false
  | S754_infinity true => S754_zero false
  | S754_finite s m e =>
      if 8 <? Zpos (digits2_pos m) + e
      then (if s then S754_zero false else S754_infinity false)
      else
        let v := exp_finite s m e in
        if s then (if SFltb b32_one v then b32_one else v) else v
  end.

(** *** Classes of binary32 values *)

(** Zero, or a finite value whose exponent is at least that of the
    subnormals, or an infinity: not a NaN. *)
Definition b32_num (x : spec_float) : Prop :=
  match x with
  | S754_nan => False
  | S754_finite _ _ e => -149 <= e
  | _ => True
  end.

(** A number with sign bit [s]. *)
Definition b32_signed (s : bool) (x : spec_float) : Prop :=
  match x with
  | S754_nan => False
  | S754_zero s' | S754_infinity s' => s' = s
  | S754_finite s' _ e => s' = s /\ -149 <= e
  end.

(** A number with the sign bit clear; a number with the sign bit set. *)
Definition b32_nonneg (x : spec_float) : Prop := b32_signed false x.
Definition b32_nonpos (x : spec_float) : Prop := b32_signed true x.

(** Strictly positive: what [0.f < x] tests. *)
Definition b32_pos (x : spec_float) : Prop :=
  match x with
  | S754_infinity false => True
  | S754_finite false _ e => -149 <= e
  | _ => False
  end.

(** Non-negative and finite. *)
Definition b32_fin_nonneg (x : spec_float) : Prop :=
  match x with
  | S754_zero false => True
  | S754_finite false _ e => -149 <= e
  | _ => False
  end.

Definition b32_fin_nonnegb (x : spec_float) : bool :=
  match x with
  | S754_zero false => true
  | S754_finite false _ e => -149 <=? e
  | _ => false
  end.

(** What the C standard (Annex F) and monotonicity give of [exp] on the
    arguments the filter passes: [exp(+-0) = 1], [exp(NaN)] is a NaN, and at
    an argument that is not positive the value is finite and not negative. *)
Definition exp_contract (e : spec_float -> spec_float) : Prop :=
  (forall s, e (S754_zero s) = b32_one) /\
  e S754_nan = S754_nan /\
  (forall x, b32_nonpos x -> b32_fin_nonneg (e x)).

(** The uniform image of [n] pixels [(g, g, g, a)]. *)
Definition uniform (n : nat) (g a : Z) : list Z :=
  concat (repeat [g; g; g; a] n).

(** *** The verification loop as a function on its state

    What one iteration of the innermost loop does to [errors] and to the
    text printed, with the reads taken from the two buffers directly. *)

Definition mismatch_line (result reference : list Z) (w : Z) (t : Z * Z * Z) : line :=
  let '(y, x, c) := t in
  Mismatch x y c (nth (Z.to_nat ((x + y * w) * 4 + c)) result 0)
           (nth (Z.to_nat ((x + y * w) * 4 + c)) reference 0).

Definition vstep (result reference : list Z) (w tolerance : Z)
           (s : vstate) (t : Z * Z * Z) : vstate :=
  let '(y, x, c) := t in
  if mismatch result reference w tolerance y x c then
    {| errors := (errors s + 1) mod 2 ^ 32;
       console := console s
                  ++ (if errors s =? 0 then [Verification_failed] else [])
                  ++ (if errors s <? 8 then [mismatch_line result reference w t] else []) |}
  else s.

(** *** The filter on a flat image, in binary32 with the default sigmas

    When every sample equals the centre, the range weight is [exp(-0) = 1]
    and the weight of offset [(i, j)] does not depend on the colour. *)

(** The offsets [(i, j)] in the order of the two inner loops. *)
Definition loop_offsets : list (Z * Z) :=
  flat_map (fun j => map (fun i => (i, j)) [-2; -1; 0; 1; 2]) [-2; -1; 0; 1; 2].

Definition b32_zero : spec_float := S754_zero false.

Definition flat_weights : list spec_float :=
  map (fun '(i, j) =>
         weight_of (FA := B32 exp32) sigmaDomain_default sigmaRange_default i j
                   (b32_zero, b32_zero, b32_zero) (b32_zero, b32_zero, b32_zero))
      loop_offsets.

(** The byte written for a channel that holds [g] everywhere, given the
    weights [ws] and their sum [c]. *)
Definition flat_byte_with (ws : list spec_float) (c : spec_float) (g : Z) : Z :=
  let u := SFdiv 24 128 (b32_of_Z g) (b32_of_Z 255) in
  quantize (FA := B32 exp32)
           (fold_left (fun s w => SFadd 24 128 s (SFmul 24 128 w u)) ws (b32_of_Z 0)) c.

Definition flat_byte (g : Z) : Z :=
  flat_byte_with flat_weights (fold_left (SFadd 24 128) flat_weights (b32_of_Z 0)) g.

(** The (row, column, channel) triples in the order the loops visit them. *)
Definition visited (w h : Z) : list (Z * Z * Z) :=
  list_prod (list_prod (range 0 h) (range 0 w)) (range 0 3).

(** *** Signs and magnitudes, in either format *)

(** A number (not a NaN) whose sign bit is [s]. *)
Definition sign_is (s : bool) (x : spec_float) : Prop :=
  match x with
  | S754_nan => False
  | S754_zero s' | S754_infinity s' | S754_finite s' _ _ => s' = s
  end.

(** Zero, or a finite value below [2^K] in absolute value. *)
Definition fin_below (K : Z) (x : spec_float) : Prop :=
  match x with
  | S754_zero _ => True
  | S754_finite _ m e => Zpos m < 2 ^ (K - e)
  | _ => False
  end.

Definition fin_belowb (K : Z) (x : spec_float) : bool :=
  match x with
  | S754_zero _ => true
  | S754_finite _ m e => Zpos (digits2_pos m) + e <=? K
  | _ => false
  end.

(** A channel of a pixel: finite, not negative and not above 1. *)
Definition unit_ok (u : spec_float) : Prop := b32_fin_nonneg u /\ fin_below 1 u.

(** The three channels of a pixel. *)
Definition rgb_ok (c : spec_float * spec_float * spec_float) : Prop :=
  let '(r, g, b) := c in unit_ok r /\ unit_ok g /\ unit_ok b.

(** ** The reads of [runReference]

    The addresses of the input buffer that a log says were read, the
    earliest first. *)
Definition reads (tr : list access) : list Z :=
  rev (flat_map (fun a => match a with Rd k => [k] | Wr _ _ => [] end) tr).

(** A computation over [mem] that succeeds from output buffer [o] whatever
    the log, returns [a], leaves output buffer [o'], and reads the input at
    the addresses [ks], in this order, and nowhere else. *)
Definition Reads {A : Type} (c : M mem A) (o : list Z) (a : A) (o' : list Z)
           (ks : list Z) : Prop :=
  forall tr, exists tr',
    c {| outbuf := o; trace := tr |} = Some (a, {| outbuf := o'; trace := tr' |}) /\
    reads tr' = reads tr ++ ks.

(** The addresses of the R, G and B bytes of the pixel at [(px, py)]. *)
Definition rgb_addresses (W px py : Z) : list Z :=
  [(px + py * W) * 4 + 0; (px + py * W) * 4 + 1; (px + py * W) * 4 + 2].

(** What edge-replicate clamping has the 25 samples of pixel [(x, y)] read:
    for each offset [(i, j)], rows first, the pixel at the coordinates
    [(x + i, y + j)] clamped to the image. *)
Definition sample_addresses (W H x y : Z) : list Z :=
  flat_map (fun '(i, j) => rgb_addresses W (clamp_to W (x + i)) (clamp_to H (y + j)))
           loop_offsets.

(** The reads for one output pixel: its centre, its samples, its alpha. *)
Definition pixel_addresses (W H x y : Z) : list Z :=
  rgb_addresses W x y ++ sample_addresses W H x y ++ [(x + y * W) * 4 + 3].

Definition image_addresses (W H : Z) : list Z :=
  flat_map (fun y => flat_map (fun x => pixel_addresses W H x y) (range 0 W)) (range 0 H).

(** ** The formula of section 4.1 in the arithmetic of the program

    The formula as the specification words it, each operation being the one
    the program applies: the quotient by a sigma is the product with the
    reciprocal [1.f/sigma], the colour distance and its product with the
    reciprocal are evaluated in [double], and the sums start from [0.f] and
    take the 25 offsets in the order of the loops. *)

Section FormulaInFloat.

Context {F : Type} {FA : FloatArith F}.
Variable sigmaDomain sigmaRange : F.
Variable input : list Z.
Variable W H : Z.

(** Channel [c] of the pixel at [(px, py)], normalised to [0, 1]. *)
Definition fl_channel (c px py : Z) : F :=
  fdiv (of_int (nth (Z.to_nat ((px + py * W) * 4 + c)) input 0)) (of_int 255).

(** Channel [c] of the sample of pixel [(x, y)] at offset [(i, j)]. *)
Definition fl_sample (c x y i j : Z) : F :=
  fl_channel c (clamp_to W (x + i)) (clamp_to H (y + j)).

(** [exp(-0.5 * norm^2)] *)
Definition fl_gauss (norm : F) : F := fexp (fmul fneg_half (fmul norm norm)).

Definition fl_domain_weight (i j : Z) : F :=
  fl_gauss (fmul (fsqrt (fadd (of_int (i * i)) (of_int (j * j))))
                 (fdiv (of_int 1) sigmaDomain)).

(** Euclidean distance in normalised RGB space between the sample at offset
    [(i, j)] and the centre. *)
Definition fl_colour_distance (x y i j : Z) : double :=
  dsqrt (dadd (dadd (dpow2 (to_double (fsub (fl_sample 0 x y i j) (fl_channel 0 x y))))
                    (dpow2 (to_double (fsub (fl_sample 1 x y i j) (fl_channel 1 x y)))))
              (dpow2 (to_double (fsub (fl_sample 2 x y i j) (fl_channel 2 x y))))).

Definition fl_range_weight (x y i j : Z) : F :=
  fl_gauss (to_float (dmul (fl_colour_distance x y i j)
                           (to_double (fdiv (of_int 1) sigmaRange)))).

Definition fl_weight (x y i j : Z) : F :=
  fmul (fl_domain_weight i j) (fl_range_weight x y i j).

(** A sum that starts from [0.f] and adds the terms from left to right. *)
Definition fl_sum (l : list F) : F := fold_left fadd l (of_int 0).

(** The sum of weight * sample divided by the sum of the weights. *)
Definition fl_weighted_mean (c x y : Z) : F :=
  fdiv (fl_sum (map (fun '(i, j) => fmul (fl_weight x y i j) (fl_sample c x y i j))
                    loop_offsets))
       (fl_sum (map (fun '(i, j) => fl_weight x y i j) loop_offsets)).

(** Clamped to [0, 1], multiplied by 255, converted to a byte. *)
Definition fl_output_channel (c x y : Z) : Z :=
  to_u8 (fmul (fmin (fmax (fl_weighted_mean c x y) (of_int 0)) (of_int 1)) (of_int 255)).

End FormulaInFloat.

(** The 3x3 image whose bytes are 0, 1, ..., 35: at each address the byte
    is the address. *)
Definition ramp : list Z := range 0 36.


(** ** The command line: [parseFloat] and [parseArguments], lines 203-317 *)

Local Open Scope string_scope.

(** The globals of lines 26-32 that the options set, and [tolerance], which
    no option sets.  [deviceIndex], [iterations] and [tolerance] are
    [unsigned]; [wgsize] is [None] while it is [cl::NullRange]. *)
Record globals : Type := {
  deviceIndex : Z;
  iterations : Z;
  tolerance : Z;
  sigmaDomain : spec_float;
  sigmaRange : spec_float;
  wgsize : option (Z * Z);
  inputFile : String.string
}.

(** The initial values, lines 26-32. *)
Definition globals0 : globals :=
  {| deviceIndex := 0; iterations := 32; tolerance := 1;
     sigmaDomain := sigmaDomain_default; sigmaRange := sigmaRange_default;
     wgsize := None; inputFile := "1080p.bmp" |}.

Definition set_deviceIndex (v : Z) (g : globals) : globals :=
  {| deviceIndex := v; iterations := iterations g; tolerance := tolerance g;
     sigmaDomain := sigmaDomain g; sigmaRange := sigmaRange g;
     wgsize := wgsize g; inputFile := inputFile g |}.

Definition set_iterations (v : Z) (g : globals) : globals :=
  {| deviceIndex := deviceIndex g; iterations := v; tolerance := tolerance g;
     sigmaDomain := sigmaDomain g; sigmaRange := sigmaRange g;
     wgsize := wgsize g; inputFile := inputFile g |}.

Definition set_sigmaDomain (v : spec_float) (g : globals) : globals :=
  {| deviceIndex := deviceIndex g; iterations := iterations g; tolerance := tolerance g;
     sigmaDomain := v; sigmaRange := sigmaRange g;
     wgsize := wgsize g; inputFile := inputFile g |}.

Definition set_sigmaRange (v : spec_float) (g : globals) : globals :=
  {| deviceIndex := deviceIndex g; iterations := iterations g; tolerance := tolerance g;
     sigmaDomain := sigmaDomain g; sigmaRange := v;
     wgsize := wgsize g; inputFile := inputFile g |}.

Definition set_wgsize (v : option (Z * Z)) (g : globals) : globals :=
  {| deviceIndex := deviceIndex g; iterations := iterations g; tolerance := tolerance g;
     sigmaDomain := sigmaDomain g; sigmaRange := sigmaRange g;
     wgsize := v; inputFile := inputFile g |}.

Definition set_inputFile (v : String.string) (g : globals) : globals :=
  {| deviceIndex := deviceIndex g; iterations := iterations g; tolerance := tolerance g;
     sigmaDomain := sigmaDomain g; sigmaRange := sigmaRange g;
     wgsize := wgsize g; inputFile := v |}.

(** What is inserted into [std::cout]: a C string, an [unsigned], and
    [std::endl]. *)
Inductive item : Type :=
| Text (s : String.string)
| Num (n : Z)
| Endl.

(** The globals and the text written so far. *)
Record pstate : Type := { vars : globals; cout : list item }.

Definition say (l : list item) (s : pstate) : pstate :=
  {| vars := vars s; cout := cout s ++ l |}.

Definition assign (f : globals -> globals) (s : pstate) : pstate :=
  {| vars := f (vars s); cout := cout s |}.

(** How a function ends: it returns, or the process ends with a status
    ([exit(status)], or [return status] from [main]). *)
Inductive flow (A : Type) : Type :=
| Returns (a : A)
| Exits (status : Z).

Arguments Returns {A} a.
Arguments Exits {A} status.

(** [str + n] *)
Fixpoint advance (n : nat) (str : String.string) : String.string :=
  match n, str with
  | S n', String.String _ str' => advance n' str'
  | _, _ => str
  end.

(** The lines of the usage message, lines 296-307. *)
Definition usage : list item :=
  [ Endl;
    Text "Usage: ./bilateral [OPTIONS]"; Endl; Endl;
    Text "Options:"; Endl;
    Text "  -h  --help               Print the message"; Endl;
    Text "      --list               List available devices"; Endl;
    Text "      --device     INDEX   Select device at INDEX"; Endl;
    Text "      --image      FILE    Use FILE as input (must be 32-bit RGBA)"; Endl;
    Text "  -i  --iterations ITRS    Number of benchmark iterations"; Endl;
    Text "      --sd         D       Set sigma domain"; Endl;
    Text "      --sr         R       Set sigma range"; Endl;
    Text "      --wgsize     W H     Work-group width and height"; Endl;
    Endl ].

Section CommandLine.

(** [strtod] of the C library: the [double] it returns and the offset at
    which it leaves [next], a position inside the string or at its end. *)
Variable strtod : String.string -> spec_float * nat.

(** [parseUInt] of util.hpp: [Some v] when the call returns non-zero and has
    stored [v], [None] when it returns zero (every caller then leaves the
    program at once, so what was stored is never read). *)
Variable parseUInt : String.string -> option Z.

(** The devices [getDeviceList] finds, each one by its [CL_DEVICE_NAME]. *)
Variable devices : list String.string.

(** Lines 203-208: what the call returns, and what it stores in [*output],
    the [double] converted by [(cl_float)]. *)
Definition parseFloat (str : String.string) : Z * spec_float :=
  let '(v, n) := strtod str in
  let next := advance n str in
  (if (String.length next =? 0)%nat then 1 else 0, d_to_f v).

(** Lines 216-235, the text of [--list]. *)
Definition device_list : list item :=
  if (length devices =? 0)%nat then [Text "No devices found."; Endl]
  else [Endl; Text "Devices:"; Endl]
       ++ flat_map (fun i => [Num i; Text ": ";
                              Text (nth (Z.to_nat i) devices String.EmptyString); Endl])
                   (range 0 (Z.of_nat (length devices)))
       ++ [Endl].

(** A message, [std::endl] and [exit(1)]. *)
Definition invalid (msg : String.string) (s : pstate) : flow unit * pstate :=
  (Exits 1, say [Text msg; Endl] s).

(** The loop of lines 212-316 from [argv[i]] on: [args] is [argv[i]],
    [argv[i+1]], ..., [argv[argc-1]].  [++i >= argc] holds when no argument
    follows, and otherwise [argv[i]] is, after the increment, the next
    one. *)
Fixpoint parse_loop (args : list String.string) (s : pstate) : flow unit * pstate :=
  match args with
  | [] => (Returns tt, s)
  | a :: rest =>
    if String.eqb a "--list" then (Exits 0, say device_list s)
    else if String.eqb a "--device" then
      match rest with
      | [] => invalid "Invalid device index" s
      | v :: rest' =>
        match parseUInt v with
        | None => invalid "Invalid device index" s
        | Some n => parse_loop rest' (assign (set_deviceIndex n) s)
        end
      end
    else if String.eqb a "--image" then
      match rest with
      | [] => invalid "Missing argument to --image" s
      | v :: rest' => parse_loop rest' (assign (set_inputFile v) s)
      end
    else if String.eqb a "--iterations" || String.eqb a "-i" then
      match rest with
      | [] => invalid "Invalid number of iterations" s
      | v :: rest' =>
        match parseUInt v with
        | None => invalid "Invalid number of iterations" s
        | Some n => parse_loop rest' (assign (set_iterations n) s)
        end
      end
    else if String.eqb a "--sd" then
      match rest with
      | [] => invalid "Invalid sigma domain" s
      | v :: rest' =>
        let '(ok, x) := parseFloat v in
        if ok =? 0 then invalid "Invalid sigma domain" (assign (set_sigmaDomain x) s)
        else parse_loop rest' (assign (set_sigmaDomain x) s)
      end
    else if String.eqb a "--sr" then
      match rest with
      | [] => invalid "Invalid sigma range" s
      | v :: rest' =>
        let '(ok, x) := parseFloat v in
        if ok =? 0 then invalid "Invalid sigma range" (assign (set_sigmaRange x) s)
        else parse_loop rest' (assign (set_sigmaRange x) s)
      end
    else if String.eqb a "--wgsize" then
      match rest with
      | [] => invalid "Invalid work-group width" s
      | v :: rest' =>
        match parseUInt v with
        | None => invalid "Invalid work-group width" s
        | Some width =>
          match rest' with
          | [] => invalid "Invalid work-group height" s
          | v' :: rest'' =>
            match parseUInt v' with
            | None => invalid "Invalid work-group height" s
            | Some height => parse_loop rest'' (assign (set_wgsize (Some (width, height))) s)
            end
          end
        end
      end
    else if String.eqb a "--help" || String.eqb a "-h" then (Exits 0, say usage s)
    else (Exits 1, say [Text "Unrecognized argument '"; Text a; Text "' (try '--help')"; Endl] s)
  end.

(** [parseArguments(argc, argv)]: the loop starts at [argv[1]]. *)
Definition parseArguments (argv : list String.string) (s : pstate) : flow unit * pstate :=
  parse_loop (tl argv) s.

(** Lines 38-55 of [main]: the arguments, the device list, the check of the
    device index and the choice of the device.  [devices[deviceIndex]]
    outside the vector has no defined behaviour. *)
Definition select_device (argv : list String.string) (s : pstate)
  : option (flow String.string * pstate) :=
  match parseArguments argv s with
  | (Exits status, s') => Some (Exits status, s')
  | (Returns _, s') =>
    if Z.of_nat (length devices) <=? deviceIndex (vars s') then
      Some (Exits 1, say [Text "Invalid device index (try '--list')"; Endl] s')
    else
      match index devices (deviceIndex (vars s')) with
      | None => None
      | Some name =>
        Some (Returns name,
              say [Endl; Text "Using OpenCL device: "; Text name; Endl; Endl] s')
      end
  end.

End CommandLine.

(** A [strtoul] in base 10 for a string of digits alone, stored in an
    [unsigned]; and a [strtod] that reads a leading run of digits. *)
Definition digit_of (c : Ascii.ascii) : option Z :=
  let n := Z.of_N (Ascii.N_of_ascii c) in
  if (48 <=? n) && (n <=? 57) then Some (n - 48) else None.

Fixpoint digits_from (acc : Z) (n : nat) (str : String.string) : Z * nat :=
  match str with
  | String.String c str' =>
    match digit_of c with
    | Some d => digits_from (10 * acc + d) (S n) str'
    | None => (acc, n)
    end
  | String.EmptyString => (acc, n)
  end.

Definition decimal_uint (str : String.string) : option Z :=
  let '(v, n) := digits_from 0 0 str in
  if (0 <? n)%nat && (n =? String.length str)%nat then Some (v mod 2 ^ 32) else None.

Definition decimal_double (str : String.string) : spec_float * nat :=
  let '(v, n) := digits_from 0 0 str in (d_of_Z v, n).

(** The state in which [main] calls [parseArguments]. *)
Definition pstate0 : pstate := {| vars := globals0; cout := [] |}.

(** ** Lines 139 and 145-179 of [main]: the reference and the check

    [runReference] fills the buffer [reference], allocated with
    [new uint8_t[w*h*4]] and holding [ref0] before, from the pixels of the
    image and the globals [sigmaDomain] and [sigmaRange]; the verification
    loop then compares the device's [result] against it with the global
    [tolerance].  The value is the text the loop prints. *)
Definition reference_check (e : spec_float -> spec_float) (g : globals)
           (pixels result ref0 : list Z) (w h : Z) : option (list line) :=
  match runReference (FA := B32 e) (sigmaDomain g) (sigmaRange g) pixels w h
                     {| outbuf := ref0; trace := [] |} with
  | Some (_, m) =>
    match verify result (outbuf m) w h (tolerance g) vstate0 with
    | Some (_, st) => Some (console st)
    | None => None
    end
  | None => None
  end.

(** * Properties *)

(** ** Lists, ranges and splices *)

Lemma range_nil (lo hi : Z) : hi <= lo -> range lo hi = [].
Proof.
  intros Hle. unfold range.
  replace (Z.to_nat (hi - lo)) with 0%nat by lia. reflexivity.
Qed.

Lemma range_length (lo hi : Z) : length (range lo hi) = Z.to_nat (hi - lo).
Proof. unfold range. now rewrite length_map, length_seq. Qed.

Lemma range_nth_error (lo hi : Z) (k : nat) (a : Z) :
  nth_error (range lo hi) k = Some a ->
  a = lo + Z.of_nat k /\ (k < Z.to_nat (hi - lo))%nat.
Proof.
  unfold range. intros Hk.
  assert (Hlt : (k < Z.to_nat (hi - lo))%nat).
  { assert (Hs : nth_error (map (fun n => lo + Z.of_nat n) (seq 0 (Z.to_nat (hi - lo)))) k
                 <> None) by congruence.
    apply nth_error_Some in Hs.
    now rewrite length_map, length_seq in Hs. }
  split; [| exact Hlt].
  rewrite nth_error_map, nth_error_seq in Hk.
  destruct (Nat.ltb_spec k (Z.to_nat (hi - lo))) as [_ | Hge]; [| lia].
  simpl in Hk. now inversion Hk.
Qed.

Lemma in_range (lo hi a : Z) : In a (range lo hi) <-> lo <= a < hi.
Proof.
  unfold range. rewrite in_map_iff. split.
  - intros [n [<- Hn]]. apply in_seq in Hn. lia.
  - intros Ha. exists (Z.to_nat (a - lo)). split; [lia |].
    apply in_seq. lia.
Qed.

Lemma range_cons (lo hi : Z) : lo < hi -> range lo hi = lo :: range (lo + 1) hi.
Proof.
  intros Hlt. unfold range.
  replace (Z.to_nat (hi - lo)) with (S (Z.to_nat (hi - (lo + 1)))) by lia.
  simpl. f_equal; [lia |].
  rewrite <- seq_shift, map_map. apply map_ext. intros n. lia.
Qed.

Lemma range_NoDup (lo hi : Z) : NoDup (range lo hi).
Proof.
  unfold range. apply Injective_map_NoDup; [| apply seq_NoDup].
  intros a b Hab. lia.
Qed.

Lemma splice_length (l : list Z) (n : nat) (vs : list Z) :
  (n + length vs <= length l)%nat -> length (splice l n vs) = length l.
Proof.
  intros Hle. unfold splice.
  rewrite !length_app, length_firstn, length_skipn. lia.
Qed.

Lemma splice_app (l : list Z) (n : nat) (vs ws : list Z) :
  (n + length vs <= length l)%nat ->
  splice (splice l n vs) (n + length vs) ws = splice l n (vs ++ ws).
Proof.
  intros Hle. unfold splice.
  assert (Hn : length (firstn n l) = n) by (rewrite length_firstn; lia).
  rewrite (app_assoc (firstn n l) vs).
  assert (Hpre : length (firstn n l ++ vs) = (n + length vs)%nat)
    by (rewrite length_app; lia).
  rewrite firstn_app, Hpre, Nat.sub_diag, firstn_O, app_nil_r.
  rewrite firstn_all2 by lia.
  rewrite skipn_app, Hpre.
  rewrite (skipn_all2 (firstn n l ++ vs)) by lia. simpl.
  replace (n + length vs + length ws - (n + length vs))%nat with (length ws) by lia.
  rewrite skipn_skipn, length_app, <- !app_assoc.
  replace (length ws + (n + length vs))%nat with (n + (length vs + length ws))%nat by lia.
  reflexivity.
Qed.

Lemma splice_nil (l : list Z) (n : nat) : splice l n [] = l.
Proof. unfold splice. simpl. rewrite Nat.add_0_r. apply firstn_skipn. Qed.

Lemma splice_all (l vs : list Z) : length vs = length l -> splice l 0 vs = vs.
Proof.
  intros Hlen. unfold splice. simpl.
  rewrite skipn_all2 by lia. apply app_nil_r.
Qed.

Lemma splice_nth_inside (l : list Z) (n : nat) (vs : list Z) (k : nat) (d : Z) :
  (n <= length l)%nat -> (k < length vs)%nat ->
  nth (n + k) (splice l n vs) d = nth k vs d.
Proof.
  intros Hn Hk. unfold splice.
  assert (Hf : length (firstn n l) = n) by (rewrite length_firstn; lia).
  rewrite app_nth2 by lia. rewrite Hf.
  replace (n + k - n)%nat with k by lia.
  now rewrite app_nth1.
Qed.


(** ** Running computations over the host memory *)

Lemma Runs_ret {A : Type} (a : A) (o : list Z) : Runs (ret a) o a o.
Proof. intros tr. exists tr. reflexivity. Qed.

Lemma Runs_bind {A B : Type} (c : M mem A) (k : A -> M mem B)
      (o o1 o2 : list Z) (a : A) (b : B) :
  Runs c o a o1 -> Runs (k a) o1 b o2 -> Runs (bind c k) o b o2.
Proof.
  intros Hc Hk tr. destruct (Hc tr) as [tr1 E1]. destruct (Hk tr1) as [tr2 E2].
  exists tr2. unfold bind. now rewrite E1.
Qed.

Lemma index_nth (buf : list Z) (k : Z) :
  0 <= k < Z.of_nat (length buf) -> index buf k = Some (nth (Z.to_nat k) buf 0).
Proof.
  intros Hk. unfold index.
  destruct (Z.ltb_spec k 0) as [Hneg | _]; [lia |].
  apply nth_error_nth'. lia.
Qed.

Lemma Runs_load (buf : list Z) (k : Z) (o : list Z) :
  0 <= k < Z.of_nat (length buf) -> Runs (load buf k) o (nth (Z.to_nat k) buf 0) o.
Proof.
  intros Hk tr. unfold load. rewrite index_nth by exact Hk.
  eexists. reflexivity.
Qed.

Lemma Runs_store (k v : Z) (o : list Z) :
  0 <= k < Z.of_nat (length o) ->
  Runs (store k v) o tt (splice o (Z.to_nat k) [v]).
Proof.
  intros Hk tr. unfold store. simpl.
  destruct (Z.leb_spec 0 k) as [_ | Hneg]; [| lia].
  destruct (Z.ltb_spec k (Z.of_nat (length o))) as [_ | Hge]; [| lia].
  eexists. reflexivity.
Qed.

(** A loop whose body leaves the output buffer alone. *)
Lemma Runs_foldM_pure {A L : Type} (body : A -> L -> M mem L) (f : L -> A -> L)
      (l : list A) (o : list Z) :
  (forall a v, In a l -> Runs (body a v) o (f v a) o) ->
  forall v, Runs (foldM body l v) o (fold_left f l v) o.
Proof.
  induction l as [| a l IH]; intros Hbody v; simpl.
  - apply Runs_ret.
  - eapply Runs_bind.
    + apply Hbody. now left.
    + apply IH. intros a' v' Hin. apply Hbody. now right.
Qed.

Lemma flat_map_length_const {A : Type} (cell : A -> list Z) (sz : nat) (xs : list A) :
  (forall a, length (cell a) = sz) ->
  length (flat_map cell xs) = (length xs * sz)%nat.
Proof.
  intros Hsz. induction xs as [| a xs IH]; simpl; [reflexivity |].
  rewrite length_app, Hsz, IH. lia.
Qed.

(** A loop whose [k]-th iteration overwrites the [k]-th block of [sz] bytes
    after position [base]. *)
Lemma Runs_forM_splice {A : Type} (body : A -> M mem unit) (cell : A -> list Z)
      (sz L : nat) :
  (forall a, length (cell a) = sz) ->
  forall (xs : list A) (base : nat) (o : list Z),
    length o = L -> (base + length xs * sz <= L)%nat ->
    (forall k a o', nth_error xs k = Some a -> length o' = L ->
                    Runs (body a) o' tt (splice o' (base + k * sz) (cell a))) ->
    Runs (forM_ xs body) o tt (splice o base (flat_map cell xs)).
Proof.
  intros Hsz. induction xs as [| a xs IH]; intros base o Ho Hfit Hbody.
  - simpl. rewrite splice_nil. apply Runs_ret.
  - simpl in Hfit. unfold forM_. simpl.
    eapply Runs_bind.
    + specialize (Hbody 0%nat a o eq_refl Ho). simpl in Hbody.
      rewrite Nat.add_0_r in Hbody. exact Hbody.
    + rewrite <- splice_app by (rewrite Hsz; lia).
      rewrite Hsz. apply IH.
      * rewrite splice_length by (rewrite Hsz; lia). exact Ho.
      * lia.
      * intros k a' o' Hk Ho'.
        replace (base + sz + k * sz)%nat with (base + S k * sz)%nat by lia.
        apply Hbody; assumption.
Qed.

Lemma splice4 (o : list Z) (n : nat) (a b c d : Z) :
  (n + 4 <= length o)%nat ->
  splice (splice (splice (splice o n [a]) (n + Z.to_nat 1) [b]) (n + Z.to_nat 2) [c])
         (n + Z.to_nat 3) [d]
  = splice o n [a; b; c; d].
Proof.
  intros Hle.
  change (n + Z.to_nat 1)%nat with (n + length [a])%nat.
  rewrite splice_app by (simpl; lia).
  change (n + Z.to_nat 2)%nat with (n + length ([a] ++ [b]))%nat.
  rewrite splice_app by (simpl; lia).
  change (n + Z.to_nat 3)%nat with (n + length (([a] ++ [b]) ++ [c]))%nat.
  rewrite splice_app by (simpl; lia).
  reflexivity.
Qed.

(** ** [runReference] on a well-formed image *)

Section ReferenceRuns.

Context {F : Type} {FA : FloatArith F}.
Variable sigmaDomain sigmaRange : F.
Variable input : list Z.
Variable width height : Z.
Hypothesis Hok : image_ok input width height.

Lemma pixel_index_bounds (px py c : Z) :
  0 <= px < width -> 0 <= py < height -> 0 <= c < 4 ->
  0 <= (px + py * width) * 4 + c < Z.of_nat (length input).
Proof.
  destruct Hok as (HW & HH & Hlen & _). intros Hx Hy Hc.
  rewrite Hlen. nia.
Qed.

Lemma Runs_load_unit (k : Z) (o : list Z) :
  0 <= k < Z.of_nat (length input) ->
  Runs (load_unit input k) o (unit_of input k) o.
Proof.
  intros Hk. unfold load_unit. eapply Runs_bind.
  - apply Runs_load, Hk.
  - apply Runs_ret.
Qed.

Lemma Runs_load_rgb (px py : Z) (o : list Z) :
  0 <= px < width -> 0 <= py < height ->
  Runs (load_rgb input width px py) o (rgb_at input width px py) o.
Proof.
  intros Hx Hy. unfold load_rgb, rgb_at.
  eapply Runs_bind; [apply Runs_load_unit, pixel_index_bounds; lia |].
  eapply Runs_bind; [apply Runs_load_unit, pixel_index_bounds; lia |].
  eapply Runs_bind; [apply Runs_load_unit, pixel_index_bounds; lia |].
  apply Runs_ret.
Qed.

Lemma Runs_load_sample (x y i j : Z) (o : list Z) :
  0 < width -> 0 < height ->
  Runs (load_sample input width height x y i j) o
       (sample_at input width height x y i j) o.
Proof.
  intros HW HH. unfold load_sample, sample_at.
  apply Runs_load_rgb; lia.
Qed.

Lemma Runs_pixel_sums (x y : Z) (o : list Z) :
  0 <= x < width -> 0 <= y < height ->
  Runs (pixel_sums sigmaDomain sigmaRange input width height x y) o
       (sums_at sigmaDomain sigmaRange input width height x y) o.
Proof.
  intros Hx Hy. unfold pixel_sums, sums_at.
  eapply Runs_bind; [apply Runs_load_rgb; assumption |].
  apply Runs_foldM_pure. intros j a _.
  apply Runs_foldM_pure. intros i a' _.
  unfold sample_step. eapply Runs_bind.
  - apply Runs_load_sample; lia.
  - apply Runs_ret.
Qed.

Lemma pixel_bytes_length (x y : Z) :
  length (pixel_bytes sigmaDomain sigmaRange input width height x y) = 4%nat.
Proof. reflexivity. Qed.

Lemma Runs_pixel (x y : Z) (o : list Z) :
  0 <= x < width -> 0 <= y < height ->
  length o = Z.to_nat (width * height * 4) ->
  Runs (pixel sigmaDomain sigmaRange input width height x y) o tt
       (splice o (Z.to_nat ((x + y * width) * 4))
               (pixel_bytes sigmaDomain sigmaRange input width height x y)).
Proof.
  intros Hx Hy Ho. unfold pixel, pixel_bytes.
  set (a := sums_at sigmaDomain sigmaRange input width height x y).
  set (p := (x + y * width) * 4).
  assert (Hp : 0 <= p /\ p + 3 < Z.of_nat (length o)).
  { pose proof (pixel_index_bounds x y 3 Hx Hy ltac:(lia)) as Hb.
    destruct Hok as (_ & _ & Hlen & _). subst p. lia. }
  assert (Hn : forall c, 0 <= c -> Z.to_nat (p + c) = (Z.to_nat p + Z.to_nat c)%nat)
    by (intros; lia).
  set (o1 := splice o (Z.to_nat (p + 0)) [quantize (sr a) (coeff a)]).
  set (o2 := splice o1 (Z.to_nat (p + 1)) [quantize (sg a) (coeff a)]).
  set (o3 := splice o2 (Z.to_nat (p + 2)) [quantize (sb a) (coeff a)]).
  assert (L1 : length o1 = length o) by (apply splice_length; simpl; lia).
  assert (L2 : length o2 = length o)
    by (unfold o2; rewrite splice_length; simpl; lia).
  assert (L3 : length o3 = length o)
    by (unfold o3; rewrite splice_length; simpl; lia).
  eapply Runs_bind; [apply Runs_pixel_sums; assumption |]. fold a.
  eapply Runs_bind; [apply Runs_store; lia |]. fold o1.
  eapply Runs_bind; [apply Runs_store; lia |]. fold o2.
  eapply Runs_bind; [apply Runs_store; lia |]. fold o3.
  eapply Runs_bind; [apply Runs_load, pixel_index_bounds; lia |].
  replace (splice o (Z.to_nat p) [quantize (sr a) (coeff a); quantize (sg a) (coeff a);
                                   quantize (sb a) (coeff a); rd input (p + 3)])
    with (splice o3 (Z.to_nat (p + 3)) [rd input (p + 3)]).
  { apply Runs_store. lia. }
  unfold o3, o2, o1.
  rewrite !Hn by lia. rewrite Nat.add_0_r.
  apply splice4. lia.
Qed.

Lemma filtered_length :
  length (filtered sigmaDomain sigmaRange input width height)
  = Z.to_nat (width * height * 4).
Proof.
  destruct Hok as (HW & HH & _). unfold filtered.
  rewrite (flat_map_length_const _ (Z.to_nat width * 4)).
  - rewrite range_length. nia.
  - intros y. rewrite (flat_map_length_const _ 4%nat).
    + now rewrite range_length, Z.sub_0_r.
    + intros x. apply pixel_bytes_length.
Qed.

(** On a well-formed image [runReference] succeeds, and the output buffer
    it leaves is [filtered], whatever the buffer held before. *)
Lemma runReference_runs (o : list Z) :
  length o = Z.to_nat (width * height * 4) ->
  Runs (runReference sigmaDomain sigmaRange input width height) o tt
       (filtered sigmaDomain sigmaRange input width height).
Proof.
  intros Ho. pose proof Hok as (HW & HH & Hlen & _).
  rewrite <- (splice_all o (filtered sigmaDomain sigmaRange input width height))
    by (rewrite filtered_length; now rewrite Ho).
  unfold runReference, filtered.
  apply (Runs_forM_splice _ _ (Z.to_nat width * 4) (length o)).
  - intros y. rewrite (flat_map_length_const _ 4%nat).
    + now rewrite range_length, Z.sub_0_r.
    + intros x. apply pixel_bytes_length.
  - reflexivity.
  - rewrite range_length, Ho. nia.
  - intros k y o' Hk Ho'. apply range_nth_error in Hk. destruct Hk as [-> Hk].
    apply (Runs_forM_splice _ _ 4%nat (length o)).
    + intros x. apply pixel_bytes_length.
    + exact Ho'.
    + rewrite range_length, Ho. nia.
    + intros i x o'' Hi Ho''. apply range_nth_error in Hi. destruct Hi as [-> Hi].
      replace (0 + k * (Z.to_nat width * 4) + i * 4)%nat
        with (Z.to_nat ((0 + Z.of_nat i + (0 + Z.of_nat k) * width) * 4)) by nia.
      apply Runs_pixel; lia.
Qed.

(** Byte [c] of pixel [(x, y)] of the filtered image. *)
Lemma filtered_nth (x y c : Z) :
  0 <= x < width -> 0 <= y < height -> 0 <= c < 4 ->
  nth (Z.to_nat ((x + y * width) * 4 + c))
      (filtered sigmaDomain sigmaRange input width height) 0
  = nth (Z.to_nat c) (pixel_bytes sigmaDomain sigmaRange input width height x y) 0.
Proof.
  intros Hx Hy Hc.
  pose proof Hok as (HW & HH & Hlen & _).
  assert (Hsplit : exists pre post,
             filtered sigmaDomain sigmaRange input width height
             = pre ++ pixel_bytes sigmaDomain sigmaRange input width height x y ++ post
             /\ length pre = Z.to_nat ((x + y * width) * 4)).
  { unfold filtered.
    destruct (in_split y (range 0 height)) as (ys1 & ys2 & Hys); [apply in_range; lia |].
    destruct (in_split x (range 0 width)) as (xs1 & xs2 & Hxs); [apply in_range; lia |].
    assert (Hly : length ys1 = Z.to_nat y).
    { assert (Hn : nth_error (range 0 height) (length ys1) = Some y)
        by (rewrite Hys, nth_error_app2, Nat.sub_diag by lia; reflexivity).
      apply range_nth_error in Hn. lia. }
    assert (Hlx : length xs1 = Z.to_nat x).
    { assert (Hn : nth_error (range 0 width) (length xs1) = Some x)
        by (rewrite Hxs, nth_error_app2, Nat.sub_diag by lia; reflexivity).
      apply range_nth_error in Hn. lia. }
    set (row := fun y' => flat_map
                  (fun x' => pixel_bytes sigmaDomain sigmaRange input width height x' y')
                  (range 0 width)).
    assert (Hrow : forall y', length (row y') = (Z.to_nat width * 4)%nat).
    { intros y'. unfold row.
      rewrite (flat_map_length_const _ 4%nat) by (intros; apply pixel_bytes_length).
      now rewrite range_length, Z.sub_0_r. }
    assert (Hy' : row y
                  = flat_map (fun x' => pixel_bytes sigmaDomain sigmaRange input
                                                    width height x' y) xs1
                    ++ pixel_bytes sigmaDomain sigmaRange input width height x y
                    ++ flat_map (fun x' => pixel_bytes sigmaDomain sigmaRange input
                                                       width height x' y) xs2).
    { unfold row. rewrite Hxs, flat_map_app. reflexivity. }
    rewrite Hys, flat_map_app. simpl. rewrite Hy', <- !app_assoc.
    eexists. eexists. split.
    - rewrite app_assoc. reflexivity.
    - rewrite length_app, (flat_map_length_const _ _ _ Hrow).
      rewrite (flat_map_length_const _ 4%nat) by (intros; apply pixel_bytes_length).
      nia. }
  destruct Hsplit as (pre & post & -> & Hpre).
  replace (Z.to_nat ((x + y * width) * 4 + c)) with (length pre + Z.to_nat c)%nat by lia.
  rewrite app_nth2_plus. apply app_nth1.
  rewrite pixel_bytes_length. lia.
Qed.

(** C3: for every well-formed input image and all sigma values, the
    reference filter succeeds and the alpha byte of every output pixel is
    the alpha byte of the same input pixel. *)
Theorem alpha_passthrough (o : list Z) :
  length o = Z.to_nat (width * height * 4) ->
  exists o',
    Runs (runReference sigmaDomain sigmaRange input width height) o tt o' /\
    forall x y, 0 <= x < width -> 0 <= y < height ->
      nth (Z.to_nat ((x + y * width) * 4 + 3)) o' 0
      = nth (Z.to_nat ((x + y * width) * 4 + 3)) input 0.
Proof.
  intros Ho. eexists. split; [apply runReference_runs, Ho |].
  intros x y Hx Hy. rewrite filtered_nth by lia. reflexivity.
Qed.

(** C6: the reference filter is deterministic.  Two invocations on the same
    well-formed input image with the same sigmas both succeed and leave the
    same bytes in their output buffers, whatever the two (uninitialised)
    buffers held before and whatever was logged before. *)
Theorem runReference_deterministic (o1 o2 : list Z) :
  length o1 = Z.to_nat (width * height * 4) ->
  length o2 = Z.to_nat (width * height * 4) ->
  exists o',
    Runs (runReference sigmaDomain sigmaRange input width height) o1 tt o' /\
    Runs (runReference sigmaDomain sigmaRange input width height) o2 tt o'.
Proof.
  intros H1 H2. eexists. split; apply runReference_runs; assumption.
Qed.

End ReferenceRuns.

(** ** Loops as folds *)

Lemma forM_fold {S A : Type} (body : A -> M S unit) (step : S -> A -> S) (l : list A) :
  (forall a s, In a l -> body a s = Some (tt, step s a)) ->
  forall s, forM_ l body s = Some (tt, fold_left step l s).
Proof.
  unfold forM_. induction l as [| a l IH]; intros Hbody s; simpl.
  - reflexivity.
  - unfold bind. rewrite Hbody by now left.
    apply IH. intros a' s' Hin. apply Hbody. now right.
Qed.

Lemma fold_left_list_prod {S A B : Type} (f : S -> A * B -> S)
      (l1 : list A) (l2 : list B) (s : S) :
  fold_left f (list_prod l1 l2) s
  = fold_left (fun s a => fold_left (fun s b => f s (a, b)) l2 s) l1 s.
Proof.
  revert s. induction l1 as [| a l1 IH]; intros s; simpl; [reflexivity |].
  rewrite fold_left_app, IH. f_equal.
  clear. revert s. induction l2 as [| b l2 IH]; intros s; simpl; [reflexivity |].
  apply IH.
Qed.

Lemma NoDup_list_prod {A B : Type} (l1 : list A) (l2 : list B) :
  NoDup l1 -> NoDup l2 -> NoDup (list_prod l1 l2).
Proof.
  intros H1 H2. induction H1 as [| a l1 Hnin H1 IH]; simpl; [constructor |].
  apply NoDup_app.
  - apply Injective_map_NoDup; [| exact H2]. intros b b' Hb. now inversion Hb.
  - exact IH.
  - intros [a' b'] Hin1 Hin2. apply in_map_iff in Hin1.
    destruct Hin1 as (b & Hb & _). inversion Hb; subst.
    apply in_prod_iff in Hin2. tauto.
Qed.

Lemma filter_unique {A : Type} (p : A -> bool) (l : list A) (t0 : A) :
  NoDup l -> In t0 l -> (forall t, In t l -> (p t = true <-> t = t0)) ->
  filter p l = [t0].
Proof.
  intros Hnd. induction Hnd as [| a l Hnin Hnd IH]; intros Hin Hp; [destruct Hin |].
  simpl. destruct (p a) eqn:Epa.
  - assert (a = t0) by (apply Hp; [now left | exact Epa]). subst a. f_equal.
    assert (Hnone : forall t, In t l -> p t = false).
    { intros t Ht. destruct (p t) eqn:Ept; [| reflexivity].
      assert (t = t0) by (apply Hp; [now right | exact Ept]). subst t. contradiction. }
    clear -Hnone. induction l as [| b l IHl]; simpl; [reflexivity |].
    rewrite Hnone by now left. apply IHl. intros t Ht. apply Hnone. now right.
  - destruct Hin as [-> | Hin].
    + assert (p t0 = true) by (apply Hp; [now left | reflexivity]). congruence.
    + apply IH; [exact Hin |]. intros t Ht. apply Hp. now right.
Qed.

Lemma filter_none {A : Type} (p : A -> bool) (l : list A) :
  (forall t, In t l -> p t = false) -> filter p l = [].
Proof.
  induction l as [| a l IH]; intros Hp; simpl; [reflexivity |].
  rewrite Hp by now left. apply IH. intros t Ht. apply Hp. now right.
Qed.

(** ** The verification loop *)

Section VerifyRuns.

Variable result reference : list Z.
Variable w h : Z.
Variable tolerance : Z.
Hypothesis Hres : image_ok result w h.
Hypothesis Href : image_ok reference w h.

Lemma verify_index_bounds (buf : list Z) (x y c : Z) :
  image_ok buf w h -> 0 <= x < w -> 0 <= y < h -> 0 <= c < 3 ->
  0 <= (x + y * w) * 4 + c < Z.of_nat (length buf).
Proof.
  intros (HW & HH & Hlen & _) Hx Hy Hc. rewrite Hlen. nia.
Qed.

Lemma check_channel_step (x y c : Z) (s : vstate) :
  0 <= x < w -> 0 <= y < h -> 0 <= c < 3 ->
  check_channel result reference w tolerance y x c s
  = Some (tt, vstep result reference w tolerance s (y, x, c)).
Proof.
  intros Hx Hy Hc. unfold check_channel, vstep, mismatch, mismatch_line, read, bind.
  rewrite !index_nth by (apply verify_index_bounds; assumption).
  destruct (tolerance <? _); [| reflexivity].
  unfold get_errors, post_increment_errors, vprint, ret. destruct s as [e con]. simpl.
  destruct (e =? 0); simpl; destruct (e <? 8); simpl;
    rewrite <- ?app_assoc, ?app_nil_r; reflexivity.
Qed.

Lemma verify_loops (s : vstate) :
  forM_ (range 0 h) (fun y =>
    forM_ (range 0 w) (fun x =>
      forM_ (range 0 3) (fun c => check_channel result reference w tolerance y x c))) s
  = Some (tt, fold_left (vstep result reference w tolerance) (visited w h) s).
Proof.
  unfold visited. rewrite !fold_left_list_prod.
  apply forM_fold. intros y s1 Hy. apply in_range in Hy.
  apply forM_fold. intros x s2 Hx. apply in_range in Hx.
  apply forM_fold. intros c s3 Hc. apply in_range in Hc.
  apply check_channel_step; lia.
Qed.

Lemma visited_length : Z.of_nat (length (visited w h)) < 2 ^ 32.
Proof.
  destruct Hres as (HW & HH & _ & Hsz). unfold visited.
  rewrite !length_prod, !range_length. change (2 ^ 32) with 4294967296. nia.
Qed.

(** The state after any prefix of the triples. *)
Lemma vstep_fold (l : list (Z * Z * Z)) :
  Z.of_nat (length l) < 2 ^ 32 ->
  let ms := filter (fun '(y, x, c) => mismatch result reference w tolerance y x c) l in
  fold_left (vstep result reference w tolerance) l vstate0
  = {| errors := Z.of_nat (length ms);
       console := (if length ms =? 0 then [] else [Verification_failed])%nat
                  ++ map (mismatch_line result reference w) (firstn 8 ms) |}.
Proof.
  induction l as [| t l IH] using rev_ind; intros Hlen ms; [reflexivity |].
  rewrite length_app in Hlen. cbn [length] in Hlen.
  rewrite fold_left_app. cbn [fold_left]. rewrite IH by lia. clear IH.
  subst ms. rewrite filter_app. cbn [filter].
  set (ms := filter (fun '(y, x, c) => mismatch result reference w tolerance y x c) l).
  assert (Hms : (length ms <= length l)%nat) by apply filter_length_le.
  destruct t as [[y x] c]. unfold vstep.
  destruct (mismatch result reference w tolerance y x c); [| now rewrite app_nil_r].
  cbn [errors console]. rewrite length_app. cbn [length].
  f_equal.
  - rewrite Z.mod_small by lia. lia.
  - replace (length ms + 1 =? 0)%nat with false by (symmetry; apply Nat.eqb_neq; lia).
    rewrite firstn_app, map_app.
    destruct (length ms) as [| n] eqn:En.
    + apply length_zero_iff_nil in En. rewrite En. reflexivity.
    + replace (Z.of_nat (S n) =? 0) with false by (symmetry; apply Z.eqb_neq; lia).
      replace (S n =? 0)%nat with false by reflexivity.
      rewrite <- app_assoc. f_equal. f_equal. cbn [app].
      destruct (Z.ltb_spec (Z.of_nat (S n)) 8) as [Hlt | Hge].
      * replace (8 - S n)%nat with (S (7 - S n)) by lia.
        cbn [firstn]. now rewrite firstn_nil.
      * replace (8 - S n)%nat with 0%nat by lia. reflexivity.
Qed.

(** The whole verification on two well-formed images of the same size. *)
Lemma verify_runs :
  let ms := mismatches result reference w h tolerance in
  verify result reference w h tolerance vstate0
  = Some (tt, {| errors := Z.of_nat (length ms);
                 console :=
                   if (length ms =? 0)%nat then [Verification_passed]
                   else Verification_failed
                        :: map (mismatch_line result reference w) (firstn 8 ms)
                        ++ [Total_errors (Z.of_nat (length ms))] |}).
Proof.
  intros ms. unfold verify, bind. rewrite verify_loops.
  rewrite vstep_fold by apply visited_length.
  change (filter (fun '(y, x, c) => mismatch result reference w tolerance y x c)
                 (visited w h))
    with ms.
  unfold get_errors, vprint. cbn [errors console].
  destruct (length ms) as [| n] eqn:En.
  - apply length_zero_iff_nil in En. rewrite En. reflexivity.
  - replace (Z.of_nat (S n) =? 0) with false by (symmetry; apply Z.eqb_neq; lia).
    reflexivity.
Qed.

End VerifyRuns.

Lemma in_firstn {A : Type} (n : nat) (l : list A) (a : A) :
  In a (firstn n l) -> In a l.
Proof.
  intros Hin. rewrite <- (firstn_skipn n l). apply in_or_app. now left.
Qed.

Lemma pixel_index_inj (w x y c x0 y0 c0 : Z) :
  0 <= x < w -> 0 <= x0 < w -> 0 <= y -> 0 <= y0 -> 0 <= c < 4 -> 0 <= c0 < 4 ->
  (x + y * w) * 4 + c = (x0 + y0 * w) * 4 + c0 ->
  x = x0 /\ y = y0 /\ c = c0.
Proof.
  intros Hx Hx0 Hy Hy0 Hc Hc0 E.
  assert (Ec : c = c0) by lia.
  assert (Exy : x + y * w = x0 + y0 * w) by lia.
  assert (Ey : y = y0) by nia.
  subst. repeat split; lia.
Qed.

(** C2: on two well-formed images of the same dimensions the verification
    loop ends with [errors] equal to the number of (pixel, channel) pairs,
    channel among R, G and B, whose bytes differ by more than the tolerance;
    the alpha bytes do not matter; and when the images differ only in one of
    the R, G, B bytes of one pixel, by exactly 2, the count is 1 for
    tolerance 1 and 0 for tolerance 2. *)
Theorem verify_counts_mismatches (result reference : list Z) (w h tolerance : Z) :
  image_ok result w h -> image_ok reference w h ->
  (exists st,
      verify result reference w h tolerance vstate0 = Some (tt, st) /\
      errors st = Z.of_nat (length (mismatches result reference w h tolerance))) /\
  (forall result' reference',
      image_ok result' w h -> image_ok reference' w h ->
      (forall x y c, 0 <= x < w -> 0 <= y < h -> 0 <= c < 3 ->
         nth (Z.to_nat ((x + y * w) * 4 + c)) result' 0
         = nth (Z.to_nat ((x + y * w) * 4 + c)) result 0 /\
         nth (Z.to_nat ((x + y * w) * 4 + c)) reference' 0
         = nth (Z.to_nat ((x + y * w) * 4 + c)) reference 0) ->
      verify result' reference' w h tolerance vstate0
      = verify result reference w h tolerance vstate0) /\
  (forall x0 y0 c0,
      0 <= x0 < w -> 0 <= y0 < h -> 0 <= c0 < 3 ->
      Z.abs (nth (Z.to_nat ((x0 + y0 * w) * 4 + c0)) reference 0
             - nth (Z.to_nat ((x0 + y0 * w) * 4 + c0)) result 0) = 2 ->
      (forall k, k <> Z.to_nat ((x0 + y0 * w) * 4 + c0) ->
                 nth k result 0 = nth k reference 0) ->
      (exists st, verify result reference w h 1 vstate0 = Some (tt, st) /\ errors st = 1) /\
      (exists st, verify result reference w h 2 vstate0 = Some (tt, st) /\ errors st = 0)).
Proof.
  intros Hres Href. split; [| split].
  - eexists. split; [apply verify_runs; assumption | reflexivity].
  - intros result' reference' Hres' Href' Hsame.
    rewrite !verify_runs by assumption.
    assert (Hms : mismatches result' reference' w h tolerance
                  = mismatches result reference w h tolerance).
    { unfold mismatches. apply filter_ext_in. intros [[y x] c] Hin.
      apply in_prod_iff in Hin. destruct Hin as [Hin Hc].
      apply in_prod_iff in Hin. destruct Hin as [Hy Hx].
      apply in_range in Hy, Hx, Hc. unfold mismatch.
      destruct (Hsame x y c) as [-> ->]; first [lia | reflexivity]. }
    rewrite Hms. do 3 f_equal.
    destruct (length _ =? 0)%nat; [reflexivity |]. do 2 f_equal.
    apply map_ext_in. intros [[y x] c] Hin. apply in_firstn in Hin.
    unfold mismatches in Hin. apply filter_In in Hin. destruct Hin as [Hin _].
    apply in_prod_iff in Hin. destruct Hin as [Hin Hc].
    apply in_prod_iff in Hin. destruct Hin as [Hy Hx].
    apply in_range in Hy, Hx, Hc. unfold mismatch_line.
    destruct (Hsame x y c) as [-> ->]; first [lia | reflexivity].
  - intros x0 y0 c0 Hx0 Hy0 Hc0 Hdiff Hrest.
    assert (Hnd : NoDup (visited w h)).
    { unfold visited. repeat apply NoDup_list_prod; apply range_NoDup. }
    assert (Hin0 : In (y0, x0, c0) (visited w h)).
    { unfold visited. rewrite !in_prod_iff, !in_range. lia. }
    assert (Hother : forall y x c, In (y, x, c) (visited w h) -> (y, x, c) <> (y0, x0, c0) ->
               nth (Z.to_nat ((x + y * w) * 4 + c)) reference 0
               - nth (Z.to_nat ((x + y * w) * 4 + c)) result 0 = 0).
    { intros y x c Hin Hne. unfold visited in Hin.
      rewrite !in_prod_iff, !in_range in Hin.
      rewrite Hrest; [lia |]. intros Ek. apply Hne.
      assert (E : (x + y * w) * 4 + c = (x0 + y0 * w) * 4 + c0) by nia.
      apply pixel_index_inj in E; try lia. destruct E as (-> & -> & ->). reflexivity. }
    split; eexists; (split; [apply verify_runs; assumption |]).
    + unfold mismatches. fold (visited w h).
      rewrite (filter_unique _ _ (y0, x0, c0) Hnd Hin0); [reflexivity |].
      intros [[y x] c] Hin. unfold mismatch. split.
      * intros Hm. destruct (Z.ltb_spec 1 (Z.abs
            (nth (Z.to_nat ((x + y * w) * 4 + c)) reference 0
             - nth (Z.to_nat ((x + y * w) * 4 + c)) result 0))) as [Hlt | _];
          [| discriminate].
        destruct (list_eq_dec Z.eq_dec [y; x; c] [y0; x0; c0]) as [E | Hne];
          [now inversion E |].
        rewrite Hother in Hlt; [simpl in Hlt; lia | exact Hin |].
        intros E. apply Hne. now inversion E.
      * intros E. inversion E; subst. rewrite Hdiff. reflexivity.
    + unfold mismatches. fold (visited w h).
      rewrite filter_none; [reflexivity |].
      intros [[y x] c] Hin. unfold mismatch. apply Z.ltb_ge.
      destruct (list_eq_dec Z.eq_dec [y; x; c] [y0; x0; c0]) as [E | Hne].
      * inversion E; subst. rewrite Hdiff. lia.
      * rewrite Hother; [simpl; lia | exact Hin |].
        intros E. apply Hne. now inversion E.
Qed.

(** C8, as the code has it: the verification loop prints one detail line
    for each of the first 8 mismatches and for no other; when there is at
    least one mismatch the text starts with the failure header and ends with
    the total count; when there is none the text is the success line alone,
    and no total is printed. *)
Theorem verify_report (result reference : list Z) (w h tolerance : Z) :
  image_ok result w h -> image_ok reference w h ->
  let ms := mismatches result reference w h tolerance in
  exists st,
    verify result reference w h tolerance vstate0 = Some (tt, st) /\
    length (filter is_mismatch_line (console st)) = Nat.min (length ms) 8 /\
    (ms = [] -> console st = [Verification_passed]) /\
    (ms <> [] ->
     console st = Verification_failed
                  :: map (mismatch_line result reference w) (firstn 8 ms)
                  ++ [Total_errors (Z.of_nat (length ms))]).
Proof.
  intros Hres Href ms. eexists. split; [apply verify_runs; assumption |].
  fold ms. cbn [console].
  assert (Hdetail : forall l,
             filter is_mismatch_line (map (mismatch_line result reference w) l)
             = map (mismatch_line result reference w) l).
  { induction l as [| [[y x] c] l IH]; [reflexivity |].
    cbn [map filter]. unfold mismatch_line at 1. cbn [is_mismatch_line].
    now rewrite IH. }
  destruct ms as [| t ms'] eqn:Ems.
  - split; [reflexivity |]. split; [reflexivity | congruence].
  - replace (length (t :: ms') =? 0)%nat with false by reflexivity.
    split; [| split; [discriminate | reflexivity]].
    cbn [filter is_mismatch_line]. rewrite filter_app, Hdetail. cbn [filter is_mismatch_line].
    rewrite app_nil_r, length_map, length_firstn. lia.
Qed.

(** C8, counterexample: two equal 1x1 images verify with the success line
    as the whole text; no total count is printed. *)
Lemma verify_prints_no_total_on_success :
  exists st,
    verify [10; 20; 30; 255] [10; 20; 30; 255] 1 1 1 vstate0 = Some (tt, st) /\
    console st = [Verification_passed] /\
    existsb is_total_line (console st) = false.
Proof. eexists. split; [reflexivity |]. split; reflexivity. Qed.

(** ** Degenerate dimensions *)

Lemma forM_skip {S A : Type} (body : A -> M S unit) (l : list A) :
  (forall a s, body a s = Some (tt, s)) ->
  forall s, forM_ l body s = Some (tt, s).
Proof.
  intros Hbody. unfold forM_. induction l as [| a l IH]; intros s; simpl.
  - reflexivity.
  - unfold bind. rewrite Hbody. apply IH.
Qed.

(** C10: with a width or a height that is zero or negative, [runReference]
    returns without an access (the output buffer and the log are unchanged,
    whatever the input buffer, even an empty one), and the verification loop
    over such dimensions returns with [errors] zero and prints the success
    line. *)
Theorem degenerate_dimensions {F : Type} {FA : FloatArith F}
        (sigmaDomain sigmaRange : F) (input result reference : list Z)
        (width height tolerance : Z) (m : mem) :
  width <= 0 \/ height <= 0 ->
  runReference sigmaDomain sigmaRange input width height m = Some (tt, m) /\
  verify result reference width height tolerance vstate0
  = Some (tt, {| errors := 0; console := [Verification_passed] |}).
Proof.
  intros Hdeg. split.
  - unfold runReference. destruct (Z.leb_spec height 0) as [Hh | Hh].
    + now rewrite (range_nil 0 height) by lia.
    + apply forM_skip. intros y s. now rewrite (range_nil 0 width) by lia.
  - unfold verify, bind.
    assert (Hloops : forall s,
               forM_ (range 0 height) (fun y =>
                 forM_ (range 0 width) (fun x =>
                   forM_ (range 0 3) (fun c =>
                     check_channel result reference width tolerance y x c))) s
               = Some (tt, s)).
    { intros s. destruct (Z.leb_spec height 0) as [Hh | Hh].
      - now rewrite (range_nil 0 height) by lia.
      - apply forM_skip. intros y s'. now rewrite (range_nil 0 width) by lia. }
    rewrite Hloops. reflexivity.
Qed.

(** ** The benchmark loop *)

Lemma enqueue_loop (call : kernel_call) (l : list Z) (s : bstate) :
  forM_ l (fun _ => enqueue call) s
  = Some (tt, {| enqueued := enqueued s ++ repeat call (length l);
                 completed := completed s;
                 printed := printed s |}).
Proof.
  unfold forM_. revert s. induction l as [| a l IH]; intros s; simpl.
  - rewrite app_nil_r. now destruct s.
  - unfold bind, enqueue at 1. rewrite IH. cbn [enqueued completed printed].
    now rewrite <- app_assoc.
Qed.

(** C9, as the code has it: for every value of the [unsigned] iteration
    count the loop enqueues exactly that many invocations, all with the same
    arguments, before [finish]; the body runs at least once exactly when the
    count is at least 1; and the per-frame figure printed is the total
    divided, in [double], by the count. *)
Theorem benchmark_invocations (call : kernel_call) (iterations startTime endTime : Z) :
  0 <= iterations < 2 ^ 32 ->
  let total := d_mul (d_of_Z ((endTime - startTime) mod 2 ^ 64)) d_milli in
  benchmark call iterations startTime endTime bstate0
  = Some (tt, {| enqueued := repeat call (Z.to_nat iterations);
                 completed := Z.to_nat iterations;
                 printed := [Took total (d_div total (d_of_Z iterations))] |}) /\
  ((1 <= length (repeat call (Z.to_nat iterations)))%nat <-> 1 <= iterations).
Proof.
  intros Hit total. split.
  - unfold benchmark, bind. rewrite enqueue_loop. unfold finish, bprint.
    cbn [enqueued completed printed bstate0 app].
    rewrite range_length, Z.sub_0_r, repeat_length. reflexivity.
  - rewrite repeat_length. lia.
Qed.

(** C9, counterexample: with an iteration count of zero the loop body does
    not run, no invocation is enqueued, and the per-frame figure is the
    quotient of a division by zero. *)
Lemma benchmark_zero_iterations :
  exists st,
    benchmark default_call 0 1000 2500 bstate0 = Some (tt, st) /\
    enqueued st = [] /\
    ~ (1 <= length (enqueued st))%nat /\
    exists total, printed st = [Took total (S754_infinity false)].
Proof.
  eexists. split; [vm_compute; reflexivity |].
  split; [reflexivity |]. split; [simpl; lia | eexists; reflexivity].
Qed.

(** ** The theorems at concrete images *)

Lemma image_ok_1x1 (a b c d : Z) : image_ok [a; b; c; d] 1 1.
Proof. unfold image_ok. simpl. lia. Qed.

Lemma verify_counts_mismatches_witness :
  image_ok [10; 20; 30; 255] 1 1 /\ image_ok [10; 22; 30; 255] 1 1 /\
  exists st,
    verify [10; 20; 30; 255] [10; 22; 30; 255] 1 1 1 vstate0 = Some (tt, st) /\
    errors st = Z.of_nat (length (mismatches [10; 20; 30; 255] [10; 22; 30; 255] 1 1 1)).
Proof.
  split; [apply image_ok_1x1 | split; [apply image_ok_1x1 |]].
  exact (proj1 (verify_counts_mismatches [10; 20; 30; 255] [10; 22; 30; 255] 1 1 1
                  (image_ok_1x1 _ _ _ _) (image_ok_1x1 _ _ _ _))).
Defined.

Lemma verify_report_witness :
  image_ok [10; 20; 30; 255] 1 1 /\ image_ok [10; 22; 30; 255] 1 1 /\
  exists st,
    verify [10; 20; 30; 255] [10; 22; 30; 255] 1 1 1 vstate0 = Some (tt, st) /\
    length (filter is_mismatch_line (console st)) = 1%nat.
Proof.
  split; [apply image_ok_1x1 | split; [apply image_ok_1x1 |]].
  destruct (verify_report [10; 20; 30; 255] [10; 22; 30; 255] 1 1 1
              (image_ok_1x1 _ _ _ _) (image_ok_1x1 _ _ _ _)) as (st & Hrun & Hn & _).
  exists st. split; [exact Hrun | exact Hn].
Defined.

Lemma alpha_passthrough_witness :
  image_ok [10; 20; 30; 255] 1 1 /\
  exists o',
    Runs (runReference (FA := B32 exp32) sigmaDomain_default sigmaRange_default
                       [10; 20; 30; 255] 1 1) [0; 0; 0; 0] tt o' /\
    nth 3 o' 0 = 255.
Proof.
  split; [apply image_ok_1x1 |].
  destruct (alpha_passthrough (FA := B32 exp32) sigmaDomain_default sigmaRange_default
              [10; 20; 30; 255] 1 1 (image_ok_1x1 _ _ _ _) [0; 0; 0; 0] eq_refl)
    as (o' & Hrun & Halpha).
  exists o'. split; [exact Hrun |].
  exact (Halpha 0 0 ltac:(lia) ltac:(lia)).
Defined.

Lemma runReference_deterministic_witness :
  image_ok [10; 20; 30; 255] 1 1 /\
  exists o',
    Runs (runReference (FA := B32 exp32) sigmaDomain_default sigmaRange_default
                       [10; 20; 30; 255] 1 1) [0; 0; 0; 0] tt o' /\
    Runs (runReference (FA := B32 exp32) sigmaDomain_default sigmaRange_default
                       [10; 20; 30; 255] 1 1) [7; 7; 7; 7] tt o'.
Proof.
  split; [apply image_ok_1x1 |].
  exact (runReference_deterministic (FA := B32 exp32) sigmaDomain_default sigmaRange_default
           [10; 20; 30; 255] 1 1 (image_ok_1x1 _ _ _ _) [0; 0; 0; 0] [7; 7; 7; 7]
           eq_refl eq_refl).
Defined.

Lemma degenerate_dimensions_witness :
  (0 <= 0 \/ 5 <= 0) /\
  runReference (FA := B32 exp32) sigmaDomain_default sigmaRange_default [] 0 5
               {| outbuf := []; trace := [] |}
  = Some (tt, {| outbuf := []; trace := [] |}) /\
  verify [] [] 0 5 1 vstate0
  = Some (tt, {| errors := 0; console := [Verification_passed] |}).
Proof.
  split; [left; lia |].
  exact (degenerate_dimensions (FA := B32 exp32) sigmaDomain_default sigmaRange_default
           [] [] [] 0 5 1 {| outbuf := []; trace := [] |} (or_introl (Z.le_refl 0))).
Defined.

Lemma benchmark_invocations_witness :
  0 <= 32 < 2 ^ 32 /\
  exists st,
    benchmark default_call 32 1000 2500 bstate0 = Some (tt, st) /\
    enqueued st = repeat default_call 32.
Proof.
  split; [lia |].
  eexists. split.
  - exact (proj1 (benchmark_invocations default_call 32 1000 2500 ltac:(lia))).
  - reflexivity.
Defined.

(** ** Clamping *)

Lemma clamp_to_min_max (n v : Z) :
  0 < n -> Z.min (Z.max v 0) (n - 1) = clamp_to n v.
Proof.
  intros Hn. unfold clamp_to.
  destruct (Z.ltb_spec v 0); [lia |].
  destruct (Z.ltb_spec (n - 1) v); lia.
Qed.

(** ** The sums, one projection at a time *)

Section Accumulate.

Context {F : Type} {FA : FloatArith F}.

Lemma coeff_accumulate (w : F) (s : F * F * F) (a : acc) :
  coeff (accumulate w s a) = fadd (coeff a) w.
Proof. destruct s as [[r g] b]. reflexivity. Qed.

Lemma sr_accumulate (w r g b : F) (a : acc) :
  sr (accumulate w (r, g, b) a) = fadd (sr a) (fmul w r).
Proof. reflexivity. Qed.

Lemma sg_accumulate (w r g b : F) (a : acc) :
  sg (accumulate w (r, g, b) a) = fadd (sg a) (fmul w g).
Proof. reflexivity. Qed.

Lemma sb_accumulate (w r g b : F) (a : acc) :
  sb (accumulate w (r, g, b) a) = fadd (sb a) (fmul w b).
Proof. reflexivity. Qed.

End Accumulate.

(** ** What [runReference] reads *)

Lemma reads_Rd (k : Z) (tr : list access) : reads (Rd k :: tr) = reads tr ++ [k].
Proof. reflexivity. Qed.

Lemma reads_Wr (k v : Z) (tr : list access) : reads (Wr k v :: tr) = reads tr.
Proof. unfold reads. cbn [flat_map app]. reflexivity. Qed.

Lemma Reads_ret {A : Type} (a : A) (o : list Z) : Reads (ret a) o a o [].
Proof. intros tr. exists tr. split; [reflexivity | now rewrite app_nil_r]. Qed.

Lemma Reads_bind {A B : Type} (c : M mem A) (k : A -> M mem B)
      (o o1 o2 : list Z) (a : A) (b : B) (ks1 ks2 : list Z) :
  Reads c o a o1 ks1 -> Reads (k a) o1 b o2 ks2 -> Reads (bind c k) o b o2 (ks1 ++ ks2).
Proof.
  intros Hc Hk tr. destruct (Hc tr) as (tr1 & E1 & R1). destruct (Hk tr1) as (tr2 & E2 & R2).
  exists tr2. unfold bind. rewrite E1. split; [exact E2 |].
  now rewrite R2, R1, app_assoc.
Qed.

Lemma Reads_load (buf : list Z) (k : Z) (o : list Z) :
  0 <= k < Z.of_nat (length buf) -> Reads (load buf k) o (nth (Z.to_nat k) buf 0) o [k].
Proof.
  intros Hk tr. unfold load. rewrite index_nth by exact Hk.
  eexists. split; [reflexivity | apply reads_Rd].
Qed.

Lemma Reads_store (k v : Z) (o : list Z) :
  0 <= k < Z.of_nat (length o) ->
  Reads (store k v) o tt (splice o (Z.to_nat k) [v]) [].
Proof.
  intros Hk tr. unfold store. simpl.
  destruct (Z.leb_spec 0 k) as [_ | Hneg]; [| lia].
  destruct (Z.ltb_spec k (Z.of_nat (length o))) as [_ | Hge]; [| lia].
  eexists. split; [reflexivity |]. now rewrite reads_Wr, app_nil_r.
Qed.

Lemma Reads_eq {A : Type} (c : M mem A) (o : list Z) (a : A) (o' : list Z)
      (ks ks' : list Z) :
  ks = ks' -> Reads c o a o' ks -> Reads c o a o' ks'.
Proof. now intros ->. Qed.

(** A loop whose [k]-th iteration overwrites the [k]-th block of [sz] bytes
    after position [base]. *)
Lemma Reads_forM_splice {A : Type} (body : A -> M mem unit) (cell : A -> list Z)
      (addr : A -> list Z) (sz L : nat) :
  (forall a, length (cell a) = sz) ->
  forall (xs : list A) (base : nat) (o : list Z),
    length o = L -> (base + length xs * sz <= L)%nat ->
    (forall k a o', nth_error xs k = Some a -> length o' = L ->
                    Reads (body a) o' tt (splice o' (base + k * sz) (cell a)) (addr a)) ->
    Reads (forM_ xs body) o tt (splice o base (flat_map cell xs)) (flat_map addr xs).
Proof.
  intros Hsz. induction xs as [| a xs IH]; intros base o Ho Hfit Hbody.
  - simpl. rewrite splice_nil. apply Reads_ret.
  - simpl in Hfit. unfold forM_. simpl.
    eapply Reads_bind.
    + specialize (Hbody 0%nat a o eq_refl Ho). simpl in Hbody.
      rewrite Nat.add_0_r in Hbody. exact Hbody.
    + rewrite <- splice_app by (rewrite Hsz; lia).
      rewrite Hsz. apply IH.
      * rewrite splice_length by (rewrite Hsz; lia). exact Ho.
      * lia.
      * intros k a' o' Hk Ho'.
        replace (base + sz + k * sz)%nat with (base + S k * sz)%nat by lia.
        apply Hbody; assumption.
Qed.

Lemma clamp_to_spec (n v : Z) :
  0 < n ->
  0 <= clamp_to n v <= n - 1 /\
  (0 <= v <= n - 1 -> clamp_to n v = v) /\
  (v < 0 -> clamp_to n v = 0) /\
  (n - 1 < v -> clamp_to n v = n - 1).
Proof.
  intros Hn. unfold clamp_to.
  destruct (Z.ltb_spec v 0); [lia |].
  destruct (Z.ltb_spec (n - 1) v); lia.
Qed.

Section ReferenceReads.

Context {F : Type} {FA : FloatArith F}.
Variable sigmaDomain sigmaRange : F.
Variable input : list Z.
Variable W H : Z.
Hypothesis Hok : image_ok input W H.

Lemma Reads_load_unit (k : Z) (o : list Z) :
  0 <= k < Z.of_nat (length input) ->
  Reads (load_unit input k) o (unit_of input k) o [k].
Proof.
  intros Hk. unfold load_unit. eapply Reads_eq; [| eapply Reads_bind].
  - apply app_nil_r.
  - apply Reads_load, Hk.
  - apply Reads_ret.
Qed.

Lemma Reads_load_rgb (px py : Z) (o : list Z) :
  0 <= px < W -> 0 <= py < H ->
  Reads (load_rgb input W px py) o (rgb_at input W px py) o (rgb_addresses W px py).
Proof.
  intros Hx Hy. unfold load_rgb, rgb_at, rgb_addresses.
  eapply Reads_eq;
    [| eapply Reads_bind;
       [apply Reads_load_unit, (pixel_index_bounds input W H Hok); lia |];
       eapply Reads_bind;
       [apply Reads_load_unit, (pixel_index_bounds input W H Hok); lia |];
       eapply Reads_bind;
       [apply Reads_load_unit, (pixel_index_bounds input W H Hok); lia |];
       apply Reads_ret].
  reflexivity.
Qed.

(** The sums of a pixel: every sample is taken at the clamped coordinates,
    for the weight and for the sums alike, and the input is read at the
    addresses clamping gives. *)
Lemma Reads_pixel_sums (x y : Z) (o : list Z) :
  0 <= x < W -> 0 <= y < H ->
  Reads (pixel_sums sigmaDomain sigmaRange input W H x y) o
        (fold_left
           (fun a '(i, j) =>
              let s := rgb_at input W (clamp_to W (x + i)) (clamp_to H (y + j)) in
              accumulate (weight_of sigmaDomain sigmaRange i j (rgb_at input W x y) s) s a)
           loop_offsets acc0)
        o (rgb_addresses W x y ++ sample_addresses W H x y).
Proof.
  intros Hx Hy. unfold pixel_sums.
  eapply Reads_bind; [apply Reads_load_rgb; assumption |].
  set (c := rgb_at input W x y).
  set (step := fun a '(i, j) =>
                 let s := rgb_at input W (clamp_to W (x + i)) (clamp_to H (y + j)) in
                 accumulate (weight_of sigmaDomain sigmaRange i j c s) s a).
  set (addr := fun '(i, j) =>
                 rgb_addresses W (clamp_to W (x + i)) (clamp_to H (y + j))).
  assert (Hrows : forall (js : list Z) a,
             Reads (foldM (fun j a => foldM (fun i a => sample_step sigmaDomain sigmaRange
                                                       input W H x y c j i a)
                                            (range (-2) 3) a) js a)
                   o
                   (fold_left step (flat_map (fun j => map (fun i => (i, j)) (range (-2) 3)) js) a)
                   o
                   (flat_map addr (flat_map (fun j => map (fun i => (i, j)) (range (-2) 3)) js))).
  { induction js as [| j js IH]; intros a; [apply Reads_ret |].
    cbn [foldM flat_map]. rewrite fold_left_app, flat_map_app.
    eapply Reads_bind; [| apply IH].
    generalize (range (-2) 3). intros cols. revert a.
    induction cols as [| i cols IHi]; intros a; [apply Reads_ret |].
    cbn [foldM map fold_left flat_map].
    eapply Reads_bind; [| apply IHi].
    unfold sample_step, load_sample.
    eapply Reads_eq; [| eapply Reads_bind; [| apply Reads_ret]].
    - apply app_nil_r.
    - cbn [step addr]. rewrite !clamp_to_min_max by lia.
      pose proof (clamp_to_spec W (x + i) ltac:(lia)) as [Hcx _].
      pose proof (clamp_to_spec H (y + j) ltac:(lia)) as [Hcy _].
      apply Reads_load_rgb; lia. }
  apply Hrows.
Qed.

Lemma Reads_pixel (x y : Z) (o : list Z) :
  0 <= x < W -> 0 <= y < H ->
  length o = Z.to_nat (W * H * 4) ->
  Reads (pixel sigmaDomain sigmaRange input W H x y) o tt
        (splice o (Z.to_nat ((x + y * W) * 4))
                (pixel_bytes sigmaDomain sigmaRange input W H x y))
        (pixel_addresses W H x y).
Proof.
  intros Hx Hy Ho.
  pose proof (Runs_pixel_sums sigmaDomain sigmaRange input W H Hok x y o Hx Hy) as Hruns.
  pose proof (Reads_pixel_sums x y o Hx Hy) as Hreads.
  assert (Hsums : Reads (pixel_sums sigmaDomain sigmaRange input W H x y) o
                        (sums_at sigmaDomain sigmaRange input W H x y) o
                        (rgb_addresses W x y ++ sample_addresses W H x y)).
  { intros tr. destruct (Hreads tr) as (tr' & E & R). destruct (Hruns tr) as (tr'' & E').
    rewrite E in E'. inversion E'. exists tr'. split; [| exact R]. rewrite E. congruence. }
  clear Hruns Hreads.
  unfold pixel, pixel_bytes, pixel_addresses.
  set (a := sums_at sigmaDomain sigmaRange input W H x y) in *.
  set (p := (x + y * W) * 4).
  assert (Hp : 0 <= p /\ p + 3 < Z.of_nat (length o)).
  { pose proof (pixel_index_bounds input W H Hok x y 3 Hx Hy ltac:(lia)) as Hb.
    destruct Hok as (_ & _ & Hlen & _). subst p. lia. }
  assert (Hn : forall c, 0 <= c -> Z.to_nat (p + c) = (Z.to_nat p + Z.to_nat c)%nat)
    by (intros; lia).
  set (o1 := splice o (Z.to_nat (p + 0)) [quantize (sr a) (coeff a)]).
  set (o2 := splice o1 (Z.to_nat (p + 1)) [quantize (sg a) (coeff a)]).
  set (o3 := splice o2 (Z.to_nat (p + 2)) [quantize (sb a) (coeff a)]).
  assert (L1 : length o1 = length o) by (apply splice_length; simpl; lia).
  assert (L2 : length o2 = length o)
    by (unfold o2; rewrite splice_length; simpl; lia).
  assert (L3 : length o3 = length o)
    by (unfold o3; rewrite splice_length; simpl; lia).
  eapply Reads_eq;
    [| eapply Reads_bind; [exact Hsums |];
       eapply Reads_bind; [apply Reads_store; lia |]; fold o1;
       eapply Reads_bind; [apply Reads_store; lia |]; fold o2;
       eapply Reads_bind; [apply Reads_store; lia |]; fold o3;
       eapply Reads_bind;
       [apply Reads_load, (pixel_index_bounds input W H Hok); lia |]].
  - cbn [app]. rewrite <- app_assoc. reflexivity.
  - replace (splice o (Z.to_nat p) [quantize (sr a) (coeff a); quantize (sg a) (coeff a);
                                     quantize (sb a) (coeff a); rd input (p + 3)])
      with (splice o3 (Z.to_nat (p + 3)) [rd input (p + 3)]).
    { apply Reads_store. lia. }
    unfold o3, o2, o1.
    rewrite !Hn by lia. rewrite Nat.add_0_r.
    apply splice4. lia.
Qed.

(** On a well-formed image [runReference] reads the input at the addresses
    clamping gives, pixel by pixel, and nowhere else. *)
Lemma runReference_reads (o : list Z) :
  length o = Z.to_nat (W * H * 4) ->
  Reads (runReference sigmaDomain sigmaRange input W H) o tt
        (filtered sigmaDomain sigmaRange input W H) (image_addresses W H).
Proof.
  intros Ho. pose proof Hok as (HW & HH & Hlen & _).
  rewrite <- (splice_all o (filtered sigmaDomain sigmaRange input W H))
    by (rewrite (filtered_length sigmaDomain sigmaRange input W H Hok); now rewrite Ho).
  unfold runReference, filtered, image_addresses.
  apply (Reads_forM_splice _ _ _ (Z.to_nat W * 4) (length o)).
  - intros y. rewrite (flat_map_length_const _ 4%nat).
    + now rewrite range_length, Z.sub_0_r.
    + intros x. reflexivity.
  - reflexivity.
  - rewrite range_length, Ho. nia.
  - intros k y o' Hk Ho'. apply range_nth_error in Hk. destruct Hk as [-> Hk].
    apply (Reads_forM_splice _ _ _ 4%nat (length o)).
    + intros x. reflexivity.
    + exact Ho'.
    + rewrite range_length, Ho. nia.
    + intros i x o'' Hi Ho''. apply range_nth_error in Hi. destruct Hi as [-> Hi].
      replace (0 + k * (Z.to_nat W * 4) + i * 4)%nat
        with (Z.to_nat ((0 + Z.of_nat i + (0 + Z.of_nat k) * W) * 4)) by nia.
      apply Reads_pixel; lia.
Qed.

End ReferenceReads.

(** C4: sampling is by edge-replicate clamping and by nothing else.  On
    every well-formed image, for every arithmetic and all sigmas: the sums
    of each pixel [(x, y)] take, for every offset [(i, j)], the sample at
    the coordinates [(x + i, y + j)] clamped to [0, W-1] and [0, H-1], both
    for its weight and for the weighted sums, and read the input at these
    pixels; the whole filter reads the input at the addresses of the centre,
    of the 25 clamped samples and of the alpha byte of each pixel in turn,
    and nowhere else; a coordinate below zero becomes zero and one above the
    last becomes the last (no wrap-around, no zero padding); and for the
    pixel at (0, 0) every sample whose offsets are not positive is read from
    bytes 0, 1 and 2, those of the pixel at (0, 0) itself. *)
Theorem edge_replicate_sampling {F : Type} {FA : FloatArith F}
        (sigmaDomain sigmaRange : F) (input : list Z) (W H : Z) :
  image_ok input W H ->
  (forall x y o, 0 <= x < W -> 0 <= y < H ->
     Reads (pixel_sums sigmaDomain sigmaRange input W H x y) o
           (fold_left
              (fun a '(i, j) =>
                 let s := rgb_at input W (clamp_to W (x + i)) (clamp_to H (y + j)) in
                 accumulate (weight_of sigmaDomain sigmaRange i j (rgb_at input W x y) s) s a)
              loop_offsets acc0)
           o (rgb_addresses W x y ++ sample_addresses W H x y)) /\
  (forall o, length o = Z.to_nat (W * H * 4) ->
     exists o',
       Reads (runReference sigmaDomain sigmaRange input W H) o tt o' (image_addresses W H)) /\
  (forall n v, 0 < n ->
     0 <= clamp_to n v <= n - 1 /\
     (0 <= v <= n - 1 -> clamp_to n v = v) /\
     (v < 0 -> clamp_to n v = 0) /\
     (n - 1 < v -> clamp_to n v = n - 1)) /\
  (0 < W -> 0 < H -> forall i j, i <= 0 -> j <= 0 ->
     rgb_addresses W (clamp_to W (0 + i)) (clamp_to H (0 + j)) = [0; 1; 2] /\
     rgb_at input W (clamp_to W (0 + i)) (clamp_to H (0 + j)) = rgb_at input W 0 0).
Proof.
  intros Hok. split; [| split; [| split]].
  - intros x y o Hx Hy. apply Reads_pixel_sums; assumption.
  - intros o Ho. eexists. apply runReference_reads; assumption.
  - intros n v Hn. apply clamp_to_spec, Hn.
  - intros HW HH i j Hi Hj.
    assert (Ei : clamp_to W (0 + i) = 0).
    { destruct (clamp_to_spec W (0 + i) HW) as (_ & Hin & Hneg & _).
      destruct (Z.eq_dec i 0) as [-> | Hne]; [apply Hin; lia | apply Hneg; lia]. }
    assert (Ej : clamp_to H (0 + j) = 0).
    { destruct (clamp_to_spec H (0 + j) HH) as (_ & Hin & Hneg & _).
      destruct (Z.eq_dec j 0) as [-> | Hne]; [apply Hin; lia | apply Hneg; lia]. }
    rewrite Ei, Ej. split; reflexivity.
Qed.

Lemma edge_replicate_sampling_witness :
  image_ok ramp 3 3 /\
  exists a,
    Reads (pixel_sums (FA := B32 exp32) sigmaDomain_default sigmaRange_default ramp 3 3 0 0)
          [] a []
          ([0; 1; 2]
           ++ [0; 1; 2; 0; 1; 2; 0; 1; 2; 4; 5; 6; 8; 9; 10]
           ++ [0; 1; 2; 0; 1; 2; 0; 1; 2; 4; 5; 6; 8; 9; 10]
           ++ [0; 1; 2; 0; 1; 2; 0; 1; 2; 4; 5; 6; 8; 9; 10]
           ++ [12; 13; 14; 12; 13; 14; 12; 13; 14; 16; 17; 18; 20; 21; 22]
           ++ [24; 25; 26; 24; 25; 26; 24; 25; 26; 28; 29; 30; 32; 33; 34]).
Proof.
  assert (Hok : image_ok ramp 3 3) by (unfold image_ok; simpl; lia).
  split; [exact Hok |].
  eexists.
  exact (proj1 (edge_replicate_sampling (FA := B32 exp32) sigmaDomain_default
                  sigmaRange_default ramp 3 3 Hok) 0 0 [] ltac:(lia) ltac:(lia)).
Defined.

(** ** The filter and the formula *)

Section FormulaRuns.

Context {F : Type} {FA : FloatArith F}.
Variable sigmaDomain sigmaRange : F.
Variable input : list Z.
Variable W H : Z.
Hypothesis HW : 0 < W.
Hypothesis HH : 0 < H.

Lemma sample_at_formula (x y i j : Z) :
  sample_at input W H x y i j
  = (fl_sample input W H 0 x y i j, fl_sample input W H 1 x y i j,
     fl_sample input W H 2 x y i j).
Proof.
  unfold sample_at, rgb_at, unit_of, rd, fl_sample, fl_channel.
  rewrite !clamp_to_min_max by assumption. reflexivity.
Qed.

Lemma rgb_at_formula (x y : Z) :
  rgb_at input W x y = (fl_channel input W 0 x y, fl_channel input W 1 x y,
                        fl_channel input W 2 x y).
Proof. reflexivity. Qed.

Lemma weight_of_formula (x y i j : Z) :
  weight_of sigmaDomain sigmaRange i j
            (fl_channel input W 0 x y, fl_channel input W 1 x y, fl_channel input W 2 x y)
            (fl_sample input W H 0 x y i j, fl_sample input W H 1 x y i j,
             fl_sample input W H 2 x y i j)
  = fl_weight sigmaDomain sigmaRange input W H x y i j.
Proof. reflexivity. Qed.

Lemma sums_at_formula (x y : Z) :
  let a := sums_at sigmaDomain sigmaRange input W H x y in
  let w := fl_weight sigmaDomain sigmaRange input W H x y in
  let total (f : Z -> Z -> F) := fl_sum (map (fun '(i, j) => f i j) loop_offsets) in
  coeff a = total w /\
  sr a = total (fun i j => fmul (w i j) (fl_sample input W H 0 x y i j)) /\
  sg a = total (fun i j => fmul (w i j) (fl_sample input W H 1 x y i j)) /\
  sb a = total (fun i j => fmul (w i j) (fl_sample input W H 2 x y i j)).
Proof.
  intros a w total. subst a w total. unfold sums_at.
  change (range (-2) 3) with [-2; -1; 0; 1; 2].
  cbn [fold_left]. rewrite !sample_at_formula, rgb_at_formula.
  rewrite !weight_of_formula.
  unfold fl_sum, loop_offsets. cbn [flat_map map app fold_left].
  split; [| split; [| split]].
  - rewrite !coeff_accumulate. reflexivity.
  - rewrite !sr_accumulate. reflexivity.
  - rewrite !sg_accumulate. reflexivity.
  - rewrite !sb_accumulate. reflexivity.
Qed.

End FormulaRuns.

(** C1, as the arithmetic has it: on every well-formed image and for all
    sigmas the reference filter succeeds and writes, for each pixel
    [(x, y)] and each channel R, G, B, the byte of the formula evaluated in
    the arithmetic of the program: the sum over the 25 offsets of
    weight * sample divided by the sum of the weights, the weight being the
    product of the two exponentials on normalised channels, the samples
    taken at coordinates clamped to the image, the quotient clamped to
    [0, 1], multiplied by 255 and truncated; where each operation rounds as
    [float] does, the colour distance and its product with [1.f/sigmaRange]
    as [double] does, and each sum adds its 25 terms to [0.f] in the order
    of the loops. *)
Theorem reference_formula {F : Type} {FA : FloatArith F}
        (sigmaDomain sigmaRange : F) (input : list Z) (W H : Z) (o : list Z) :
  image_ok input W H ->
  length o = Z.to_nat (W * H * 4) ->
  exists o',
    Runs (runReference sigmaDomain sigmaRange input W H) o tt o' /\
    forall x y c, 0 <= x < W -> 0 <= y < H -> 0 <= c < 3 ->
      nth (Z.to_nat ((x + y * W) * 4 + c)) o' 0
      = fl_output_channel sigmaDomain sigmaRange input W H c x y.
Proof.
  intros Hok Ho. eexists. split; [apply runReference_runs; assumption |].
  intros x y c Hx Hy Hc. rewrite filtered_nth by (assumption || lia).
  unfold pixel_bytes, fl_output_channel, fl_weighted_mean.
  destruct (sums_at_formula sigmaDomain sigmaRange input W H ltac:(lia) ltac:(lia) x y)
    as (Ec & Er & Eg & Eb).
  cbv zeta in Ec, Er, Eg, Eb.
  assert (Hcases : c = 0 \/ c = 1 \/ c = 2) by lia.
  destruct Hcases as [-> | [-> | ->]];
    [change (Z.to_nat 0) with 0%nat | change (Z.to_nat 1) with 1%nat
     | change (Z.to_nat 2) with 2%nat];
    cbn [nth]; unfold quantize; rewrite Ec; [rewrite Er | rewrite Eg | rewrite Eb];
    reflexivity.
Qed.

Lemma reference_formula_witness :
  image_ok ramp 3 3 /\
  exists o',
    Runs (runReference (FA := B32 exp32) sigmaDomain_default sigmaRange_default ramp 3 3)
         (repeat 0 36) tt o' /\
    nth 13 o' 0
    = fl_output_channel (FA := B32 exp32) sigmaDomain_default sigmaRange_default
                        ramp 3 3 1 0 1.
Proof.
  assert (Hok : image_ok ramp 3 3) by (unfold image_ok; simpl; lia).
  split; [exact Hok |].
  destruct (reference_formula (FA := B32 exp32) sigmaDomain_default sigmaRange_default
              ramp 3 3 (repeat 0 36) Hok eq_refl) as (o' & Hrun & Hbytes).
  exists o'. split; [exact Hrun |].
  exact (Hbytes 0 1 1 ltac:(lia) ltac:(lia) ltac:(lia)).
Defined.

(** ** Rounding to binary32

    What the filter needs of the rounding of [SpecFloat]: the sign of a
    rounded value is the sign asked for, a rounded value is a number, and a
    positive value whose exponent is not below that of the subnormals does
    not round to zero. *)

Lemma digits2_pos_size (m : positive) : digits2_pos m = Pos.size m.
Proof. induction m as [m IH | m IH |]; simpl; now rewrite ?IH. Qed.

Lemma digits2_lower (m : positive) : 2 ^ (Zpos (digits2_pos m) - 1) <= Zpos m.
Proof.
  induction m as [m IH | m IH |]; cbn [digits2_pos].
  - rewrite Pos2Z.inj_succ.
    replace (Z.succ (Zpos (digits2_pos m)) - 1) with (Z.succ (Zpos (digits2_pos m) - 1)) by lia.
    rewrite Z.pow_succ_r by lia. lia.
  - rewrite Pos2Z.inj_succ.
    replace (Z.succ (Zpos (digits2_pos m)) - 1) with (Z.succ (Zpos (digits2_pos m) - 1)) by lia.
    rewrite Z.pow_succ_r by lia. lia.
  - simpl. lia.
Qed.

Lemma shr_1_m (r : shr_record) : 0 <= shr_m r -> shr_m (shr_1 r) = shr_m r / 2.
Proof.
  destruct r as [m b c]. cbn [shr_m]. intros Hm.
  destruct m as [| [p | p |] | p]; cbn [shr_1 shr_m]; [reflexivity | | | reflexivity | lia].
  - apply Z.div_unique with (r := 1); lia.
  - apply Z.div_unique with (r := 0); lia.
Qed.

Lemma iter_shr_m (p : positive) (r : shr_record) :
  0 <= shr_m r -> shr_m (SpecFloat.iter_pos shr_1 p r) = shr_m r / 2 ^ Zpos p.
Proof.
  revert r. induction p as [p IH | p IH |]; intros r Hm; cbn [SpecFloat.iter_pos].
  - assert (H1 : 0 <= shr_m (shr_1 r)) by (rewrite shr_1_m by lia; apply Z.div_pos; lia).
    assert (H2 : 0 <= shr_m (SpecFloat.iter_pos shr_1 p (shr_1 r)))
      by (rewrite IH by lia; apply Z.div_pos; lia).
    rewrite IH, IH, shr_1_m by lia.
    rewrite !Z.div_div by lia. f_equal.
    replace (Zpos p~1) with (1 + Zpos p + Zpos p) by lia.
    rewrite !Z.pow_add_r by lia. change (2 ^ 1) with 2. ring.
  - assert (H2 : 0 <= shr_m (SpecFloat.iter_pos shr_1 p r))
      by (rewrite IH by lia; apply Z.div_pos; lia).
    rewrite IH, IH by lia.
    rewrite !Z.div_div by lia. f_equal.
    replace (Zpos p~0) with (Zpos p + Zpos p) by lia.
    rewrite Z.pow_add_r by lia. reflexivity.
  - rewrite shr_1_m by lia. reflexivity.
Qed.

Lemma shr_record_of_loc_m (m : Z) (l : location) : shr_m (shr_record_of_loc m l) = m.
Proof. destruct l as [| []]; reflexivity. Qed.

(** After [shr_fexp] the mantissa is still not negative and the exponent is
    not below that of the subnormals. *)
Lemma shr_fexp_nonneg (m e : Z) (l : location) :
  0 <= m ->
  0 <= shr_m (fst (shr_fexp 24 128 m e l)) /\ -149 <= snd (shr_fexp 24 128 m e l).
Proof.
  intros Hm. unfold shr_fexp, shr, SpecFloat.fexp, SpecFloat.emin.
  destruct (Z.max (Zdigits2 m + e - 24) (3 - 128 - 24) - e) as [| p | p] eqn:En;
    cbn [fst snd]; rewrite ?shr_record_of_loc_m; try lia.
  rewrite iter_shr_m by (rewrite shr_record_of_loc_m; lia).
  rewrite shr_record_of_loc_m. split; [apply Z.div_pos; lia | lia].
Qed.

(** A positive mantissa at an exponent not below that of the subnormals
    stays positive. *)
Lemma shr_fexp_pos (m e : Z) (l : location) :
  0 < m -> -149 <= e ->
  0 < shr_m (fst (shr_fexp 24 128 m e l)) /\ -149 <= snd (shr_fexp 24 128 m e l).
Proof.
  intros Hm He. unfold shr_fexp, shr, SpecFloat.fexp, SpecFloat.emin.
  destruct (Z.max (Zdigits2 m + e - 24) (3 - 128 - 24) - e) as [| p | p] eqn:En;
    cbn [fst snd]; rewrite ?shr_record_of_loc_m; try lia.
  rewrite iter_shr_m by (rewrite shr_record_of_loc_m; lia).
  rewrite shr_record_of_loc_m. split; [| lia].
  destruct m as [| q | q]; try lia. cbn [Zdigits2] in En.
  assert (Hp : Zpos p = Zpos (digits2_pos q) - 24) by lia.
  pose proof (digits2_lower q) as Hq.
  apply Z.div_str_pos. split; [lia |].
  apply Z.le_trans with (2 ^ (Zpos (digits2_pos q) - 1)); [| exact Hq].
  apply Z.pow_le_mono_r; lia.
Qed.

Lemma round_nearest_even_ge (m : Z) (l : location) : m <= round_nearest_even m l.
Proof.
  unfold round_nearest_even. destruct l as [| []]; try lia.
  destruct (Z.even m); lia.
Qed.

Lemma binary_round_aux_signed (s : bool) (m e : Z) (l : location) :
  0 <= m -> b32_signed s (binary_round_aux 24 128 s m e l).
Proof.
  intros Hm. unfold binary_round_aux.
  destruct (shr_fexp 24 128 m e l) as [r1 e1] eqn:E1.
  pose proof (shr_fexp_nonneg m e l Hm) as [H1 _]. rewrite E1 in H1. cbn [fst] in H1.
  set (m2 := round_nearest_even (shr_m r1) (loc_of_shr_record r1)).
  assert (Hm2 : 0 <= m2) by (pose proof (round_nearest_even_ge (shr_m r1) (loc_of_shr_record r1)); lia).
  destruct (shr_fexp 24 128 m2 e1 loc_Exact) as [r2 e2] eqn:E2.
  pose proof (shr_fexp_nonneg m2 e1 loc_Exact Hm2) as [H2 He2].
  rewrite E2 in H2, He2. cbn [fst snd] in H2, He2.
  destruct (shr_m r2) as [| q | q]; [reflexivity | | lia].
  destruct (e2 <=? 128 - 24); cbn [b32_signed]; [split; [reflexivity | lia] | reflexivity].
Qed.

Lemma binary_round_aux_pos (m e : Z) (l : location) :
  0 < m -> -149 <= e -> b32_pos (binary_round_aux 24 128 false m e l).
Proof.
  intros Hm He. unfold binary_round_aux.
  destruct (shr_fexp 24 128 m e l) as [r1 e1] eqn:E1.
  pose proof (shr_fexp_pos m e l Hm He) as [H1 He1]. rewrite E1 in H1, He1.
  cbn [fst snd] in H1, He1.
  set (m2 := round_nearest_even (shr_m r1) (loc_of_shr_record r1)).
  assert (Hm2 : 0 < m2) by (pose proof (round_nearest_even_ge (shr_m r1) (loc_of_shr_record r1)); lia).
  destruct (shr_fexp 24 128 m2 e1 loc_Exact) as [r2 e2] eqn:E2.
  pose proof (shr_fexp_pos m2 e1 loc_Exact Hm2 He1) as [H2 He2].
  rewrite E2 in H2, He2. cbn [fst snd] in H2, He2.
  destruct (shr_m r2) as [| q | q]; [lia | | lia].
  destruct (e2 <=? 128 - 24); cbn [b32_pos]; [lia | exact I].
Qed.

Lemma binary_round_signed (s : bool) (m : positive) (e : Z) :
  b32_signed s (binary_round 24 128 s m e).
Proof.
  unfold binary_round. destruct (shl_align m e _) as [mz ez].
  apply binary_round_aux_signed. lia.
Qed.

Lemma binary_round_pos (m : positive) (e : Z) :
  -149 <= e -> b32_pos (binary_round 24 128 false m e).
Proof.
  intros He. unfold binary_round.
  destruct (shl_align m e _) as [mz ez] eqn:Es.
  apply binary_round_aux_pos; [lia |].
  unfold shl_align, SpecFloat.fexp, SpecFloat.emin in Es.
  destruct (Z.max (Zpos (digits2_pos m) + e - 24) (3 - 128 - 24) - e) eqn:En;
    inversion Es; subst; lia.
Qed.

(** Case analysis on the constructors and signs of binary32 values: closes
    the cases the hypotheses exclude and those that hold by computation. *)
Ltac b32_cases :=
  cbn; intros;
  repeat match goal with
         | H : _ /\ _ |- _ => destruct H
         end;
  try discriminate; try contradiction; try reflexivity; try exact I;
  try (split; [reflexivity | assumption]); try assumption.

Lemma b32_signed_num (s : bool) (x : spec_float) : b32_signed s x -> b32_num x.
Proof. destruct x as [[] | [] | | [] m e]; b32_cases. Qed.

Lemma b32_pos_ltb (x : spec_float) : b32_pos x -> SFltb (S754_zero false) x = true.
Proof. destruct x as [[] | [] | | [] m e]; b32_cases. Qed.

Lemma b32_fin_nonnegb_spec (x : spec_float) :
  b32_fin_nonnegb x = true -> b32_fin_nonneg x.
Proof. destruct x as [[] | [] | | [] m e]; b32_cases; lia. Qed.

Lemma SFadd_nonneg (x y : spec_float) :
  b32_nonneg x -> b32_nonneg y -> b32_nonneg (SFadd 24 128 x y).
Proof.
  destruct x as [[] | [] | | [] mx ex], y as [[] | [] | | [] my ey];
    b32_cases.
  apply binary_round_signed.
Qed.

Lemma SFadd_pos_l (x y : spec_float) :
  b32_pos x -> b32_nonneg y -> b32_pos (SFadd 24 128 x y).
Proof.
  destruct x as [[] | [] | | [] mx ex], y as [[] | [] | | [] my ey];
    b32_cases.
  apply binary_round_pos. lia.
Qed.

Lemma SFadd_pos_r (x y : spec_float) :
  b32_nonneg x -> b32_pos y -> b32_pos (SFadd 24 128 x y).
Proof.
  destruct x as [[] | [] | | [] mx ex], y as [[] | [] | | [] my ey];
    b32_cases.
  apply binary_round_pos. lia.
Qed.

Lemma SFmul_self_nonneg (d : spec_float) : b32_num d -> b32_nonneg (SFmul 24 128 d d).
Proof.
  destruct d as [[] | [] | | s m e]; b32_cases.
  replace (xorb s s) with false by (now destruct s).
  apply binary_round_aux_signed. lia.
Qed.

Lemma SFmul_neg_half (q : spec_float) :
  b32_nonneg q -> b32_nonpos (SFmul 24 128 b32_neg_half q).
Proof.
  destruct q as [[] | [] | | [] m e]; b32_cases.
  apply (binary_round_aux_signed true). lia.
Qed.

Lemma SFmul_fin_nonneg (x y : spec_float) :
  b32_fin_nonneg x -> b32_fin_nonneg y -> b32_nonneg (SFmul 24 128 x y).
Proof.
  destruct x as [[] | [] | | [] mx ex], y as [[] | [] | | [] my ey];
    b32_cases.
  apply binary_round_aux_signed. lia.
Qed.

Lemma SFsub_diag (x : spec_float) :
  b32_fin_nonneg x -> SFsub 24 128 x x = S754_zero false.
Proof.
  destruct x as [[] | [] | | [] m e]; cbn [b32_fin_nonneg]; try tauto.
  intros _. unfold SFsub, shl_align.
  rewrite Z.min_id, Z.sub_diag. reflexivity.
Qed.

(** ** Rounding does not overflow below the largest exponent *)

Lemma digits2_upper (m : positive) : Zpos m < 2 ^ Zpos (digits2_pos m).
Proof.
  induction m as [m IH | m IH |]; cbn [digits2_pos];
    rewrite ?Pos2Z.inj_succ, ?Z.pow_succ_r by lia; lia.
Qed.

Lemma digits2_below (m : positive) (k : Z) :
  Zpos m < 2 ^ k -> Zpos (digits2_pos m) <= k.
Proof.
  intros H. pose proof (digits2_lower m) as Hlo.
  destruct (Z.le_gt_cases (Zpos (digits2_pos m)) k) as [Hle | Hgt]; [exact Hle |].
  assert (Hpow : 2 ^ k <= 2 ^ (Zpos (digits2_pos m) - 1)) by (apply Z.pow_le_mono_r; lia).
  lia.
Qed.

Lemma Zdigits2_below (m k : Z) : 0 <= m -> m < 2 ^ k -> Zdigits2 m <= k.
Proof.
  intros Hm H. destruct m as [| p | p]; [| apply digits2_below, H | lia].
  cbn [Zdigits2]. destruct (Z.le_gt_cases 0 k) as [Hk | Hk]; [exact Hk |].
  rewrite Z.pow_neg_r in H by lia. lia.
Qed.

Lemma round_nearest_even_le (m : Z) (l : location) : round_nearest_even m l <= m + 1.
Proof.
  unfold round_nearest_even. destruct l as [| []]; try lia.
  destruct (Z.even m); lia.
Qed.

Lemma iter_xO (m d : positive) : Zpos (Pos.iter xO m d) = Zpos m * 2 ^ Zpos d.
Proof.
  induction d as [| d IH] using Pos.peano_ind.
  - simpl. lia.
  - rewrite Pos.iter_succ, Pos2Z.inj_succ, Z.pow_succ_r by lia.
    rewrite Pos2Z.inj_xO, IH. ring.
Qed.

Section NoOverflow.

Variable prec emax : Z.
Hypothesis Hprec : 0 < prec.
Hypothesis Hemax : prec < emax.

(** One shift keeps a mantissa below [2^(K - e)] there. *)
Lemma shr_fexp_below (m e K : Z) (l : location) :
  0 <= m -> m < 2 ^ (K - e) -> e <= K -> 3 - emax - prec <= K ->
  0 <= shr_m (fst (shr_fexp prec emax m e l)) /\
  shr_m (fst (shr_fexp prec emax m e l)) < 2 ^ (K - snd (shr_fexp prec emax m e l)) /\
  snd (shr_fexp prec emax m e l) <= K /\
  snd (shr_fexp prec emax m e l) <= Z.max e (Z.max (K - prec) (3 - emax - prec)).
Proof.
  intros Hm Hlt He Hmin.
  assert (Hd : Zdigits2 m + e <= K) by (pose proof (Zdigits2_below m (K - e) Hm Hlt); lia).
  unfold shr_fexp, shr, SpecFloat.fexp, SpecFloat.emin.
  destruct (Z.max (Zdigits2 m + e - prec) (3 - emax - prec) - e) as [| p | p] eqn:En;
    cbn [fst snd]; rewrite ?shr_record_of_loc_m; try (repeat split; lia).
  rewrite iter_shr_m by (rewrite shr_record_of_loc_m; lia).
  rewrite shr_record_of_loc_m.
  assert (Hk : 0 <= K - (e + Zpos p)) by lia.
  repeat split; try lia.
  - apply Z.div_pos; lia.
  - apply Z.div_lt_upper_bound; [lia |].
    rewrite <- Z.pow_add_r by lia.
    replace (Zpos p + (K - (e + Zpos p))) with (K - e) by lia. exact Hlt.
Qed.

(** A mantissa below [2^(K - e)] rounds to zero or to a finite value below
    [2^(K + 1)]. *)
Lemma binary_round_aux_below (s : bool) (m e K : Z) (l : location) :
  0 <= m -> m < 2 ^ (K - e) -> e <= K -> e <= emax - prec ->
  3 - emax - prec <= K -> K + 1 <= emax ->
  fin_below (K + 1) (binary_round_aux prec emax s m e l).
Proof.
  intros Hm Hlt He Hee Hmin Hmax. unfold binary_round_aux.
  pose proof (shr_fexp_below m e K l Hm Hlt He Hmin) as (H1 & H1lt & H1e & H1b).
  destruct (shr_fexp prec emax m e l) as [r1 e1]. cbn [fst snd] in H1, H1lt, H1e, H1b.
  set (m2 := round_nearest_even (shr_m r1) (loc_of_shr_record r1)).
  assert (Hm2 : 0 <= m2)
    by (pose proof (round_nearest_even_ge (shr_m r1) (loc_of_shr_record r1)); lia).
  assert (Hm2lt : m2 < 2 ^ (K + 1 - e1)).
  { pose proof (round_nearest_even_le (shr_m r1) (loc_of_shr_record r1)) as Hle.
    replace (K + 1 - e1) with (Z.succ (K - e1)) by lia.
    rewrite Z.pow_succ_r by lia. fold m2 in Hle. lia. }
  pose proof (shr_fexp_below m2 e1 (K + 1) loc_Exact Hm2 Hm2lt ltac:(lia) ltac:(lia))
    as (H2 & H2lt & H2e & H2b).
  destruct (shr_fexp prec emax m2 e1 loc_Exact) as [r2 e2].
  cbn [fst snd] in H2, H2lt, H2e, H2b.
  destruct (shr_m r2) as [| q | q]; [exact I | | lia].
  destruct (Z.leb_spec e2 (emax - prec)) as [_ | Hover]; [exact H2lt | lia].
Qed.

Lemma binary_round_below (s : bool) (m : positive) (e K : Z) :
  Zpos m < 2 ^ (K - e) -> 3 - emax - prec <= K -> K + 1 <= emax ->
  fin_below (K + 1) (binary_round prec emax s m e).
Proof.
  intros Hlt Hmin Hmax.
  assert (He : e < K).
  { destruct (Z.lt_ge_cases e K) as [H | H]; [exact H |].
    assert (2 ^ (K - e) <= 1).
    { destruct (Z.eq_dec K e) as [-> | Hne]; [rewrite Z.sub_diag; simpl; lia |].
      rewrite Z.pow_neg_r by lia. lia. }
    lia. }
  pose proof (digits2_below m (K - e) Hlt) as Hd.
  unfold binary_round, shl_align, SpecFloat.fexp, SpecFloat.emin.
  destruct (Z.max (Zpos (digits2_pos m) + e - prec) (3 - emax - prec) - e) as [| p | p] eqn:En.
  - apply binary_round_aux_below; lia.
  - apply binary_round_aux_below; lia.
  - apply binary_round_aux_below; try lia.
    rewrite iter_xO.
    replace (K - Z.max (Zpos (digits2_pos m) + e - prec) (3 - emax - prec))
      with ((K - e) + Zpos p) by lia.
    rewrite Z.pow_add_r by lia.
    apply Z.mul_lt_mono_pos_r; [apply Z.pow_pos_nonneg; lia | exact Hlt].
Qed.

Lemma binary_normalize_below (m e K : Z) (sz : bool) :
  Z.abs m < 2 ^ (K - e) -> 3 - emax - prec <= K -> K + 1 <= emax ->
  fin_below (K + 1) (binary_normalize prec emax m e sz).
Proof.
  intros Hlt Hmin Hmax. unfold binary_normalize.
  destruct m as [| p | p]; [exact I | |]; apply binary_round_below; assumption.
Qed.

Lemma shl_align_below (m : positive) (e ez K : Z) :
  Zpos m < 2 ^ (K - e) -> ez <= e ->
  Zpos (fst (shl_align m e ez)) < 2 ^ (K - ez).
Proof.
  intros Hlt Hle. unfold shl_align.
  assert (He : 0 <= K - e).
  { destruct (Z.le_gt_cases 0 (K - e)) as [H | H]; [exact H |].
    rewrite Z.pow_neg_r in Hlt by lia. lia. }
  destruct (ez - e) as [| p | p] eqn:En; cbn [fst].
  - replace ez with e by lia. exact Hlt.
  - lia.
  - rewrite iter_xO. replace (K - ez) with ((K - e) + Zpos p) by lia.
    rewrite Z.pow_add_r by lia.
    apply Z.mul_lt_mono_pos_r; [apply Z.pow_pos_nonneg; lia | exact Hlt].
Qed.

Lemma fin_below_weaken (K K' : Z) (x : spec_float) :
  K <= K' -> fin_below K x -> fin_below K' x.
Proof.
  intros Hle. destruct x as [s | s | | s m e]; cbn [fin_below]; try tauto.
  intros H. apply Z.lt_le_trans with (1 := H). apply Z.pow_le_mono_r; lia.
Qed.

(** The difference and the sum of two finite values below [2^K]. *)
Lemma SFsub_below (x y : spec_float) (K : Z) :
  fin_below K x -> fin_below K y -> 3 - emax - prec <= K -> K + 2 <= emax ->
  fin_below (K + 2) (SFsub prec emax x y).
Proof.
  intros Hx Hy Hmin Hmax.
  destruct x as [sx | sx | | sx mx ex], y as [sy | sy | | sy my ey];
    cbn [fin_below SFsub] in *; try contradiction.
  - destruct sx, sy; exact I.
  - apply Z.lt_le_trans with (1 := Hy). apply Z.pow_le_mono_r; lia.
  - apply Z.lt_le_trans with (1 := Hx). apply Z.pow_le_mono_r; lia.
  - pose proof (shl_align_below mx ex (Z.min ex ey) K Hx ltac:(lia)) as Hx'.
    pose proof (shl_align_below my ey (Z.min ex ey) K Hy ltac:(lia)) as Hy'.
    replace (K + 2) with (K + 1 + 1) by lia.
    apply binary_normalize_below; try lia.
    replace (K + 1 - Z.min ex ey) with (Z.succ (K - Z.min ex ey)) by lia.
    assert (0 <= K - Z.min ex ey).
    { destruct (Z.le_gt_cases 0 (K - Z.min ex ey)) as [H | H]; [exact H |].
      rewrite Z.pow_neg_r in Hx' by lia. lia. }
    rewrite Z.pow_succ_r by lia.
    assert (Hx0 : 0 < Zpos (fst (shl_align mx ex (Z.min ex ey)))) by lia.
    assert (Hy0 : 0 < Zpos (fst (shl_align my ey (Z.min ex ey)))) by lia.
    generalize dependent (Zpos (fst (shl_align mx ex (Z.min ex ey)))).
    generalize dependent (Zpos (fst (shl_align my ey (Z.min ex ey)))).
    intros b Hb Hb0 a Ha Ha0.
    destruct sx, sy; cbn [cond_Zopp]; lia.
Qed.

Lemma SFadd_below (x y : spec_float) (K : Z) :
  fin_below K x -> fin_below K y -> 3 - emax - prec <= K -> K + 2 <= emax ->
  fin_below (K + 2) (SFadd prec emax x y).
Proof.
  intros Hx Hy Hmin Hmax.
  destruct x as [sx | sx | | sx mx ex], y as [sy | sy | | sy my ey];
    cbn [fin_below SFadd] in *; try contradiction.
  - destruct sx, sy; exact I.
  - apply Z.lt_le_trans with (1 := Hy). apply Z.pow_le_mono_r; lia.
  - apply Z.lt_le_trans with (1 := Hx). apply Z.pow_le_mono_r; lia.
  - pose proof (shl_align_below mx ex (Z.min ex ey) K Hx ltac:(lia)) as Hx'.
    pose proof (shl_align_below my ey (Z.min ex ey) K Hy ltac:(lia)) as Hy'.
    replace (K + 2) with (K + 1 + 1) by lia.
    apply binary_normalize_below; try lia.
    replace (K + 1 - Z.min ex ey) with (Z.succ (K - Z.min ex ey)) by lia.
    assert (0 <= K - Z.min ex ey).
    { destruct (Z.le_gt_cases 0 (K - Z.min ex ey)) as [H | H]; [exact H |].
      rewrite Z.pow_neg_r in Hx' by lia. lia. }
    rewrite Z.pow_succ_r by lia.
    assert (Hx0 : 0 < Zpos (fst (shl_align mx ex (Z.min ex ey)))) by lia.
    assert (Hy0 : 0 < Zpos (fst (shl_align my ey (Z.min ex ey)))) by lia.
    generalize dependent (Zpos (fst (shl_align mx ex (Z.min ex ey)))).
    generalize dependent (Zpos (fst (shl_align my ey (Z.min ex ey)))).
    intros b Hb Hb0 a Ha Ha0.
    destruct sx, sy; cbn [cond_Zopp]; lia.
Qed.

Lemma SFmul_below (x y : spec_float) (Kx Ky : Z) :
  fin_below Kx x -> fin_below Ky y ->
  Kx + Ky <= emax - prec -> 3 - emax - prec <= Kx + Ky ->
  fin_below (Kx + Ky + 1) (SFmul prec emax x y).
Proof.
  intros Hx Hy Hmax Hmin.
  destruct x as [sx | sx | | sx mx ex], y as [sy | sy | | sy my ey];
    cbn [fin_below SFmul] in *; try contradiction; try exact I.
  assert (Hex : 0 < Kx - ex).
  { destruct (Z.lt_ge_cases 0 (Kx - ex)) as [H | H]; [exact H |].
    assert (2 ^ (Kx - ex) <= 1).
    { destruct (Z.eq_dec (Kx - ex) 0) as [-> | Hne]; [simpl; lia |].
      rewrite Z.pow_neg_r by lia. lia. }
    lia. }
  assert (Hey : 0 < Ky - ey).
  { destruct (Z.lt_ge_cases 0 (Ky - ey)) as [H | H]; [exact H |].
    assert (2 ^ (Ky - ey) <= 1).
    { destruct (Z.eq_dec (Ky - ey) 0) as [-> | Hne]; [simpl; lia |].
      rewrite Z.pow_neg_r by lia. lia. }
    lia. }
  apply binary_round_aux_below; try lia.
  replace (Kx + Ky - (ex + ey)) with ((Kx - ex) + (Ky - ey)) by lia.
  rewrite Z.pow_add_r by lia. rewrite Pos2Z.inj_mul.
  apply Z.mul_lt_mono_nonneg; lia.
Qed.

Lemma SFsqrt_below (x : spec_float) (K : Z) :
  fin_below K x -> sign_is false x ->
  0 <= K -> K <= emax - prec -> 3 - emax - prec <= K ->
  fin_below (K + 1) (SFsqrt prec emax x).
Proof.
  intros Hx Hs HK Hmax Hmin.
  destruct x as [sx | sx | | sx m e]; cbn [fin_below sign_is SFsqrt] in *;
    try contradiction; try exact I.
  subst sx. unfold SFsqrt_core_binary. cbv zeta.
  set (e' := Z.min (SpecFloat.fexp prec emax (Z.div2 (Zdigits2 (Zpos m) + e + 1))) (Z.div2 e)).
  assert (He : e < K).
  { destruct (Z.lt_ge_cases e K) as [H | H]; [exact H |].
    assert (2 ^ (K - e) <= 1).
    { destruct (Z.eq_dec (K - e) 0) as [-> | Hne]; [simpl; lia |].
      rewrite Z.pow_neg_r by lia. lia. }
    lia. }
  assert (He' : 2 * e' <= e /\ e' <= K).
  { assert (H2 : Z.div2 e = e / 2) by apply Z.div2_div.
    pose proof (Z.mul_div_le e 2 ltac:(lia)) as Hd.
    assert (He2 : e' <= Z.div2 e) by (unfold e'; lia).
    split; [lia |].
    destruct (Z.le_gt_cases 0 e) as [Hpos | Hneg].
    - assert (e / 2 <= e) by (apply Z.div_le_upper_bound; lia). lia.
    - assert (e / 2 <= 0) by (apply Z.div_le_upper_bound; lia). lia. }
  destruct He' as [He2 HeK].
  set (m' := match e - 2 * e' with
             | 0 => Zpos m
             | Zpos _ => Z.shiftl (Zpos m) (e - 2 * e')
             | Zneg _ => 0
             end).
  assert (Hm' : 0 <= m' /\ m' < 2 ^ (K - 2 * e')).
  { assert (Hm'eq : m' = Zpos m * 2 ^ (e - 2 * e')).
    { unfold m'. destruct (e - 2 * e') as [| p | p] eqn:Es; [simpl; lia | | lia].
      apply Z.shiftl_mul_pow2. lia. }
    rewrite Hm'eq. split; [apply Z.mul_nonneg_nonneg; [lia | apply Z.pow_nonneg; lia] |].
    replace (K - 2 * e') with ((K - e) + (e - 2 * e')) by lia.
    rewrite Z.pow_add_r by lia.
    apply Z.mul_lt_mono_pos_r; [apply Z.pow_pos_nonneg; lia | exact Hx]. }
  destruct Hm' as [Hm'0 Hm'lt].
  pose proof (Z.sqrtrem_spec m' Hm'0) as Hspec.
  destruct (Z.sqrtrem m') as [q r]. destruct Hspec as [Hq Hr].
  apply binary_round_aux_below; try lia.
  assert (HT : 2 ^ (K - 2 * e') <= 2 ^ (K - e') * 2 ^ (K - e')).
  { rewrite <- Z.pow_add_r by lia. apply Z.pow_le_mono_r; lia. }
  assert (HTpos : 0 < 2 ^ (K - e')) by (apply Z.pow_pos_nonneg; lia).
  nia.
Qed.

End NoOverflow.

(** ** Signs of rounded values, in either format *)

Section Signs.

Variable prec emax : Z.

Lemma shr_fexp_m_nonneg (m e : Z) (l : location) :
  0 <= m -> 0 <= shr_m (fst (shr_fexp prec emax m e l)).
Proof.
  intros Hm. unfold shr_fexp, shr.
  destruct (SpecFloat.fexp prec emax (Zdigits2 m + e) - e) as [| p | p];
    cbn [fst]; rewrite ?shr_record_of_loc_m; try lia.
  rewrite iter_shr_m by (rewrite shr_record_of_loc_m; lia).
  rewrite shr_record_of_loc_m. apply Z.div_pos; lia.
Qed.

Lemma binary_round_aux_sign (s : bool) (m e : Z) (l : location) :
  0 <= m -> sign_is s (binary_round_aux prec emax s m e l).
Proof.
  intros Hm. unfold binary_round_aux.
  pose proof (shr_fexp_m_nonneg m e l Hm) as H1.
  destruct (shr_fexp prec emax m e l) as [r1 e1]. cbn [fst] in H1.
  set (m2 := round_nearest_even (shr_m r1) (loc_of_shr_record r1)).
  assert (Hm2 : 0 <= m2)
    by (pose proof (round_nearest_even_ge (shr_m r1) (loc_of_shr_record r1)); lia).
  pose proof (shr_fexp_m_nonneg m2 e1 loc_Exact Hm2) as H2.
  destruct (shr_fexp prec emax m2 e1 loc_Exact) as [r2 e2]. cbn [fst] in H2.
  destruct (shr_m r2) as [| q | q]; [reflexivity | | lia].
  destruct (e2 <=? emax - prec); reflexivity.
Qed.

Lemma binary_round_sign (s : bool) (m : positive) (e : Z) :
  sign_is s (binary_round prec emax s m e).
Proof.
  unfold binary_round. destruct (shl_align m e _) as [mz ez].
  apply binary_round_aux_sign. lia.
Qed.

(** The product of two numbers that are zero or finite. *)
Lemma SFmul_sign (x y : spec_float) (sx sy : bool) (Kx Ky : Z) :
  sign_is sx x -> sign_is sy y -> fin_below Kx x -> fin_below Ky y ->
  sign_is (xorb sx sy) (SFmul prec emax x y).
Proof.
  destruct x as [s1 | s1 | | s1 mx ex], y as [s2 | s2 | | s2 my ey];
    cbn [sign_is fin_below SFmul]; intros; subst; try contradiction; try reflexivity.
  apply binary_round_aux_sign. lia.
Qed.

Lemma SFadd_sign (x y : spec_float) :
  sign_is false x -> sign_is false y -> sign_is false (SFadd prec emax x y).
Proof.
  destruct x as [s1 | s1 | | s1 mx ex], y as [s2 | s2 | | s2 my ey];
    cbn [sign_is SFadd]; intros; subst; try contradiction; try reflexivity.
  cbn [cond_Zopp]. unfold binary_normalize.
  destruct (Zpos _ + Zpos _) as [| p | p] eqn:E; [reflexivity | | lia].
  apply binary_round_sign.
Qed.

Lemma SFsqrt_sign (x : spec_float) :
  sign_is false x -> sign_is false (SFsqrt prec emax x).
Proof.
  destruct x as [s | s | | s m e]; cbn [sign_is SFsqrt]; intros Hx; subst;
    try contradiction; try reflexivity.
  unfold SFsqrt_core_binary. cbv zeta.
  match goal with |- context [Z.sqrtrem ?n] => set (n' := n) end.
  assert (Hn : 0 <= n').
  { subst n'. destruct (e - 2 * _) as [| p | p]; try lia. apply Z.shiftl_nonneg. lia. }
  pose proof (Z.sqrtrem_spec n' Hn) as Hs.
  destruct (Z.sqrtrem n') as [q r]. destruct Hs as [_ Hr].
  apply binary_round_aux_sign. lia.
Qed.

(** A finite value that rounding returns is a value of the format. *)
Lemma binary_round_aux_bounded (s : bool) (m e : Z) (l : location) :
  0 < prec -> prec < emax -> 0 <= m ->
  match binary_round_aux prec emax s m e l with
  | S754_finite _ m' e' => Zpos m' < 2 ^ (emax - e')
  | _ => True
  end.
Proof.
  intros Hprec Hemax Hm. unfold binary_round_aux.
  pose proof (shr_fexp_m_nonneg m e l Hm) as H1.
  destruct (shr_fexp prec emax m e l) as [r1 e1]. cbn [fst] in H1.
  set (m2 := round_nearest_even (shr_m r1) (loc_of_shr_record r1)).
  assert (Hm2 : 0 <= m2)
    by (pose proof (round_nearest_even_ge (shr_m r1) (loc_of_shr_record r1)); lia).
  unfold shr_fexp, shr, SpecFloat.fexp, SpecFloat.emin.
  destruct (Z.max (Zdigits2 m2 + e1 - prec) (3 - emax - prec) - e1) as [| p | p] eqn:En;
    cbn [fst snd]; rewrite ?shr_record_of_loc_m.
  - destruct m2 as [| q | q]; [exact I | | lia].
    destruct (Z.leb_spec e1 (emax - prec)) as [Hle | _]; [| exact I].
    cbn [Zdigits2] in En. pose proof (digits2_upper q) as Hq.
    apply Z.lt_le_trans with (1 := Hq). apply Z.pow_le_mono_r; lia.
  - rewrite iter_shr_m by (rewrite shr_record_of_loc_m; lia).
    rewrite shr_record_of_loc_m.
    destruct (m2 / 2 ^ Zpos p) as [| q | q] eqn:Eq; [exact I | | exact I].
    destruct (Z.leb_spec (e1 + Zpos p) (emax - prec)) as [Hle | _]; [| exact I].
    destruct m2 as [| q2 | q2]; [rewrite Z.div_0_l in Eq by lia; discriminate | | lia].
    cbn [Zdigits2] in En. pose proof (digits2_upper q2) as Hq.
    rewrite <- Eq. apply Z.div_lt_upper_bound; [lia |].
    rewrite <- Z.pow_add_r by lia.
    apply Z.lt_le_trans with (1 := Hq). apply Z.pow_le_mono_r; lia.
  - destruct m2 as [| q | q]; [exact I | | lia].
    destruct (Z.leb_spec e1 (emax - prec)) as [Hle | _]; [| exact I].
    cbn [Zdigits2] in En. pose proof (digits2_upper q) as Hq.
    apply Z.lt_le_trans with (1 := Hq). apply Z.pow_le_mono_r; lia.
Qed.

End Signs.

(** ** The normalization sum in binary32 *)

Lemma forallb_range (P : Z -> bool) (lo hi : Z) :
  forallb P (range lo hi) = true -> forall b, lo <= b < hi -> P b = true.
Proof.
  intros Hall b Hb. rewrite forallb_forall in Hall. apply Hall, in_range, Hb.
Qed.

Lemma unit_fin_nonneg (b : Z) :
  0 <= b < 256 -> b32_fin_nonneg (SFdiv 24 128 (b32_of_Z b) (b32_of_Z 255)).
Proof.
  intros Hb. apply b32_fin_nonnegb_spec. revert b Hb.
  apply forallb_range. vm_compute. reflexivity.
Qed.

Lemma rd_byte (input : list Z) (k : Z) : bytes input -> 0 <= rd input k < 256.
Proof.
  intros Hb. unfold rd.
  destruct (nth_in_or_default (Z.to_nat k) input 0) as [Hin | ->]; [| lia].
  unfold bytes in Hb. rewrite Forall_forall in Hb. apply Hb, Hin.
Qed.

Lemma exp32_contract : exp_contract exp32.
Proof.
  split; [reflexivity | split; [reflexivity |]].
  intros x Hx. destruct x as [s | s | | s m e]; cbn in Hx.
  - subst s. apply b32_fin_nonnegb_spec. reflexivity.
  - subst s. exact I.
  - contradiction.
  - destruct Hx as [-> He]. unfold exp32.
    destruct (8 <? Zpos (digits2_pos m) + e); [exact I |].
    set (v := exp_finite true m e).
    assert (Hv : b32_nonneg v).
    { unfold v, exp_finite, binary_normalize.
      destruct (Z.max 0 _) as [| p | p] eqn:Ep; [reflexivity | | lia].
      apply binary_round_signed. }
    destruct (SFltb b32_one v) eqn:Elt; [apply b32_fin_nonnegb_spec; reflexivity |].
    destruct v as [sv | sv | | sv mv ev]; cbn in Hv.
    + now subst sv.
    + subst sv. discriminate Elt.
    + contradiction.
    + destruct Hv as [-> Hev]. exact Hev.
Qed.

Lemma sample_at_centre {F : Type} {FA : FloatArith F} (input : list Z) (W H x y : Z) :
  0 <= x < W -> 0 <= y < H ->
  sample_at input W H x y 0 0 = rgb_at input W x y.
Proof.
  intros Hx Hy. unfold sample_at.
  replace (Z.min (Z.max (x + 0) 0) (W - 1)) with x by lia.
  replace (Z.min (Z.max (y + 0) 0) (H - 1)) with y by lia.
  reflexivity.
Qed.

Lemma fin_belowb_spec (K : Z) (x : spec_float) : fin_belowb K x = true -> fin_below K x.
Proof.
  destruct x as [s | s | | s m e]; cbn [fin_belowb fin_below]; try discriminate; try tauto.
  intros Hb. apply Z.leb_le in Hb. pose proof (digits2_upper m) as Hm.
  apply Z.lt_le_trans with (1 := Hm). apply Z.pow_le_mono_r; lia.
Qed.

Lemma unit_is_ok (b : Z) :
  0 <= b < 256 -> unit_ok (SFdiv 24 128 (b32_of_Z b) (b32_of_Z 255)).
Proof.
  intros Hb. split; [apply unit_fin_nonneg, Hb |].
  apply fin_belowb_spec. revert b Hb. apply forallb_range. vm_compute. reflexivity.
Qed.

Lemma domain_norm_fin_true :
  forallb (fun i => forallb (fun j =>
     b32_fin_nonnegb (SFsqrt 24 128 (SFadd 24 128 (b32_of_Z (i * i)) (b32_of_Z (j * j)))))
     (range (-2) 3)) (range (-2) 3) = true.
Proof. vm_compute. reflexivity. Qed.

Lemma domain_norm_fin (i j : Z) :
  -2 <= i <= 2 -> -2 <= j <= 2 ->
  b32_fin_nonneg (SFsqrt 24 128 (SFadd 24 128 (b32_of_Z (i * i)) (b32_of_Z (j * j)))).
Proof.
  intros Hi Hj. apply b32_fin_nonnegb_spec.
  pose proof (forallb_range _ (-2) 3 domain_norm_fin_true i ltac:(lia)) as H1.
  cbv beta in H1.
  exact (forallb_range _ (-2) 3 H1 j ltac:(lia)).
Qed.

Lemma fin_below_sign (K : Z) (x : spec_float) : fin_below K x -> exists s, sign_is s x.
Proof.
  destruct x as [s | s | | s m e]; cbn [fin_below sign_is]; try tauto; intros _; now exists s.
Qed.

Lemma b32_fin_nonneg_sign (x : spec_float) : b32_fin_nonneg x -> sign_is false x.
Proof. destruct x as [[] | [] | | [] m e]; cbn; tauto. Qed.

Lemma f_to_d_sign (s : bool) (x : spec_float) : sign_is s x -> sign_is s (f_to_d x).
Proof.
  destruct x as [s' | s' | | s' m e]; cbn [sign_is f_to_d]; try tauto.
  intros ->. unfold binary_normalize. destruct s; cbn [cond_Zopp Z.opp]; apply binary_round_sign.
Qed.

Lemma f_to_d_below (K : Z) (x : spec_float) :
  fin_below K x -> -1074 <= K -> K + 1 <= 1024 -> fin_below (K + 1) (f_to_d x).
Proof.
  destruct x as [s' | s' | | s' m e]; cbn [fin_below f_to_d]; try tauto.
  intros Hx Hmin Hmax. apply binary_normalize_below; try lia.
  destruct s'; cbn [cond_Zopp Z.opp Z.abs]; exact Hx.
Qed.

Lemma d_to_f_nonneg (x : spec_float) : sign_is false x -> b32_nonneg (d_to_f x).
Proof.
  destruct x as [s | s | | s m e]; cbn [sign_is d_to_f]; try tauto;
    intros ->; try reflexivity.
  cbn [cond_Zopp binary_normalize]. apply binary_round_signed.
Qed.

(** A finite quotient is a value of binary32. *)
Lemma SFdiv_bounded (x y : spec_float) :
  match SFdiv 24 128 x y with
  | S754_finite _ m e => Zpos m < 2 ^ (128 - e)
  | _ => True
  end.
Proof.
  destruct x as [sx | sx | | sx mx ex], y as [sy | sy | | sy my ey];
    cbn [SFdiv]; try exact I.
  unfold SFdiv_core_binary. cbv zeta.
  match goal with |- context [Z.div_eucl ?n _] => set (m' := n) end.
  assert (Hm' : 0 <= m').
  { subst m'. destruct (ex - ey - _) as [| p | p]; try lia. apply Z.shiftl_nonneg. lia. }
  pose proof (Z_div_mod m' (Zpos my) ltac:(lia)) as Hdiv.
  destruct (Z.div_eucl m' (Zpos my)) as [q r]. destruct Hdiv as [Hq Hr].
  apply binary_round_aux_bounded; try lia. nia.
Qed.

Lemma b32_one_eq : b32_one = S754_finite false 8388608 (-23).
Proof. reflexivity. Qed.

(** The reciprocal of a positive sigma, when it does not overflow. *)
Lemma reciprocal_ok (sigma : spec_float) :
  SFltb (S754_zero false) sigma = true ->
  SFdiv 24 128 b32_one sigma <> S754_infinity false ->
  b32_fin_nonneg (SFdiv 24 128 b32_one sigma) /\ fin_below 128 (SFdiv 24 128 b32_one sigma).
Proof.
  intros Hpos Hfin.
  pose proof (SFdiv_bounded b32_one sigma) as Hb.
  assert (Hsg : b32_signed false (SFdiv 24 128 b32_one sigma)).
  { rewrite b32_one_eq.
    destruct sigma as [[] | [] | | [] m e]; try discriminate Hpos; [reflexivity |].
    cbn [SFdiv xorb]. unfold SFdiv_core_binary. cbv zeta.
    match goal with |- context [Z.div_eucl ?n _] => set (m' := n) end.
    assert (Hm' : 0 <= m').
    { subst m'. destruct (-23 - e - _) as [| p | p]; try lia. apply Z.shiftl_nonneg. lia. }
    pose proof (Z_div_mod m' (Zpos m) ltac:(lia)) as Hdiv.
    destruct (Z.div_eucl m' (Zpos m)) as [q r]. destruct Hdiv as [Hq Hr].
    apply binary_round_aux_signed. nia. }
  destruct (SFdiv 24 128 b32_one sigma) as [s | s | | s m e]; cbn in Hsg.
  - subst s. split; exact I.
  - subst s. congruence.
  - contradiction.
  - destruct Hsg as [-> He]. split; [exact He | exact Hb].
Qed.

(** The square, at [double], of the difference of two channels. *)
Lemma square_diff_ok (u v : spec_float) :
  unit_ok u -> unit_ok v ->
  sign_is false (SFmul 53 1024 (f_to_d (SFsub 24 128 u v)) (f_to_d (SFsub 24 128 u v))) /\
  fin_below 9 (SFmul 53 1024 (f_to_d (SFsub 24 128 u v)) (f_to_d (SFsub 24 128 u v))).
Proof.
  intros [_ Hu] [_ Hv].
  assert (Hd : fin_below 3 (SFsub 24 128 u v))
    by (apply (SFsub_below 24 128 ltac:(lia) ltac:(lia) u v 1); assumption || lia).
  assert (Hdd : fin_below 4 (f_to_d (SFsub 24 128 u v)))
    by (apply (f_to_d_below 3); assumption || lia).
  destruct (fin_below_sign _ _ Hd) as [s Hs].
  apply f_to_d_sign in Hs.
  split.
  - replace false with (xorb s s) by (now destruct s).
    apply (SFmul_sign 53 1024 _ _ s s 4 4); assumption.
  - apply (SFmul_below 53 1024 ltac:(lia) ltac:(lia) _ _ 4 4); assumption || lia.
Qed.

(** The norm of line 351 is a number and is not negative. *)
Lemma range_norm_nonneg (c s : spec_float * spec_float * spec_float) (recip : spec_float) :
  rgb_ok c -> rgb_ok s -> b32_fin_nonneg recip -> fin_below 128 recip ->
  let '(cr, cg, cb) := c in
  let '(r, g, b) := s in
  b32_nonneg
    (d_to_f (SFmul 53 1024
               (SFsqrt 53 1024
                  (SFadd 53 1024
                     (SFadd 53 1024
                        (SFmul 53 1024 (f_to_d (SFsub 24 128 r cr)) (f_to_d (SFsub 24 128 r cr)))
                        (SFmul 53 1024 (f_to_d (SFsub 24 128 g cg)) (f_to_d (SFsub 24 128 g cg))))
                     (SFmul 53 1024 (f_to_d (SFsub 24 128 b cb)) (f_to_d (SFsub 24 128 b cb)))))
               (f_to_d recip))).
Proof.
  destruct c as [[cr cg] cb], s as [[r g] b].
  intros (Hcr & Hcg & Hcb) (Hr & Hg & Hb) Hrec Hrecb.
  destruct (square_diff_ok r cr Hr Hcr) as [S1 B1].
  destruct (square_diff_ok g cg Hg Hcg) as [S2 B2].
  destruct (square_diff_ok b cb Hb Hcb) as [S3 B3].
  set (q1 := SFmul 53 1024 (f_to_d (SFsub 24 128 r cr)) (f_to_d (SFsub 24 128 r cr))) in *.
  set (q2 := SFmul 53 1024 (f_to_d (SFsub 24 128 g cg)) (f_to_d (SFsub 24 128 g cg))) in *.
  set (q3 := SFmul 53 1024 (f_to_d (SFsub 24 128 b cb)) (f_to_d (SFsub 24 128 b cb))) in *.
  assert (S12 : sign_is false (SFadd 53 1024 q1 q2)) by (apply SFadd_sign; assumption).
  assert (B12 : fin_below 11 (SFadd 53 1024 q1 q2))
    by (apply (SFadd_below 53 1024 ltac:(lia) ltac:(lia) q1 q2 9); assumption || lia).
  assert (S123 : sign_is false (SFadd 53 1024 (SFadd 53 1024 q1 q2) q3))
    by (apply SFadd_sign; assumption).
  assert (B123 : fin_below 13 (SFadd 53 1024 (SFadd 53 1024 q1 q2) q3)).
  { apply (SFadd_below 53 1024 ltac:(lia) ltac:(lia) _ q3 11); try lia; try assumption.
    apply (fin_below_weaken 9 11); [lia | exact B3]. }
  apply d_to_f_nonneg.
  change false with (xorb false false).
  apply (SFmul_sign 53 1024 _ _ false false 14 129).
  - apply SFsqrt_sign, S123.
  - apply f_to_d_sign, b32_fin_nonneg_sign, Hrec.
  - apply (SFsqrt_below 53 1024 ltac:(lia) ltac:(lia) _ 13); assumption || lia.
  - apply (f_to_d_below 128); assumption || lia.
Qed.

Section B32Filter.

Variable e32 : spec_float -> spec_float.
Hypothesis He32 : exp_contract e32.
Variable sigmaDomain sigmaRange : spec_float.
Hypothesis Hsd : b32_fin_nonneg (SFdiv 24 128 b32_one sigmaDomain).
Hypothesis Hsr : b32_fin_nonneg (SFdiv 24 128 b32_one sigmaRange).
Hypothesis Hsrb : fin_below 128 (SFdiv 24 128 b32_one sigmaRange).

Lemma b32_gauss (n : spec_float) :
  b32_nonneg n ->
  b32_fin_nonneg (e32 (SFmul 24 128 b32_neg_half (SFmul 24 128 n n))).
Proof.
  intros Hn. apply He32, SFmul_neg_half, SFmul_self_nonneg.
  exact (b32_signed_num false n Hn).
Qed.

Lemma b32_weight_nonneg (i j : Z) (c s : spec_float * spec_float * spec_float) :
  -2 <= i <= 2 -> -2 <= j <= 2 -> rgb_ok c -> rgb_ok s ->
  b32_nonneg (weight_of (FA := B32 e32) sigmaDomain sigmaRange i j c s).
Proof.
  intros Hi Hj Hc Hs.
  pose proof (range_norm_nonneg c s _ Hc Hs Hsr Hsrb) as Hrange.
  destruct c as [[cr cg] cb], s as [[r g] b].
  unfold weight_of.
  cbn [fadd fsub fmul fdiv fsqrt fexp fneg_half of_int
       to_double dpow2 dadd dmul dsqrt to_float B32].
  change (b32_of_Z 1) with b32_one.
  apply SFmul_fin_nonneg; apply b32_gauss.
  - apply SFmul_fin_nonneg; [apply domain_norm_fin; assumption | exact Hsd].
  - exact Hrange.
Qed.

Lemma b32_weight_centre (c : spec_float * spec_float * spec_float) :
  rgb_ok c ->
  weight_of (FA := B32 e32) sigmaDomain sigmaRange 0 0 c c = b32_one.
Proof.
  intros Hc. destruct c as [[cr cg] cb]. destruct Hc as ([Hcr _] & [Hcg _] & [Hcb _]).
  unfold weight_of.
  cbn [fadd fsub fmul fdiv fsqrt fexp fneg_half of_int
       to_double dpow2 dadd dmul dsqrt to_float B32].
  rewrite !SFsub_diag by assumption.
  change (b32_of_Z 1) with b32_one.
  pose proof (f_to_d_sign false _ (b32_fin_nonneg_sign _ Hsr)) as Hrs.
  pose proof (f_to_d_below 128 _ Hsrb ltac:(lia) ltac:(lia)) as Hrb.
  destruct (f_to_d (SFdiv 24 128 b32_one sigmaRange)) as [sr | sr | | sr mr er];
    cbn [sign_is fin_below] in Hrs, Hrb; try contradiction; subst sr.
  all: destruct (SFdiv 24 128 b32_one sigmaDomain) as [[] | [] | | [] md ed];
    try contradiction.
  all: cbn; destruct He32 as (Hzero & _); rewrite !Hzero; reflexivity.
Qed.

End B32Filter.

(** When a reciprocal [1.f/sigma] is infinite the centre weight is a NaN. *)
Lemma b32_weight_centre_nan (e32 : spec_float -> spec_float)
      (sigmaDomain sigmaRange : spec_float) (c : spec_float * spec_float * spec_float) :
  exp_contract e32 ->
  (exists s, SFdiv 24 128 b32_one sigmaDomain = S754_infinity s) \/
  (exists s, SFdiv 24 128 b32_one sigmaRange = S754_infinity s) ->
  rgb_ok c ->
  weight_of (FA := B32 e32) sigmaDomain sigmaRange 0 0 c c = S754_nan.
Proof.
  intros He32 Hinf Hc. destruct c as [[cr cg] cb].
  destruct Hc as ([Hcr _] & [Hcg _] & [Hcb _]).
  destruct He32 as (Hzero & Hnan & _).
  unfold weight_of.
  cbn [fadd fsub fmul fdiv fsqrt fexp fneg_half of_int
       to_double dpow2 dadd dmul dsqrt to_float B32].
  rewrite !SFsub_diag by assumption.
  change (b32_of_Z 1) with b32_one.
  destruct Hinf as [[s ->] | [s ->]].
  - cbn. now rewrite Hnan.
  - cbn. rewrite Hnan.
    match goal with |- SFmul _ _ ?w _ = _ => now destruct w end.
Qed.

Section B32Sums.

Variable e32 : spec_float -> spec_float.
Hypothesis He32 : exp_contract e32.
Variable sigmaDomain sigmaRange : spec_float.
Variable input : list Z.
Variable W H : Z.
Hypothesis Hbytes : bytes input.

Lemma b32_rgb_at_ok (px py : Z) : rgb_ok (rgb_at (FA := B32 e32) input W px py).
Proof.
  unfold rgb_at, unit_of. cbn [fdiv of_int B32 rgb_ok].
  repeat split; try apply unit_fin_nonneg; try apply unit_is_ok; apply rd_byte, Hbytes.
Qed.

Lemma b32_sample_at_ok (x y i j : Z) :
  rgb_ok (sample_at (FA := B32 e32) input W H x y i j).
Proof. unfold sample_at. apply b32_rgb_at_ok. Qed.

Lemma step_nonneg (w : spec_float) (s : spec_float * spec_float * spec_float)
      (a : acc (F := spec_float)) :
  b32_nonneg (coeff a) -> b32_nonneg w ->
  b32_nonneg (coeff (accumulate (FA := B32 e32) w s a)).
Proof. intros Ha Hw. rewrite coeff_accumulate. now apply SFadd_nonneg. Qed.

Lemma step_pos (w : spec_float) (s : spec_float * spec_float * spec_float)
      (a : acc (F := spec_float)) :
  b32_pos (coeff a) -> b32_nonneg w ->
  b32_pos (coeff (accumulate (FA := B32 e32) w s a)).
Proof. intros Ha Hw. rewrite coeff_accumulate. now apply SFadd_pos_l. Qed.

Lemma step_centre (s : spec_float * spec_float * spec_float)
      (a : acc (F := spec_float)) :
  b32_nonneg (coeff a) ->
  b32_pos (coeff (accumulate (FA := B32 e32) b32_one s a)).
Proof.
  intros Ha. rewrite coeff_accumulate. apply SFadd_pos_r; [exact Ha |].
  cbn. lia.
Qed.

Lemma step_nan (w : spec_float) (s : spec_float * spec_float * spec_float)
      (a : acc (F := spec_float)) :
  coeff a = S754_nan -> coeff (accumulate (FA := B32 e32) w s a) = S754_nan.
Proof. intros Ha. rewrite coeff_accumulate, Ha. reflexivity. Qed.

Lemma step_centre_nan (s : spec_float * spec_float * spec_float)
      (a : acc (F := spec_float)) :
  coeff (accumulate (FA := B32 e32) S754_nan s a) = S754_nan.
Proof. rewrite coeff_accumulate. cbn. now destruct (coeff a). Qed.

(** With reciprocals that are finite and not negative the sum of the
    weights is positive. *)
Lemma b32_coeff_pos (x y : Z) :
  b32_fin_nonneg (SFdiv 24 128 b32_one sigmaDomain) ->
  b32_fin_nonneg (SFdiv 24 128 b32_one sigmaRange) ->
  fin_below 128 (SFdiv 24 128 b32_one sigmaRange) ->
  0 <= x < W -> 0 <= y < H ->
  b32_pos (coeff (sums_at (FA := B32 e32) sigmaDomain sigmaRange input W H x y)).
Proof.
  intros Hsd Hsr Hsrb Hx Hy. unfold sums_at.
  change (range (-2) 3) with [-2; -1; 0; 1; 2]. cbn [fold_left].
  do 12 (apply step_pos;
         [| apply b32_weight_nonneg;
            first [assumption | lia | apply b32_rgb_at_ok | apply b32_sample_at_ok]]).
  rewrite sample_at_centre by assumption.
  rewrite b32_weight_centre by (assumption || apply b32_rgb_at_ok).
  apply step_centre.
  do 12 (apply step_nonneg;
         [| apply b32_weight_nonneg;
            first [assumption | lia | apply b32_rgb_at_ok | apply b32_sample_at_ok]]).
  reflexivity.
Qed.

(** With an infinite reciprocal the sum of the weights is a NaN. *)
Lemma b32_coeff_nan (x y : Z) :
  (exists s, SFdiv 24 128 b32_one sigmaDomain = S754_infinity s) \/
  (exists s, SFdiv 24 128 b32_one sigmaRange = S754_infinity s) ->
  0 <= x < W -> 0 <= y < H ->
  coeff (sums_at (FA := B32 e32) sigmaDomain sigmaRange input W H x y) = S754_nan.
Proof.
  intros Hinf Hx Hy. unfold sums_at.
  change (range (-2) 3) with [-2; -1; 0; 1; 2]. cbn [fold_left].
  do 12 apply step_nan.
  rewrite sample_at_centre by assumption.
  rewrite b32_weight_centre_nan by (assumption || apply b32_rgb_at_ok).
  apply step_centre_nan.
Qed.

End B32Sums.

(** C5, as the arithmetic has it: on every well-formed image of bytes and
    for all sigmas that are above zero (infinity included) and whose
    reciprocals [1.f/sigmaDomain] and [1.f/sigmaRange] do not overflow, the
    sums of each pixel are computed, the centre sample weighs exactly 1 and
    the normalization sum is strictly positive, so the division by it is not
    a division by zero or by a NaN; when a reciprocal is infinite, as it is
    for a sigma of zero, the centre weight is 0 times infinity, a NaN, and
    so is the normalization sum. *)
Theorem normalization_sum_positive
        (e32 : spec_float -> spec_float) (sigmaDomain sigmaRange : spec_float)
        (input : list Z) (W H x y : Z) (o : list Z) :
  exp_contract e32 -> image_ok input W H -> bytes input ->
  0 <= x < W -> 0 <= y < H ->
  exists a,
    Runs (pixel_sums (FA := B32 e32) sigmaDomain sigmaRange input W H x y) o a o /\
    (SFltb (S754_zero false) sigmaDomain = true ->
     SFltb (S754_zero false) sigmaRange = true ->
     SFdiv 24 128 b32_one sigmaDomain <> S754_infinity false ->
     SFdiv 24 128 b32_one sigmaRange <> S754_infinity false ->
     weight_of (FA := B32 e32) sigmaDomain sigmaRange 0 0
               (rgb_at (FA := B32 e32) input W x y)
               (sample_at (FA := B32 e32) input W H x y 0 0) = b32_one /\
     b32_pos (coeff a) /\ SFltb (S754_zero false) (coeff a) = true) /\
    ((exists s, SFdiv 24 128 b32_one sigmaDomain = S754_infinity s) \/
     (exists s, SFdiv 24 128 b32_one sigmaRange = S754_infinity s) ->
     coeff a = S754_nan) /\
    ((exists s, sigmaDomain = S754_zero s) \/ (exists s, sigmaRange = S754_zero s) ->
     coeff a = S754_nan).
Proof.
  intros He32 Hok Hbytes Hx Hy. eexists. split; [| split; [| split]].
  - apply Runs_pixel_sums; assumption.
  - intros Hd Hr Hdf Hrf.
    destruct (reciprocal_ok sigmaDomain Hd Hdf) as [Hsd _].
    destruct (reciprocal_ok sigmaRange Hr Hrf) as [Hsr Hsrb].
    pose proof (b32_coeff_pos e32 He32 sigmaDomain sigmaRange input W H Hbytes x y
                  Hsd Hsr Hsrb Hx Hy) as Hpos.
    split; [| split; [exact Hpos | apply b32_pos_ltb, Hpos]].
    rewrite sample_at_centre by assumption.
    apply b32_weight_centre; try assumption. apply b32_rgb_at_ok, Hbytes.
  - intros Hinf. apply b32_coeff_nan; assumption.
  - intros Hzero. apply b32_coeff_nan; try assumption.
    destruct Hzero as [[s ->] | [s ->]]; [left | right]; exists s; now destruct s.
Qed.

(** C5, counterexample: [sigmaDomain] the least positive binary32 value,
    2^-149.  It is positive, yet [1.f/sigmaDomain] overflows and the
    normalization sum of the one pixel of a 1x1 image is a NaN, which is not
    above zero. *)
Lemma normalization_sum_nan_for_tiny_sigma :
  exists a m',
    valid_binary 24 128 (S754_finite false 1 (-149)) = true /\
    SFltb (S754_zero false) (S754_finite false 1 (-149)) = true /\
    SFltb (S754_zero false) sigmaRange_default = true /\
    pixel_sums (FA := B32 exp32) (S754_finite false 1 (-149)) sigmaRange_default
               [10; 20; 30; 255] 1 1 0 0 {| outbuf := [0; 0; 0; 0]; trace := [] |}
    = Some (a, m') /\
    coeff a = S754_nan /\
    SFltb (S754_zero false) (coeff a) = false.
Proof.
  eexists. eexists.
  split; [reflexivity |]. split; [reflexivity |]. split; [reflexivity |].
  split; [vm_compute; reflexivity |]. split; reflexivity.
Qed.

Lemma normalization_sum_positive_witness :
  exp_contract exp32 /\ image_ok [10; 20; 30; 255] 1 1 /\ bytes [10; 20; 30; 255] /\
  SFltb (S754_zero false) (S754_infinity false) = true /\
  SFltb (S754_zero false) sigmaRange_default = true /\
  SFdiv 24 128 b32_one (S754_infinity false) <> S754_infinity false /\
  SFdiv 24 128 b32_one sigmaRange_default <> S754_infinity false /\
  exists a,
    Runs (pixel_sums (FA := B32 exp32) (S754_infinity false) sigmaRange_default
                     [10; 20; 30; 255] 1 1 0 0) [0; 0; 0; 0] a [0; 0; 0; 0] /\
    SFltb (S754_zero false) (coeff a) = true.
Proof.
  assert (Hb : bytes [10; 20; 30; 255]) by (repeat constructor; lia).
  assert (H1 : SFdiv 24 128 b32_one (S754_infinity false) <> S754_infinity false)
    by (vm_compute; discriminate).
  assert (H2 : SFdiv 24 128 b32_one sigmaRange_default <> S754_infinity false)
    by (vm_compute; discriminate).
  split; [exact exp32_contract |]. split; [apply image_ok_1x1 |]. split; [exact Hb |].
  split; [reflexivity |]. split; [reflexivity |]. split; [exact H1 |]. split; [exact H2 |].
  destruct (normalization_sum_positive exp32 (S754_infinity false) sigmaRange_default
              [10; 20; 30; 255] 1 1 0 0 [0; 0; 0; 0]
              exp32_contract (image_ok_1x1 _ _ _ _) Hb ltac:(lia) ltac:(lia))
    as (a & Hrun & Hpos & _).
  exists a. split; [exact Hrun |].
  exact (proj2 (proj2 (Hpos eq_refl eq_refl H1 H2))).
Defined.

(** ** The filter on a flat 2x2 image, in binary32 with the default sigmas *)

Lemma uniform_image_ok (g a : Z) : image_ok (uniform 4 g a) 2 2.
Proof. unfold image_ok. simpl. lia. Qed.

Lemma uniform_rgb_at (g a px py : Z) :
  0 <= px < 2 -> 0 <= py < 2 ->
  rgb_at (FA := B32 exp32) (uniform 4 g a) 2 px py
  = (SFdiv 24 128 (b32_of_Z g) (b32_of_Z 255),
     SFdiv 24 128 (b32_of_Z g) (b32_of_Z 255),
     SFdiv 24 128 (b32_of_Z g) (b32_of_Z 255)).
Proof.
  intros Hx Hy.
  assert (Hpx : px = 0 \/ px = 1) by lia. assert (Hpy : py = 0 \/ py = 1) by lia.
  destruct Hpx as [-> | ->], Hpy as [-> | ->]; reflexivity.
Qed.

Lemma uniform_sample_at (g a x y i j : Z) :
  sample_at (FA := B32 exp32) (uniform 4 g a) 2 2 x y i j
  = (SFdiv 24 128 (b32_of_Z g) (b32_of_Z 255),
     SFdiv 24 128 (b32_of_Z g) (b32_of_Z 255),
     SFdiv 24 128 (b32_of_Z g) (b32_of_Z 255)).
Proof. unfold sample_at. apply uniform_rgb_at; lia. Qed.

Lemma flat_weight_of (u : spec_float) (i j : Z) :
  b32_fin_nonneg u ->
  weight_of (FA := B32 exp32) sigmaDomain_default sigmaRange_default i j (u, u, u) (u, u, u)
  = weight_of (FA := B32 exp32) sigmaDomain_default sigmaRange_default i j
              (b32_zero, b32_zero, b32_zero) (b32_zero, b32_zero, b32_zero).
Proof.
  intros Hu. unfold weight_of. cbn [fsub B32].
  rewrite !(SFsub_diag u) by assumption.
  rewrite !(SFsub_diag b32_zero) by exact I. reflexivity.
Qed.

Lemma uniform_sums (g a x y : Z) :
  0 <= g < 256 -> 0 <= x < 2 -> 0 <= y < 2 ->
  let u := SFdiv 24 128 (b32_of_Z g) (b32_of_Z 255) in
  let s := fold_left (fun s w => SFadd 24 128 s (SFmul 24 128 w u)) flat_weights
                     (b32_of_Z 0) in
  let acc := sums_at (FA := B32 exp32) sigmaDomain_default sigmaRange_default
                     (uniform 4 g a) 2 2 x y in
  coeff acc = fold_left (SFadd 24 128) flat_weights (b32_of_Z 0) /\
  sr acc = s /\ sg acc = s /\ sb acc = s.
Proof.
  intros Hg Hx Hy u s acc. subst s acc. unfold sums_at.
  change (range (-2) 3) with [-2; -1; 0; 1; 2]. cbn [fold_left].
  rewrite !uniform_sample_at, uniform_rgb_at by lia. fold u.
  rewrite !(flat_weight_of u) by (apply unit_fin_nonneg; lia).
  unfold flat_weights, loop_offsets. cbn [flat_map map app fold_left].
  split; [| split; [| split]].
  - rewrite !coeff_accumulate. reflexivity.
  - rewrite !sr_accumulate. reflexivity.
  - rewrite !sg_accumulate. reflexivity.
  - rewrite !sb_accumulate. reflexivity.
Qed.

Lemma uniform_pixel_bytes (g a x y : Z) :
  0 <= g < 256 -> 0 <= x < 2 -> 0 <= y < 2 ->
  pixel_bytes (FA := B32 exp32) sigmaDomain_default sigmaRange_default
              (uniform 4 g a) 2 2 x y
  = [flat_byte g; flat_byte g; flat_byte g; a].
Proof.
  intros Hg Hx Hy. unfold pixel_bytes. cbv zeta.
  destruct (uniform_sums g a x y Hg Hx Hy) as (-> & -> & -> & ->).
  assert (Halpha : rd (uniform 4 g a) ((x + y * 2) * 4 + 3) = a).
  { assert (Hpx : x = 0 \/ x = 1) by lia. assert (Hpy : y = 0 \/ y = 1) by lia.
    destruct Hpx as [-> | ->], Hpy as [-> | ->]; reflexivity. }
  rewrite Halpha. unfold flat_byte, flat_byte_with. cbv zeta. reflexivity.
Qed.

Lemma flat_within_one_true :
  forallb (fun g => (flat_byte g =? g) || (flat_byte g =? g - 1)) (range 0 256) = true.
Proof. vm_compute. reflexivity. Qed.

Lemma flat_byte_within_one (g : Z) :
  0 <= g < 256 -> flat_byte g = g \/ flat_byte g = g - 1.
Proof.
  intros Hg. pose proof (forallb_range _ 0 256 flat_within_one_true g Hg) as Hb.
  cbv beta in Hb. apply orb_true_iff in Hb.
  destruct Hb as [Hb | Hb]; apply Z.eqb_eq in Hb; [left | right]; exact Hb.
Qed.

(** C7, as binary32 has it: for a 2x2 image whose pixels all hold the same
    grey value [g] and the same alpha [a], with sigmaDomain = 3 and
    sigmaRange = 0.2, the reference filter leaves a flat image again, with
    the same alpha, whose grey value is [g] or [g - 1]. *)
Theorem flat_region_within_one (g a : Z) (o : list Z) :
  0 <= g < 256 -> length o = 16%nat ->
  exists o' u,
    Runs (runReference (FA := B32 exp32) sigmaDomain_default sigmaRange_default
                       (uniform 4 g a) 2 2) o tt o' /\
    o' = uniform 4 u a /\ (u = g \/ u = g - 1).
Proof.
  intros Hg Ho. eexists. exists (flat_byte g). split; [| split].
  - apply runReference_runs; [apply uniform_image_ok | exact Ho].
  - unfold filtered. change (range 0 2) with [0; 1]. cbn [flat_map app].
    rewrite !uniform_pixel_bytes by lia. reflexivity.
  - apply flat_byte_within_one, Hg.
Qed.

(** C7, counterexample: the 2x2 image of grey value 89 comes out with grey
    value 88: the output is not the input. *)
Lemma flat_region_changes_grey_89 :
  exists m',
    runReference (FA := B32 exp32) sigmaDomain_default sigmaRange_default
                 (uniform 4 89 255) 2 2 {| outbuf := repeat 0 16; trace := [] |}
    = Some (tt, m') /\
    outbuf m' = uniform 4 88 255 /\
    outbuf m' <> uniform 4 89 255.
Proof.
  eexists. split; [vm_compute; reflexivity |].
  split; [reflexivity | discriminate].
Qed.

Lemma flat_region_within_one_witness :
  0 <= 89 < 256 /\
  exists o' u,
    Runs (runReference (FA := B32 exp32) sigmaDomain_default sigmaRange_default
                       (uniform 4 89 255) 2 2) (repeat 0 16) tt o' /\
    o' = uniform 4 u 255 /\ (u = 89 \/ u = 89 - 1).
Proof.
  split; [lia |].
  exact (flat_region_within_one 89 255 (repeat 0 16) ltac:(lia) eq_refl).
Defined.

(** ** The formula of the specification on a flat image *)

Lemma Rsum_scale (f : Z * Z -> R) (u : R) (l : list (Z * Z)) :
  Rsum (map (fun p => (f p * u)%R) l) = (Rsum (map f l) * u)%R.
Proof.
  induction l as [| p l IH]; simpl; [ring |]. rewrite IH. ring.
Qed.

Lemma Rsum_positive (f : Z * Z -> R) (l : list (Z * Z)) :
  l <> [] -> (forall p, (0 < f p)%R) -> (0 < Rsum (map f l))%R.
Proof.
  intros Hne Hf. destruct l as [| p l]; [congruence |]. clear Hne. simpl.
  assert (Hrest : (0 <= Rsum (map f l))%R).
  { induction l as [| q l IH]; simpl; [lra |]. pose proof (Hf q). lra. }
  pose proof (Hf p). lra.
Qed.

Lemma Int_part_IZR (z : Z) : Int_part (IZR z) = z.
Proof.
  destruct (base_Int_part (IZR z)) as [Hle Hgt].
  apply le_IZR in Hle.
  assert (H : (IZR (z - 1) < IZR (Int_part (IZR z)))%R) by (rewrite minus_IZR; lra).
  apply lt_IZR in H. lia.
Qed.

Lemma uniform_sample (g a c x y i j : Z) :
  0 <= c < 3 ->
  sample (uniform 4 g a) 2 2 c x y i j = (IZR g / 255)%R.
Proof.
  intros Hc. unfold sample, channel, normalized, clamp_to.
  assert (Hcx : forall v, (if v <? 0 then 0 else if 2 - 1 <? v then 2 - 1 else v) = 0
                          \/ (if v <? 0 then 0 else if 2 - 1 <? v then 2 - 1 else v) = 1).
  { intros v. destruct (Z.ltb_spec v 0); [tauto |].
    destruct (Z.ltb_spec (2 - 1) v); [tauto | lia]. }
  assert (Hcc : c = 0 \/ c = 1 \/ c = 2) by lia.
  destruct (Hcx (x + i)) as [-> | ->], (Hcx (y + j)) as [-> | ->],
           Hcc as [-> | [-> | ->]]; reflexivity.
Qed.

(** The formula of the specification, over the reals, on a flat image. *)
Lemma flat_output_channel (sigmaDomain sigmaRange : R) (g a c x y : Z) :
  0 <= g < 256 -> 0 <= c < 3 ->
  output_channel sigmaDomain sigmaRange (uniform 4 g a) 2 2 c x y = g.
Proof.
  intros Hg Hc. unfold output_channel, weighted_mean.
  set (w := fun p : Z * Z =>
              let '(i, j) := p in weight sigmaDomain sigmaRange (uniform 4 g a) 2 2 x y i j).
  assert (Hsum : Rsum (map (fun '(i, j) =>
                              (weight sigmaDomain sigmaRange (uniform 4 g a) 2 2 x y i j
                               * sample (uniform 4 g a) 2 2 c x y i j)%R) offsets)
                 = (Rsum (map w offsets) * (IZR g / 255))%R).
  { rewrite <- Rsum_scale. f_equal. apply map_ext.
    intros [i j]. unfold w. now rewrite uniform_sample. }
  assert (Hw : (0 < Rsum (map w offsets))%R).
  { apply Rsum_positive; [discriminate |]. intros [i j]. unfold w, weight.
    apply Rmult_lt_0_compat; apply exp_pos. }
  change (map (fun '(i, j) => weight sigmaDomain sigmaRange (uniform 4 g a) 2 2 x y i j)
              offsets) with (map w offsets).
  rewrite Hsum.
  replace (Rsum (map w offsets) * (IZR g / 255) / Rsum (map w offsets))%R
    with (IZR g / 255)%R by (field; lra).
  assert (Hu : (0 <= IZR g / 255 <= 1)%R).
  { assert (H0 : (IZR 0 <= IZR g)%R) by (apply IZR_le; lia).
    assert (H1 : (IZR g <= IZR 255)%R) by (apply IZR_le; lia).
    simpl in H0, H1. split; [apply Rmult_le_pos; lra |].
    apply Rmult_le_reg_r with 255%R; [lra |]. unfold Rdiv.
    rewrite Rmult_assoc, Rinv_l by lra. lra. }
  rewrite Rmax_left, Rmin_left by lra.
  replace (IZR g / 255 * 255)%R with (IZR g) by (field; lra).
  apply Int_part_IZR.
Qed.

(** C1, counterexample: the flat 2x2 image of grey value 89 with the
    default sigmas, 3 and the [float] nearest to 0.2.  The formula of the
    specification gives 89 for the first byte; the filter writes 88. *)
Lemma reference_formula_rounds_below_at_grey_89 :
  sigmaDomain_default = S754_finite false 12582912 (-22) /\
  sigmaRange_default = S754_finite false 13421773 (-26) /\
  output_channel (12582912 / 2 ^ 22) (13421773 / 2 ^ 26) (uniform 4 89 255) 2 2 0 0 0 = 89 /\
  exists m',
    runReference (FA := B32 exp32) sigmaDomain_default sigmaRange_default
                 (uniform 4 89 255) 2 2 {| outbuf := repeat 0 16; trace := [] |}
    = Some (tt, m') /\
    nth 0 (outbuf m') 0 = 88.
Proof.
  split; [reflexivity |]. split; [reflexivity |].
  split; [apply flat_output_channel; lia |].
  eexists. split; [vm_compute; reflexivity | reflexivity].
Qed.

(** ** Further properties *)

(** X1: on every well-formed image, in every arithmetic, [runReference]
    returns: no read leaves the input buffer, no write leaves the output
    buffer, and the output buffer keeps its length. *)
Theorem runReference_memory_safe {F : Type} {FA : FloatArith F}
        (sigmaDomain sigmaRange : F) (input : list Z) (W H : Z) (m : mem) :
  image_ok input W H -> length (outbuf m) = Z.to_nat (W * H * 4) ->
  exists m',
    runReference sigmaDomain sigmaRange input W H m = Some (tt, m') /\
    length (outbuf m') = length (outbuf m).
Proof.
  intros Hok Ho. destruct m as [o tr]. cbn [outbuf] in *.
  destruct (runReference_runs sigmaDomain sigmaRange input W H Hok o Ho tr) as [tr' E].
  eexists. split; [exact E |]. cbn [outbuf].
  now rewrite filtered_length, Ho.
Qed.

Lemma runReference_memory_safe_witness :
  image_ok [10; 20; 30; 255] 1 1 /\
  exists m',
    runReference (FA := B32 exp32) sigmaDomain_default sigmaRange_default
                 [10; 20; 30; 255] 1 1 {| outbuf := [0; 0; 0; 0]; trace := [] |}
    = Some (tt, m') /\
    length (outbuf m') = 4%nat.
Proof.
  split; [apply image_ok_1x1 |].
  exact (runReference_memory_safe (FA := B32 exp32) sigmaDomain_default sigmaRange_default
           [10; 20; 30; 255] 1 1 {| outbuf := [0; 0; 0; 0]; trace := [] |}
           (image_ok_1x1 _ _ _ _) eq_refl).
Defined.

(** ** The command line *)

Section CommandLineFacts.

Variable strtod : String.string -> spec_float * nat.
Variable parseUInt : String.string -> option Z.
Variable devices : list String.string.

Lemma args_ind (P : list String.string -> Prop) :
  (forall args, (forall rest, (length rest < length args)%nat -> P rest) -> P args) ->
  forall args, P args.
Proof.
  intros Hstep.
  assert (H : forall n args, (length args < n)%nat -> P args).
  { induction n as [| n IH]; intros args Hlen; [lia |].
    apply Hstep. intros rest Hrest. apply IH. lia. }
  intros args. apply (H (S (length args))). lia.
Qed.

(** Accepted arguments are consumed option by option, so what follows them
    is processed from the state they leave. *)
Lemma parse_loop_app (xs ys : list String.string) :
  forall s s1, parse_loop strtod parseUInt devices xs s = (Returns tt, s1) ->
    parse_loop strtod parseUInt devices (xs ++ ys) s
    = parse_loop strtod parseUInt devices ys s1.
Proof.
  induction xs as [xs IH] using args_ind. intros s s1 Hxs.
  destruct xs as [| a rest]; [now inversion Hxs |].
  cbn [parse_loop app] in *.
  destruct (String.eqb a "--list"); [discriminate |].
  destruct (String.eqb a "--device").
  { destruct rest as [| v rest]; [discriminate |]. cbn [app].
    destruct (parseUInt v); [| discriminate].
    apply IH; [simpl; lia | exact Hxs]. }
  destruct (String.eqb a "--image").
  { destruct rest as [| v rest]; [discriminate |]. cbn [app].
    apply IH; [simpl; lia | exact Hxs]. }
  destruct (String.eqb a "--iterations" || String.eqb a "-i").
  { destruct rest as [| v rest]; [discriminate |]. cbn [app].
    destruct (parseUInt v); [| discriminate].
    apply IH; [simpl; lia | exact Hxs]. }
  destruct (String.eqb a "--sd").
  { destruct rest as [| v rest]; [discriminate |]. cbn [app].
    destruct (parseFloat strtod v) as [ok x]. destruct (ok =? 0); [discriminate |].
    apply IH; [simpl; lia | exact Hxs]. }
  destruct (String.eqb a "--sr").
  { destruct rest as [| v rest]; [discriminate |]. cbn [app].
    destruct (parseFloat strtod v) as [ok x]. destruct (ok =? 0); [discriminate |].
    apply IH; [simpl; lia | exact Hxs]. }
  destruct (String.eqb a "--wgsize").
  { destruct rest as [| v rest]; [discriminate |]. cbn [app].
    destruct (parseUInt v); [| discriminate].
    destruct rest as [| v' rest]; [discriminate |]. cbn [app].
    destruct (parseUInt v'); [| discriminate].
    apply IH; [simpl; lia | exact Hxs]. }
  destruct (String.eqb a "--help" || String.eqb a "-h"); discriminate.
Qed.

(** One turn of the loop: the branch taken at [a], with what [H] says of
    the run in each branch. *)
Ltac parse_cases a rest H :=
  cbn [parse_loop] in H;
  let v := fresh "v" in
  let v' := fresh "v'" in
  let ok := fresh "ok" in
  let x := fresh "x" in
  let n := fresh "n" in
  let n' := fresh "n'" in
  destruct (String.eqb a "--list") eqn:Elist;
  [| destruct (String.eqb a "--device") eqn:Edevice;
     [ destruct rest as [| v rest]; [| destruct (parseUInt v) as [n |] eqn:En]
     | destruct (String.eqb a "--image") eqn:Eimage;
       [ destruct rest as [| v rest]
       | destruct (String.eqb a "--iterations" || String.eqb a "-i") eqn:Eiter;
         [ destruct rest as [| v rest]; [| destruct (parseUInt v) as [n |] eqn:En]
         | destruct (String.eqb a "--sd") eqn:Esd;
           [ destruct rest as [| v rest];
             [| destruct (parseFloat strtod v) as [ok x] eqn:Ex;
                destruct (ok =? 0) eqn:Eok]
           | destruct (String.eqb a "--sr") eqn:Esr;
             [ destruct rest as [| v rest];
               [| destruct (parseFloat strtod v) as [ok x] eqn:Ex;
                  destruct (ok =? 0) eqn:Eok]
             | destruct (String.eqb a "--wgsize") eqn:Ewg;
               [ destruct rest as [| v rest];
                 [| destruct (parseUInt v) as [n |] eqn:En;
                    [ destruct rest as [| v' rest];
                      [| destruct (parseUInt v') as [n' |] eqn:En'] |] ]
               | destruct (String.eqb a "--help" || String.eqb a "-h") eqn:Ehelp ] ] ] ] ] ] ].

Ltac simpl_globals :=
  cbn [tolerance deviceIndex iterations sigmaDomain sigmaRange wgsize inputFile
       set_deviceIndex set_iterations set_sigmaDomain set_sigmaRange set_wgsize
       set_inputFile] in *.

Ltac names_clash :=
  repeat match goal with
         | E : String.eqb _ _ = true |- _ => apply String.eqb_eq in E
         | E : (_ || _) = true |- _ => apply orb_true_iff in E; destruct E
         end;
  subst; exfalso;
  match goal with Hn : ~ In _ _ |- _ => apply Hn; left; reflexivity end.

Ltac frame_goal :=
  first
    [ assumption
    | match goal with
      | D : ~ In _ _ -> _ = _ |- _ =>
          apply D; intros ?;
          match goal with Hn : ~ In _ _ |- _ => apply Hn; simpl; solve [auto 6] end
      | D : ~ In _ _ -> ~ In _ _ -> _ = _ |- _ =>
          apply D; intros ?;
          match goal with Hn : ~ In _ _ |- _ => apply Hn; simpl; solve [auto 6] end
      end
    | names_clash ].

Lemma parse_loop_frame (args : list String.string) :
  forall s r s',
    parse_loop strtod parseUInt devices args s = (r, s') ->
    tolerance (vars s') = tolerance (vars s) /\
    (~ In "--device" args -> deviceIndex (vars s') = deviceIndex (vars s)) /\
    (~ In "--iterations" args -> ~ In "-i" args ->
     iterations (vars s') = iterations (vars s)) /\
    (~ In "--sd" args -> sigmaDomain (vars s') = sigmaDomain (vars s)) /\
    (~ In "--sr" args -> sigmaRange (vars s') = sigmaRange (vars s)) /\
    (~ In "--wgsize" args -> wgsize (vars s') = wgsize (vars s)) /\
    (~ In "--image" args -> inputFile (vars s') = inputFile (vars s)).
Proof.
  induction args as [args IH] using args_ind. intros s r s' H.
  destruct args as [| a rest]; [inversion H; subst; tauto |].
  parse_cases a rest H; unfold invalid in H;
    lazymatch type of H with
    | (Exits _, _) = _ =>
        inversion H; subst; clear H IH; cbn [vars say assign]; simpl_globals;
        repeat split; intros; first [reflexivity | names_clash]
    | _ =>
        apply IH in H; [| simpl; lia]; clear IH;
        destruct H as (T & D & I & SD & SR & W & F);
        cbn [vars say assign] in T, D, I, SD, SR, W, F; simpl_globals;
        repeat split; intros; frame_goal
    end.
Qed.

Lemma device_list_nonempty : device_list devices <> [].
Proof. unfold device_list. destruct (length devices =? 0)%nat; discriminate. Qed.

Lemma parse_loop_exit (args : list String.string) :
  forall s r s',
    parse_loop strtod parseUInt devices args s = (r, s') ->
    exists out,
      cout s' = cout s ++ out /\
      match r with
      | Returns _ => out = []
      | Exits status =>
          out <> [] /\
          ((status = 0 /\ (In "--list" args \/ In "--help" args \/ In "-h" args))
           \/ status = 1)
      end.
Proof.
  induction args as [args IH] using args_ind. intros s r s' H.
  destruct args as [| a rest].
  { inversion H; subst. exists []. now rewrite app_nil_r. }
  parse_cases a rest H; unfold invalid in H;
    lazymatch type of H with
    | (Exits _, _) = _ =>
        inversion H; subst; clear H; cbn [say cout assign];
        eexists; (split; [reflexivity |]);
        (split; [first [discriminate | apply device_list_nonempty] |]);
        first [now right | left; split; [reflexivity |]]
    | _ =>
        apply IH in H; [| simpl; lia]; clear IH;
        destruct H as (out & Hout & Hr); cbn [say cout assign] in Hout;
        exists out; split; [exact Hout |];
        destruct r as [u | status]; [exact Hr |];
        destruct Hr as [Hne [[H0 Hin] | H1]]; (split; [exact Hne |]);
        [left; split; [exact H0 |]; destruct Hin as [Hin | [Hin | Hin]]; simpl; auto 8
        | now right]
    end.
  - apply String.eqb_eq in Elist. subst. left. now left.
  - apply orb_true_iff in Ehelp. destruct Ehelp as [E | E];
      apply String.eqb_eq in E; subst; [right; left | right; right]; now left.
Qed.

Lemma parse_loop_missing_value (opt : String.string) (s : pstate) :
  In opt ["--device"; "--image"; "--iterations"; "-i"; "--sd"; "--sr"; "--wgsize"] ->
  exists msg, parse_loop strtod parseUInt devices [opt] s = (Exits 1, say [Text msg; Endl] s).
Proof.
  intros Hin. simpl in Hin.
  repeat (destruct Hin as [<- | Hin]; [eexists; reflexivity |]).
  destruct Hin.
Qed.

Lemma parse_loop_deviceIndex (args : list String.string) :
  (forall str v, parseUInt str = Some v -> 0 <= v) ->
  forall s r s',
    parse_loop strtod parseUInt devices args s = (r, s') ->
    0 <= deviceIndex (vars s) -> 0 <= deviceIndex (vars s').
Proof.
  intros Hpos. induction args as [args IH] using args_ind. intros s r s' H Hs.
  destruct args as [| a rest]; [now inversion H; subst |].
  parse_cases a rest H; unfold invalid in H;
    lazymatch type of H with
    | (Exits _, _) = _ => inversion H; subst; exact Hs
    | _ => apply IH in H; [exact H | simpl; lia | cbn; eauto]
    end.
Qed.

End CommandLineFacts.

Lemma decimal_uint_nonneg (str : String.string) (v : Z) :
  decimal_uint str = Some v -> 0 <= v.
Proof.
  unfold decimal_uint. destruct (digits_from 0 0 str) as [d n].
  destruct ((0 <? n)%nat && (n =? String.length str)%nat); [| discriminate].
  intros E. inversion E. apply Z.mod_pos_bound. reflexivity.
Qed.

(** X2: the arguments are processed from left to right, an option at a
    time.  When the arguments [xs] are accepted, processing [xs] followed by
    [ys] is processing [ys] from the globals [xs] left: a later option
    overrides an earlier one, and an error in [ys] is found only after [xs]
    has taken effect. *)
Theorem parseArguments_app (strtod : String.string -> spec_float * nat)
        (parseUInt : String.string -> option Z) (devices : list String.string)
        (prog prog' : String.string) (xs ys : list String.string) (s s1 : pstate) :
  parseArguments strtod parseUInt devices (prog :: xs) s = (Returns tt, s1) ->
  parseArguments strtod parseUInt devices (prog :: xs ++ ys) s
  = parseArguments strtod parseUInt devices (prog' :: ys) s1.
Proof. unfold parseArguments. cbn [tl]. apply parse_loop_app. Qed.

Lemma parseArguments_app_witness :
  parseArguments decimal_double decimal_uint [] ["bilateral"; "--sd"; "2"] pstate0
  = (Returns tt, assign (set_sigmaDomain (b32_of_Z 2)) pstate0) /\
  parseArguments decimal_double decimal_uint []
                 ("bilateral" :: ["--sd"; "2"] ++ ["--sd"; "5"; "-i"; "7"]) pstate0
  = (Returns tt,
     assign (set_iterations 7) (assign (set_sigmaDomain (b32_of_Z 5)) pstate0)).
Proof.
  split; [vm_compute; reflexivity |].
  rewrite (parseArguments_app decimal_double decimal_uint [] "bilateral" "bilateral"
             ["--sd"; "2"] ["--sd"; "5"; "-i"; "7"] pstate0
             (assign (set_sigmaDomain (b32_of_Z 2)) pstate0));
    vm_compute; reflexivity.
Defined.

(** X3: what [parseArguments] can change.  Whatever the arguments and
    however the call ends, [tolerance] keeps its value (no option names it),
    and each of the other globals keeps its value unless the name of its
    option occurs among the arguments. *)
Theorem parseArguments_frame (strtod : String.string -> spec_float * nat)
        (parseUInt : String.string -> option Z) (devices : list String.string)
        (argv : list String.string) (s s' : pstate) (r : flow unit) :
  parseArguments strtod parseUInt devices argv s = (r, s') ->
  tolerance (vars s') = tolerance (vars s) /\
  (~ In "--device" (tl argv) -> deviceIndex (vars s') = deviceIndex (vars s)) /\
  (~ In "--iterations" (tl argv) -> ~ In "-i" (tl argv) ->
   iterations (vars s') = iterations (vars s)) /\
  (~ In "--sd" (tl argv) -> sigmaDomain (vars s') = sigmaDomain (vars s)) /\
  (~ In "--sr" (tl argv) -> sigmaRange (vars s') = sigmaRange (vars s)) /\
  (~ In "--wgsize" (tl argv) -> wgsize (vars s') = wgsize (vars s)) /\
  (~ In "--image" (tl argv) -> inputFile (vars s') = inputFile (vars s)).
Proof. unfold parseArguments. apply parse_loop_frame. Qed.

Lemma parseArguments_frame_witness :
  parseArguments decimal_double decimal_uint [] ["bilateral"; "--sd"; "2"; "--fast"] pstate0
  = (Exits 1, say [Text "Unrecognized argument '"; Text "--fast"; Text "' (try '--help')"; Endl]
                  (assign (set_sigmaDomain (b32_of_Z 2)) pstate0)) /\
  tolerance (vars (say [Text "Unrecognized argument '"; Text "--fast";
                        Text "' (try '--help')"; Endl]
                       (assign (set_sigmaDomain (b32_of_Z 2)) pstate0))) = 1.
Proof.
  assert (E : parseArguments decimal_double decimal_uint []
                ["bilateral"; "--sd"; "2"; "--fast"] pstate0
              = (Exits 1, say [Text "Unrecognized argument '"; Text "--fast";
                               Text "' (try '--help')"; Endl]
                              (assign (set_sigmaDomain (b32_of_Z 2)) pstate0)))
    by (vm_compute; reflexivity).
  split; [exact E |].
  exact (proj1 (parseArguments_frame decimal_double decimal_uint [] _ _ _ _ E)).
Defined.

(** X4: how [parseArguments] ends.  It prints nothing when it returns.  When
    it ends the process it has printed something, and the status is 0 or 1;
    it is 0 only when [--list], [--help] or [-h] is among the arguments. *)
Theorem parseArguments_exit_status (strtod : String.string -> spec_float * nat)
        (parseUInt : String.string -> option Z) (devices : list String.string)
        (argv : list String.string) (s s' : pstate) (r : flow unit) :
  parseArguments strtod parseUInt devices argv s = (r, s') ->
  exists out,
    cout s' = cout s ++ out /\
    match r with
    | Returns _ => out = []
    | Exits status =>
        out <> [] /\
        ((status = 0 /\
          (In "--list" (tl argv) \/ In "--help" (tl argv) \/ In "-h" (tl argv)))
         \/ status = 1)
    end.
Proof. unfold parseArguments. apply parse_loop_exit. Qed.

Lemma parseArguments_exit_status_witness :
  parseArguments decimal_double decimal_uint [] ["bilateral"; "--image"; "--help"; "-h"] pstate0
  = (Exits 0, say usage (assign (set_inputFile "--help") pstate0)) /\
  exists out,
    cout (say usage (assign (set_inputFile "--help") pstate0)) = cout pstate0 ++ out /\
    out <> [].
Proof.
  assert (E : parseArguments decimal_double decimal_uint []
                ["bilateral"; "--image"; "--help"; "-h"] pstate0
              = (Exits 0, say usage (assign (set_inputFile "--help") pstate0)))
    by (vm_compute; reflexivity).
  split; [exact E |].
  destruct (parseArguments_exit_status decimal_double decimal_uint [] _ _ _ _ E)
    as (out & Hout & Hne & _).
  exists out. split; [exact Hout | exact Hne].
Defined.

(** X5: a missing value.  After accepted arguments [xs], each of the options
    that take a value, met as the last argument, ends the process with
    status 1 and one line of text, the globals being as [xs] left them; so
    does [--wgsize] followed by a width alone. *)
Theorem parseArguments_missing_value (strtod : String.string -> spec_float * nat)
        (parseUInt : String.string -> option Z) (devices : list String.string)
        (prog opt : String.string) (xs : list String.string) (s s1 : pstate) :
  parseArguments strtod parseUInt devices (prog :: xs) s = (Returns tt, s1) ->
  (In opt ["--device"; "--image"; "--iterations"; "-i"; "--sd"; "--sr"; "--wgsize"] ->
   exists msg,
     parseArguments strtod parseUInt devices (prog :: xs ++ [opt]) s
     = (Exits 1, say [Text msg; Endl] s1)) /\
  (forall v width, parseUInt v = Some width ->
     parseArguments strtod parseUInt devices (prog :: xs ++ ["--wgsize"; v]) s
     = (Exits 1, say [Text "Invalid work-group height"; Endl] s1)).
Proof.
  unfold parseArguments. cbn [tl]. intros Hxs. split.
  - intros Hin. destruct (parse_loop_missing_value strtod parseUInt devices opt s1 Hin)
      as [msg Hmsg].
    exists msg. now rewrite (parse_loop_app _ _ _ _ _ _ _ Hxs).
  - intros v width Hv. rewrite (parse_loop_app _ _ _ _ _ _ _ Hxs).
    cbn [parse_loop]. cbn. now rewrite Hv.
Qed.

Lemma parseArguments_missing_value_witness :
  parseArguments decimal_double decimal_uint [] ["bilateral"; "-i"; "7"] pstate0
  = (Returns tt, assign (set_iterations 7) pstate0) /\
  parseArguments decimal_double decimal_uint [] ("bilateral" :: ["-i"; "7"] ++ ["--wgsize"; "16"])
                 pstate0
  = (Exits 1, say [Text "Invalid work-group height"; Endl] (assign (set_iterations 7) pstate0)).
Proof.
  assert (E : parseArguments decimal_double decimal_uint [] ["bilateral"; "-i"; "7"] pstate0
              = (Returns tt, assign (set_iterations 7) pstate0))
    by (vm_compute; reflexivity).
  split; [exact E |].
  exact (proj2 (parseArguments_missing_value decimal_double decimal_uint [] "bilateral"
                  "--wgsize" ["-i"; "7"] pstate0 _ E) "16" 16 eq_refl).
Defined.

(** X6: [parseFloat] accepts the empty string.  Its test is that nothing is
    left after what [strtod] has read, and nothing is left of an empty
    string; so [--sd] followed by an empty argument is accepted, and
    [sigmaDomain] becomes what [strtod] returns for it (for the C library,
    zero), with no check of the range. *)
Theorem parseFloat_accepts_empty (strtod : String.string -> spec_float * nat)
        (parseUInt : String.string -> option Z) (devices : list String.string)
        (prog : String.string) (s : pstate) :
  fst (parseFloat strtod String.EmptyString) = 1 /\
  parseArguments strtod parseUInt devices [prog; "--sd"; String.EmptyString] s
  = (Returns tt, assign (set_sigmaDomain (d_to_f (fst (strtod String.EmptyString)))) s).
Proof.
  assert (Hadv : forall n, advance n String.EmptyString = String.EmptyString)
    by (intros [| n]; reflexivity).
  assert (Hpf : parseFloat strtod String.EmptyString
                = (1, d_to_f (fst (strtod String.EmptyString))))
    by (unfold parseFloat; destruct (strtod String.EmptyString) as [v n]; now rewrite Hadv).
  split; [now rewrite Hpf |].
  unfold parseArguments. cbn [tl parse_loop String.eqb Ascii.eqb Bool.eqb orb].
  now rewrite Hpf.
Qed.


Lemma index_nth_error {A : Type} (l : list A) (k : Z) :
  0 <= k -> index l k = nth_error l (Z.to_nat k).
Proof.
  intros Hk. unfold index. destruct (Z.ltb_spec k 0); [lia | reflexivity].
Qed.

(** X7: the device index is checked before it is used.  With the index an
    [unsigned], lines 38-55 of [main] never subscript [devices] outside the
    vector: either the process ends, or the device chosen is the one at
    [deviceIndex], which is below the number of devices; and with no device
    at all the process always ends there. *)
Theorem select_device_in_range (strtod : String.string -> spec_float * nat)
        (parseUInt : String.string -> option Z) (devices : list String.string)
        (argv : list String.string) (s : pstate) :
  (forall str v, parseUInt str = Some v -> 0 <= v) ->
  0 <= deviceIndex (vars s) ->
  exists r s',
    select_device strtod parseUInt devices argv s = Some (r, s') /\
    (forall name, r = Returns name ->
       0 <= deviceIndex (vars s') < Z.of_nat (length devices) /\
       nth_error devices (Z.to_nat (deviceIndex (vars s'))) = Some name) /\
    (devices = [] -> exists status, r = Exits status).
Proof.
  intros Hpos Hs. unfold select_device.
  destruct (parseArguments strtod parseUInt devices argv s) as [[u | status] s1] eqn:E.
  - unfold parseArguments in E.
    apply parse_loop_deviceIndex in E; [| exact Hpos | exact Hs].
    destruct (Z.leb_spec (Z.of_nat (length devices)) (deviceIndex (vars s1))) as [Hge | Hlt].
    + eexists. eexists. split; [reflexivity |]. split; [discriminate | eauto].
    + rewrite index_nth_error by exact E.
      destruct (nth_error devices (Z.to_nat (deviceIndex (vars s1)))) as [name |] eqn:En.
      * eexists. eexists. split; [reflexivity |]. split.
        -- intros name' Hr. inversion Hr; subst. cbn [vars say]. split; [lia | exact En].
        -- intros ->. simpl in Hlt. lia.
      * apply nth_error_None in En. lia.
  - eexists. eexists. split; [reflexivity |]. split; [discriminate | eauto].
Qed.

Lemma select_device_in_range_witness :
  (forall str v, decimal_uint str = Some v -> 0 <= v) /\
  0 <= deviceIndex (vars pstate0) /\
  exists r s',
    select_device decimal_double decimal_uint ["cpu"; "gpu"] ["bilateral"; "--device"; "2"] pstate0
    = Some (r, s') /\
    r = Exits 1.
Proof.
  split; [exact decimal_uint_nonneg |]. split; [simpl; lia |].
  destruct (select_device_in_range decimal_double decimal_uint ["cpu"; "gpu"]
              ["bilateral"; "--device"; "2"] pstate0 decimal_uint_nonneg ltac:(simpl; lia))
    as (r & s' & Hrun & _).
  exists r, s'. split; [exact Hrun |].
  vm_compute in Hrun. inversion Hrun. reflexivity.
Defined.

(** ** The verdict of the verification *)

Lemma filter_nil_iff {A : Type} (p : A -> bool) (l : list A) :
  filter p l = [] <-> forall t, In t l -> p t = false.
Proof.
  split.
  - intros Hnil t Hin. destruct (p t) eqn:Ept; [| reflexivity].
    assert (Hf : In t (filter p l)) by (apply filter_In; now split).
    rewrite Hnil in Hf. destruct Hf.
  - apply filter_none.
Qed.

Lemma mismatches_nil_iff (result reference : list Z) (w h tolerance : Z) :
  mismatches result reference w h tolerance = [] <->
  forall x y c, 0 <= x < w -> 0 <= y < h -> 0 <= c < 3 ->
    Z.abs (nth (Z.to_nat ((x + y * w) * 4 + c)) reference 0
           - nth (Z.to_nat ((x + y * w) * 4 + c)) result 0) <= tolerance.
Proof.
  unfold mismatches. rewrite filter_nil_iff. split.
  - intros Hall x y c Hx Hy Hc.
    specialize (Hall (y, x, c)). cbv beta iota in Hall. unfold mismatch in Hall.
    apply Z.ltb_ge, Hall. rewrite !in_prod_iff, !in_range. lia.
  - intros Hall [[y x] c] Hin. rewrite !in_prod_iff, !in_range in Hin.
    unfold mismatch. apply Z.ltb_ge, Hall; lia.
Qed.

(** X8: the verdict of the verification loop.  On two well-formed images of
    the same size the loop prints the success line, and nothing else,
    exactly when every R, G and B byte of the result is within the tolerance
    of the byte of the reference; in every other case the text starts with
    the failure header, and [errors] is not zero. *)
Theorem verify_passes_iff (result reference : list Z) (w h tolerance : Z) :
  image_ok result w h -> image_ok reference w h ->
  exists st,
    verify result reference w h tolerance vstate0 = Some (tt, st) /\
    (console st = [Verification_passed] <->
     forall x y c, 0 <= x < w -> 0 <= y < h -> 0 <= c < 3 ->
       Z.abs (nth (Z.to_nat ((x + y * w) * 4 + c)) reference 0
              - nth (Z.to_nat ((x + y * w) * 4 + c)) result 0) <= tolerance) /\
    (console st <> [Verification_passed] ->
     hd_error (console st) = Some Verification_failed /\ errors st <> 0).
Proof.
  intros Hres Href. eexists. split; [apply verify_runs; assumption |].
  cbn [console errors]. rewrite <- mismatches_nil_iff.
  destruct (mismatches result reference w h tolerance) as [| t ms] eqn:Ems.
  - split; [tauto |]. intros Hne. now contradiction Hne.
  - replace (length (t :: ms) =? 0)%nat with false by reflexivity.
    split; [split; discriminate |]. intros _. split; [reflexivity |].
    cbn [length]. lia.
Qed.

Lemma verify_passes_iff_witness :
  image_ok [10; 20; 30; 255] 1 1 /\ image_ok [10; 21; 30; 0] 1 1 /\
  exists st,
    verify [10; 20; 30; 255] [10; 21; 30; 0] 1 1 1 vstate0 = Some (tt, st) /\
    console st = [Verification_passed].
Proof.
  split; [apply image_ok_1x1 | split; [apply image_ok_1x1 |]].
  destruct (verify_passes_iff [10; 20; 30; 255] [10; 21; 30; 0] 1 1 1
              (image_ok_1x1 _ _ _ _) (image_ok_1x1 _ _ _ _)) as (st & Hrun & Hiff & _).
  exists st. split; [exact Hrun |].
  apply Hiff. intros x y c Hx Hy Hc.
  assert (x = 0) by lia. assert (y = 0) by lia.
  assert (Hcc : c = 0 \/ c = 1 \/ c = 2) by lia. subst x y.
  destruct Hcc as [-> | [-> | ->]]; simpl; lia.
Defined.

(** ** What an output pixel depends on *)

Lemma filtered_formula {F : Type} {FA : FloatArith F}
      (sigmaDomain sigmaRange : F) (input : list Z) (W H x y c : Z) :
  image_ok input W H -> 0 <= x < W -> 0 <= y < H -> 0 <= c < 3 ->
  nth (Z.to_nat ((x + y * W) * 4 + c)) (filtered sigmaDomain sigmaRange input W H) 0
  = fl_output_channel sigmaDomain sigmaRange input W H c x y.
Proof.
  intros Hok Hx Hy Hc. rewrite filtered_nth by (assumption || lia).
  unfold pixel_bytes, fl_output_channel, fl_weighted_mean.
  destruct (sums_at_formula sigmaDomain sigmaRange input W H ltac:(lia) ltac:(lia) x y)
    as (Ec & Er & Eg & Eb).
  cbv zeta in Ec, Er, Eg, Eb.
  assert (Hcases : c = 0 \/ c = 1 \/ c = 2) by lia.
  destruct Hcases as [-> | [-> | ->]];
    [change (Z.to_nat 0) with 0%nat | change (Z.to_nat 1) with 1%nat
     | change (Z.to_nat 2) with 2%nat];
    cbn [nth]; unfold quantize; rewrite Ec; [rewrite Er | rewrite Eg | rewrite Eb];
    reflexivity.
Qed.

Lemma in_loop_offsets (i j : Z) :
  In (i, j) loop_offsets -> -2 <= i <= 2 /\ -2 <= j <= 2.
Proof.
  unfold loop_offsets. cbn [flat_map map app In].
  intros Hin. repeat (destruct Hin as [Hin | Hin]; [inversion Hin; lia |]). destruct Hin.
Qed.

Section Locality.

Context {F : Type} {FA : FloatArith F}.
Variable sigmaDomain sigmaRange : F.
Variable W H x y : Z.
Hypothesis Hx : 0 <= x < W.
Hypothesis Hy : 0 <= y < H.

Lemma fl_channel_centre (input : list Z) (c : Z) :
  fl_channel input W c x y = fl_sample input W H c x y 0 0.
Proof.
  unfold fl_sample.
  assert (HW : 0 < W) by lia. assert (HH : 0 < H) by lia.
  destruct (clamp_to_spec W (x + 0) HW) as (_ & Ex & _).
  destruct (clamp_to_spec H (y + 0) HH) as (_ & Ey & _).
  rewrite Ex, Ey by lia. now rewrite !Z.add_0_r.
Qed.

(** The byte of the formula is a function of the 25 samples. *)
Lemma fl_output_channel_ext (input1 input2 : list Z) (c : Z) :
  (forall c' i j, 0 <= c' < 3 -> -2 <= i <= 2 -> -2 <= j <= 2 ->
     fl_sample input1 W H c' x y i j = fl_sample input2 W H c' x y i j) ->
  0 <= c < 3 ->
  fl_output_channel sigmaDomain sigmaRange input1 W H c x y
  = fl_output_channel sigmaDomain sigmaRange input2 W H c x y.
Proof.
  intros Hsame Hc.
  assert (Hw : forall i j, -2 <= i <= 2 -> -2 <= j <= 2 ->
             fl_weight sigmaDomain sigmaRange input1 W H x y i j
             = fl_weight sigmaDomain sigmaRange input2 W H x y i j).
  { intros i j Hi Hj. unfold fl_weight, fl_range_weight, fl_colour_distance.
    rewrite !fl_channel_centre.
    rewrite !(Hsame _ i j) by lia. rewrite !(Hsame _ 0 0) by lia. reflexivity. }
  assert (E1 : map (fun '(i, j) =>
                      fmul (fl_weight sigmaDomain sigmaRange input1 W H x y i j)
                           (fl_sample input1 W H c x y i j)) loop_offsets
               = map (fun '(i, j) =>
                        fmul (fl_weight sigmaDomain sigmaRange input2 W H x y i j)
                             (fl_sample input2 W H c x y i j)) loop_offsets).
  { apply map_ext_in. intros [i j] Hin. apply in_loop_offsets in Hin.
    rewrite Hw, Hsame by lia. reflexivity. }
  assert (E2 : map (fun '(i, j) => fl_weight sigmaDomain sigmaRange input1 W H x y i j)
                   loop_offsets
               = map (fun '(i, j) => fl_weight sigmaDomain sigmaRange input2 W H x y i j)
                     loop_offsets).
  { apply map_ext_in. intros [i j] Hin. apply in_loop_offsets in Hin. apply Hw; lia. }
  unfold fl_output_channel, fl_weighted_mean. rewrite E1, E2. reflexivity.
Qed.

End Locality.

(** X9: an output pixel depends on its window alone.  When two
    well-formed images of the same size hold the same R, G and B bytes at
    the 25 clamped sample positions of pixel [(x, y)], the filter writes the
    same R, G and B bytes for this pixel in both, in every arithmetic and
    for all sigmas: the bytes of pixels outside the window and every alpha
    byte are without influence. *)
Theorem filter_local {F : Type} {FA : FloatArith F}
        (sigmaDomain sigmaRange : F) (input1 input2 : list Z) (W H x y : Z)
        (o1 o2 : list Z) :
  image_ok input1 W H -> image_ok input2 W H ->
  0 <= x < W -> 0 <= y < H ->
  length o1 = Z.to_nat (W * H * 4) -> length o2 = Z.to_nat (W * H * 4) ->
  (forall c i j, 0 <= c < 3 -> -2 <= i <= 2 -> -2 <= j <= 2 ->
     nth (Z.to_nat ((clamp_to W (x + i) + clamp_to H (y + j) * W) * 4 + c)) input1 0
     = nth (Z.to_nat ((clamp_to W (x + i) + clamp_to H (y + j) * W) * 4 + c)) input2 0) ->
  exists o1' o2',
    Runs (runReference sigmaDomain sigmaRange input1 W H) o1 tt o1' /\
    Runs (runReference sigmaDomain sigmaRange input2 W H) o2 tt o2' /\
    forall c, 0 <= c < 3 ->
      nth (Z.to_nat ((x + y * W) * 4 + c)) o1' 0
      = nth (Z.to_nat ((x + y * W) * 4 + c)) o2' 0.
Proof.
  intros Hok1 Hok2 Hx Hy Ho1 Ho2 Hsame.
  eexists. eexists. split; [apply runReference_runs; assumption |].
  split; [apply runReference_runs; assumption |].
  intros c Hc. rewrite !filtered_formula by assumption.
  apply fl_output_channel_ext; try assumption.
  intros c' i j Hc' Hi Hj. unfold fl_sample, fl_channel. now rewrite Hsame.
Qed.

Lemma filter_local_witness :
  image_ok [10; 20; 30; 255] 1 1 /\ image_ok [10; 20; 30; 7] 1 1 /\
  exists o1' o2',
    Runs (runReference (FA := B32 exp32) sigmaDomain_default sigmaRange_default
                       [10; 20; 30; 255] 1 1) [0; 0; 0; 0] tt o1' /\
    Runs (runReference (FA := B32 exp32) sigmaDomain_default sigmaRange_default
                       [10; 20; 30; 7] 1 1) [0; 0; 0; 0] tt o2' /\
    nth 0 o1' 0 = nth 0 o2' 0.
Proof.
  split; [apply image_ok_1x1 | split; [apply image_ok_1x1 |]].
  assert (Hsame : forall c i j, 0 <= c < 3 -> -2 <= i <= 2 -> -2 <= j <= 2 ->
            nth (Z.to_nat ((clamp_to 1 (0 + i) + clamp_to 1 (0 + j) * 1) * 4 + c))
                [10; 20; 30; 255] 0
            = nth (Z.to_nat ((clamp_to 1 (0 + i) + clamp_to 1 (0 + j) * 1) * 4 + c))
                  [10; 20; 30; 7] 0).
  { intros c i j Hc Hi Hj.
    assert (Ei : clamp_to 1 (0 + i) = 0)
      by (pose proof (clamp_to_spec 1 (0 + i) ltac:(lia)); lia).
    assert (Ej : clamp_to 1 (0 + j) = 0)
      by (pose proof (clamp_to_spec 1 (0 + j) ltac:(lia)); lia).
    rewrite Ei, Ej.
    assert (Hcc : c = 0 \/ c = 1 \/ c = 2) by lia.
    destruct Hcc as [-> | [-> | ->]]; reflexivity. }
  destruct (filter_local (FA := B32 exp32) sigmaDomain_default sigmaRange_default
              [10; 20; 30; 255] [10; 20; 30; 7] 1 1 0 0 [0; 0; 0; 0] [0; 0; 0; 0]
              (image_ok_1x1 _ _ _ _) (image_ok_1x1 _ _ _ _)
              ltac:(lia) ltac:(lia) eq_refl eq_refl Hsame)
    as (o1' & o2' & H1 & H2 & Hbytes).
  exists o1', o2'. split; [exact H1 |]. split; [exact H2 |].
  exact (Hbytes 0 ltac:(lia)).
Defined.

(** X10: grey stays grey.  When the 25 clamped samples of pixel [(x, y)]
    each hold equal R, G and B bytes, the filter writes equal R, G and B
    bytes for this pixel, in every arithmetic and for all sigmas. *)
Theorem gray_stays_gray {F : Type} {FA : FloatArith F}
        (sigmaDomain sigmaRange : F) (input : list Z) (W H x y : Z) (o : list Z) :
  image_ok input W H ->
  0 <= x < W -> 0 <= y < H ->
  length o = Z.to_nat (W * H * 4) ->
  (forall c i j, 0 <= c < 3 -> -2 <= i <= 2 -> -2 <= j <= 2 ->
     nth (Z.to_nat ((clamp_to W (x + i) + clamp_to H (y + j) * W) * 4 + c)) input 0
     = nth (Z.to_nat ((clamp_to W (x + i) + clamp_to H (y + j) * W) * 4 + 0)) input 0) ->
  exists o',
    Runs (runReference sigmaDomain sigmaRange input W H) o tt o' /\
    forall c, 0 <= c < 3 ->
      nth (Z.to_nat ((x + y * W) * 4 + c)) o' 0
      = nth (Z.to_nat ((x + y * W) * 4 + 0)) o' 0.
Proof.
  intros Hok Hx Hy Ho Hgray.
  eexists. split; [apply runReference_runs; assumption |].
  intros c Hc. rewrite !filtered_formula by (assumption || lia).
  assert (E1 : map (fun '(i, j) =>
                      fmul (fl_weight sigmaDomain sigmaRange input W H x y i j)
                           (fl_sample input W H c x y i j)) loop_offsets
               = map (fun '(i, j) =>
                        fmul (fl_weight sigmaDomain sigmaRange input W H x y i j)
                             (fl_sample input W H 0 x y i j)) loop_offsets).
  { apply map_ext_in. intros [i j] Hin. apply in_loop_offsets in Hin.
    unfold fl_sample, fl_channel. rewrite (Hgray c i j) by lia. reflexivity. }
  unfold fl_output_channel, fl_weighted_mean. rewrite E1. reflexivity.
Qed.

Lemma gray_stays_gray_witness :
  image_ok [40; 40; 40; 255] 1 1 /\
  exists o',
    Runs (runReference (FA := B32 exp32) sigmaDomain_default sigmaRange_default
                       [40; 40; 40; 255] 1 1) [0; 0; 0; 0] tt o' /\
    nth 2 o' 0 = nth 0 o' 0.
Proof.
  split; [apply image_ok_1x1 |].
  assert (Hgray : forall c i j, 0 <= c < 3 -> -2 <= i <= 2 -> -2 <= j <= 2 ->
            nth (Z.to_nat ((clamp_to 1 (0 + i) + clamp_to 1 (0 + j) * 1) * 4 + c))
                [40; 40; 40; 255] 0
            = nth (Z.to_nat ((clamp_to 1 (0 + i) + clamp_to 1 (0 + j) * 1) * 4 + 0))
                  [40; 40; 40; 255] 0).
  { intros c i j Hc Hi Hj.
    assert (Ei : clamp_to 1 (0 + i) = 0)
      by (pose proof (clamp_to_spec 1 (0 + i) ltac:(lia)); lia).
    assert (Ej : clamp_to 1 (0 + j) = 0)
      by (pose proof (clamp_to_spec 1 (0 + j) ltac:(lia)); lia).
    rewrite Ei, Ej.
    assert (Hcc : c = 0 \/ c = 1 \/ c = 2) by lia.
    destruct Hcc as [-> | [-> | ->]]; reflexivity. }
  destruct (gray_stays_gray (FA := B32 exp32) sigmaDomain_default sigmaRange_default
              [40; 40; 40; 255] 1 1 0 0 [0; 0; 0; 0]
              (image_ok_1x1 _ _ _ _) ltac:(lia) ltac:(lia) eq_refl Hgray)
    as (o' & Hrun & Hbytes).
  exists o'. split; [exact Hrun |].
  exact (Hbytes 2 ltac:(lia)).
Defined.

(** ** From the command line to the verdict *)


